(** * procedural_map: the spatial-hash terrain grid and its entity index

    A shallow embedding of [src/perlinNoise.js], of the [Cell] class of
    [src/main.js], of the [Grid] and [Entity] classes of [src/Grid.js], of
    the harvest of [src/Tree.js] and of the camera window of [src/Game.js],
    followed by the properties of the specification that concern them and
    by further properties of the code.

    Conventions of the embedding.

    - Numbers.  A finite JavaScript number is a rational; it is modelled by
      the canonical rationals [Qc] (one representative per number, so that
      Leibniz equality is numeric equality, which is what a number used as a
      property key needs) and arithmetic is exact: rounding is not modelled.
      Where the source can produce [NaN] or an infinity (the flora table of
      [calculateTreeSpawnChance]) the extended type [JSNumber] is used.
    - Library functions with irrational values ([Math.cos], [Math.sin],
      [Math.PI], [Victor.normalize]) and the stream of [Math.random()] are
      fields of a [Runtime] record; nothing is assumed about them unless a
      statement says so.  A comparison of a square root with a rational
      ([Math.sqrt(d) <= r], [magnitude() > 0]) is decided exactly.
    - Objects.  Cells and entities live in stores indexed by addresses
      ([loc], [eid]); a reference is an address, so aliasing and the
      identity comparison [!==] are those of the source.
    - Re-entrancy.  [new Cell] spawns trees, whose constructor calls
      [Grid.addEntity], which calls [Grid.getCell] again; the recursion is
      bounded by a fuel argument that counts nested constructions.
    - Display.  The PIXI objects (containers, graphics, sprites) are no part
      of the state: a method is modelled by what it does to the grid, the
      cells and the entities.
    - Division.  The quotient of [Qc] is the exact quotient for a divisor
      other than zero; the divisors of the grid and of the camera are the
      cell size and the literal 2, and the statements that depend on the
      quotient assume the cell size positive, as the configuration requires.  In the flora table, where a divisor can be
      zero, the division is the one of [JSNumber]. *)

From Stdlib Require Import ZArith QArith Qcanon Qround Lia Reals Qreals Psatz.
From Stdlib Require Import Ascii String HexString.
From stdpp Require Import gmap strings pretty list sorting.

Local Open Scope Qc_scope.

(** ** Numbers *)

Definition Qcltb (a b : Qc) : bool := bool_decide (a < b).
Definition Qcleb (a b : Qc) : bool := bool_decide (a <= b).
Definition Qceqb (a b : Qc) : bool := bool_decide (a = b).

Definition Z2Qc (z : Z) : Qc := Q2Qc (inject_Z z).

(** [Math.floor], [Math.abs], [Math.max], [Math.min] on finite numbers. *)
Definition Math_floor (x : Qc) : Z := Qfloor x.
Definition Math_abs (x : Qc) : Qc := if Qcltb x 0 then - x else x.
Definition Math_max (a b : Qc) : Qc := if Qcltb a b then b else a.
Definition Math_min (a b : Qc) : Qc := if Qcltb b a then b else a.

(** [Math.sqrt(s) <= r], decided exactly: a square root is non-negative, and
    for [0 <= r] it is at most [r] when [s <= r * r]. *)
Definition sqrt_leb (s r : Qc) : bool := Qcleb 0 r && Qcleb s (r * r).
(** [Math.sqrt(s) > r]. *)
Definition sqrt_gtb (s r : Qc) : bool := negb (sqrt_leb s r).

(** The numbers of the runtime, with [NaN] and the infinities.  [undefined]
    in a numeric position converts to [NaN]. *)
Inductive JSNumber :=
  | Fin (q : Qc)
  | PInf
  | NInf
  | NaN.

Module JS.

Definition sign (q : Qc) : comparison := (0 ?= q)%Qc.

Definition neg (a : JSNumber) : JSNumber :=
  match a with
  | Fin q => Fin (- q)
  | PInf => NInf
  | NInf => PInf
  | NaN => NaN
  end.

Definition add (a b : JSNumber) : JSNumber :=
  match a, b with
  | NaN, _ | _, NaN => NaN
  | Fin x, Fin y => Fin (x + y)
  | PInf, NInf | NInf, PInf => NaN
  | PInf, _ | _, PInf => PInf
  | NInf, _ | _, NInf => NInf
  end.

Definition sub (a b : JSNumber) : JSNumber := add a (neg b).

(** An infinity with the sign of [q], [NaN] when [q] is zero. *)
Definition inf_signed (positive : bool) (q : Qc) : JSNumber :=
  match sign q with
  | Lt => if positive then PInf else NInf
  | Gt => if positive then NInf else PInf
  | Eq => NaN
  end.

Definition mul (a b : JSNumber) : JSNumber :=
  match a, b with
  | NaN, _ | _, NaN => NaN
  | Fin x, Fin y => Fin (x * y)
  | PInf, Fin q | Fin q, PInf => inf_signed true q
  | NInf, Fin q | Fin q, NInf => inf_signed false q
  | PInf, PInf | NInf, NInf => PInf
  | PInf, NInf | NInf, PInf => NaN
  end.

(** Division; the sign of a zero is not modelled, a non-zero number over
    zero is counted as over [+0]. *)
Definition div (a b : JSNumber) : JSNumber :=
  match a, b with
  | NaN, _ | _, NaN => NaN
  | Fin x, Fin y =>
      if Qceqb y 0 then inf_signed true x else Fin (x / y)
  | Fin _, (PInf | NInf) => Fin 0
  | PInf, Fin q => if Qcltb q 0 then NInf else PInf
  | NInf, Fin q => if Qcltb q 0 then PInf else NInf
  | (PInf | NInf), (PInf | NInf) => NaN
  end.

Definition abs (a : JSNumber) : JSNumber :=
  match a with
  | Fin q => Fin (Math_abs q)
  | PInf | NInf => PInf
  | NaN => NaN
  end.

(** [a < b]; false as soon as one side is [NaN]. *)
Definition lt (a b : JSNumber) : bool :=
  match a, b with
  | NaN, _ | _, NaN => false
  | Fin x, Fin y => Qcltb x y
  | NInf, NInf | PInf, _ | _, NInf => false
  | NInf, _ | _, PInf => true
  end.

Definition gt (a b : JSNumber) : bool := lt b a.

(** [Math.max(a, b)]: [NaN] as soon as one argument is. *)
Definition max (a b : JSNumber) : JSNumber :=
  match a, b with
  | NaN, _ | _, NaN => NaN
  | _, _ => if lt a b then b else a
  end.

End JS.

(** ** The runtime *)

Record Runtime := {
  Math_cos : Qc -> Qc;
  Math_sin : Qc -> Qc;
  Math_PI : Qc;
  (** the value returned by the [n]-th call of [Math.random()] *)
  Math_random : nat -> Qc;
  (** [new Victor(x, y).normalize()] *)
  Victor_normalize : Qc * Qc -> Qc * Qc;
}.

(** ** perlinNoise.js *)

Record PerlinNoise := {
  seed : Z;
  gradients : gmap string (Qc * Qc);
  memory : gmap (Qc * Qc) Qc;
}.

Definition PerlinNoise_new (seed : Z) : PerlinNoise :=
  {| seed := seed; gradients := ∅; memory := ∅ |}.

(** The key [`${ix},${iy}`] of a lattice point. *)
Definition gradientKey (ix iy : Z) : string :=
  pretty ix +:+ "," +:+ pretty iy.

(** The characters of a key: [c] does not occur in [s]; [c] is no digit. *)
Fixpoint no_char (c : ascii) (s : string) : Prop :=
  match s with
  | EmptyString => True
  | String c' s => c' <> c /\ no_char c s
  end.

Definition not_digit (c : ascii) : Prop :=
  forall x, pretty_N_char x <> c.

Section Noise.
Variable rt : Runtime.

Definition randomGradient (pn : PerlinNoise) (ix iy : Z)
  : (Qc * Qc) * PerlinNoise :=
  let key := gradientKey ix iy in
  match gradients pn !! key with
  | Some gradient => (gradient, pn)
  | None =>
      let hash :=
        Z.rem (ix * 374761393 + iy * 668265263 + seed pn * 1000) 2147483647 in
      let angle := Z2Qc hash / Z2Qc 2147483647 * Q2Qc 2 * Math_PI rt in
      let gradient := (Math_cos rt angle, Math_sin rt angle) in
      (gradient,
       {| seed := seed pn;
          gradients := <[key := gradient]> (gradients pn);
          memory := memory pn |})
  end.

Definition dotGridGradient (pn : PerlinNoise) (ix iy : Z) (x y : Qc)
  : Qc * PerlinNoise :=
  let '(gradient, pn) := randomGradient pn ix iy in
  let dx := x - Z2Qc ix in
  let dy := y - Z2Qc iy in
  (dx * gradient.1 + dy * gradient.2, pn).

Definition interpolate (a0 a1 w : Qc) : Qc :=
  (a1 - a0) * (Q2Qc 3 - w * Q2Qc 2) * w * w + a0.

(** [noise(x, y)]; the key [`${x},${y}`] of the memo table is the pair of
    numbers. *)
Definition noise (pn : PerlinNoise) (x y : Qc) : Qc * PerlinNoise :=
  let key := (x, y) in
  match memory pn !! key with
  | Some v => (v, pn)
  | None =>
      let x0 := Math_floor x in
      let x1 := (x0 + 1)%Z in
      let y0 := Math_floor y in
      let y1 := (y0 + 1)%Z in
      let sx := x - Z2Qc x0 in
      let sy := y - Z2Qc y0 in
      let '(n0, pn) := dotGridGradient pn x0 y0 x y in
      let '(n1, pn) := dotGridGradient pn x1 y0 x y in
      let ix0 := interpolate n0 n1 sx in
      let '(n2, pn) := dotGridGradient pn x0 y1 x y in
      let '(n3, pn) := dotGridGradient pn x1 y1 x y in
      let ix1 := interpolate n2 n3 sx in
      let value := interpolate ix0 ix1 sy in
      let normalized := (value + 1) / Q2Qc 2 in
      let v := Math_max 0 (Math_min 1 normalized) in
      (v,
       {| seed := seed pn;
          gradients := gradients pn;
          memory := <[key := v]> (memory pn) |})
  end.

End Noise.

(** ** Objects and the store *)

(** Addresses of [Cell] objects and of [Entity] objects. *)
Abbreviation loc := nat (only parsing).
Abbreviation eid := nat (only parsing).

Definition Victor : Type := Qc * Qc.

Record Cell := {
  Cell_x : Z;
  Cell_y : Z;
  Cell_cellSize : Qc;
  Cell_entities : gset eid;
  Cell_worldX : Qc;
  Cell_worldY : Qc;
  Cell_soilFertility : Qc;
  Cell_height : Qc;
  Cell_temperature : Qc;
  Cell_z : Qc;
  Cell_water : bool;
  Cell_beach : bool;
  Cell_frozen : bool;
  Cell_desert : bool;
  Cell_flowDirection : Victor;
  Cell_flowDirectionCalculated : bool;
  (** [None] is [undefined]: the table is created by the first call of
      [getNeighborsInRadius] *)
  Cell_neighborsInRadius : option (gmap Z (list loc));
}.

Record Entity := {
  Entity_position : Victor;
  Entity_currentCell : option loc;
  (** [Some] for a [Tree] *)
  Entity_treeType : option string;
}.

Record NoiseFrequencies := {
  freq_soilFertility : Qc;
  freq_height : Qc;
  freq_temperature : Qc;
}.

Record Grid := {
  Grid_cellSize : Qc;
  Grid_cells : gmap string loc;
  Grid_noiseFrequencies : NoiseFrequencies;
  Grid_soilNoiseGenerator : PerlinNoise;
  Grid_heightNoiseGenerator : PerlinNoise;
  Grid_temperatureNoiseGenerator : PerlinNoise;
}.

(** The state of a [Game]: its grid, every [Cell] and [Entity] object created
    so far, the number of [Math.random()] calls made, and the console. *)
Record World := {
  grid : Grid;
  heap : gmap loc Cell;
  ents : gmap eid Entity;
  random_calls : nat;
  console : list string;
}.

Definition Cell_with_entities (s : gset eid) (c : Cell) : Cell :=
  {| Cell_x := Cell_x c; Cell_y := Cell_y c; Cell_cellSize := Cell_cellSize c;
     Cell_entities := s;
     Cell_worldX := Cell_worldX c; Cell_worldY := Cell_worldY c;
     Cell_soilFertility := Cell_soilFertility c; Cell_height := Cell_height c;
     Cell_temperature := Cell_temperature c; Cell_z := Cell_z c;
     Cell_water := Cell_water c; Cell_beach := Cell_beach c;
     Cell_frozen := Cell_frozen c; Cell_desert := Cell_desert c;
     Cell_flowDirection := Cell_flowDirection c;
     Cell_flowDirectionCalculated := Cell_flowDirectionCalculated c;
     Cell_neighborsInRadius := Cell_neighborsInRadius c |}.

Definition Cell_with_flow (v : Victor) (calculated : bool) (c : Cell) : Cell :=
  {| Cell_x := Cell_x c; Cell_y := Cell_y c; Cell_cellSize := Cell_cellSize c;
     Cell_entities := Cell_entities c;
     Cell_worldX := Cell_worldX c; Cell_worldY := Cell_worldY c;
     Cell_soilFertility := Cell_soilFertility c; Cell_height := Cell_height c;
     Cell_temperature := Cell_temperature c; Cell_z := Cell_z c;
     Cell_water := Cell_water c; Cell_beach := Cell_beach c;
     Cell_frozen := Cell_frozen c; Cell_desert := Cell_desert c;
     Cell_flowDirection := v;
     Cell_flowDirectionCalculated := calculated;
     Cell_neighborsInRadius := Cell_neighborsInRadius c |}.

Definition Cell_with_neighborsInRadius
    (t : option (gmap Z (list loc))) (c : Cell) : Cell :=
  {| Cell_x := Cell_x c; Cell_y := Cell_y c; Cell_cellSize := Cell_cellSize c;
     Cell_entities := Cell_entities c;
     Cell_worldX := Cell_worldX c; Cell_worldY := Cell_worldY c;
     Cell_soilFertility := Cell_soilFertility c; Cell_height := Cell_height c;
     Cell_temperature := Cell_temperature c; Cell_z := Cell_z c;
     Cell_water := Cell_water c; Cell_beach := Cell_beach c;
     Cell_frozen := Cell_frozen c; Cell_desert := Cell_desert c;
     Cell_flowDirection := Cell_flowDirection c;
     Cell_flowDirectionCalculated := Cell_flowDirectionCalculated c;
     Cell_neighborsInRadius := t |}.

Definition Entity_with_currentCell (l : option loc) (e : Entity) : Entity :=
  {| Entity_position := Entity_position e;
     Entity_currentCell := l;
     Entity_treeType := Entity_treeType e |}.

Definition Entity_with_position (p : Victor) (e : Entity) : Entity :=
  {| Entity_position := p;
     Entity_currentCell := Entity_currentCell e;
     Entity_treeType := Entity_treeType e |}.

Definition Grid_with_cells (m : gmap string loc) (g : Grid) : Grid :=
  {| Grid_cellSize := Grid_cellSize g;
     Grid_cells := m;
     Grid_noiseFrequencies := Grid_noiseFrequencies g;
     Grid_soilNoiseGenerator := Grid_soilNoiseGenerator g;
     Grid_heightNoiseGenerator := Grid_heightNoiseGenerator g;
     Grid_temperatureNoiseGenerator := Grid_temperatureNoiseGenerator g |}.

Definition Grid_with_generators (s h t : PerlinNoise) (g : Grid) : Grid :=
  {| Grid_cellSize := Grid_cellSize g;
     Grid_cells := Grid_cells g;
     Grid_noiseFrequencies := Grid_noiseFrequencies g;
     Grid_soilNoiseGenerator := s;
     Grid_heightNoiseGenerator := h;
     Grid_temperatureNoiseGenerator := t |}.

Definition with_grid (g : Grid) (w : World) : World :=
  {| grid := g; heap := heap w; ents := ents w;
     random_calls := random_calls w; console := console w |}.

Definition with_heap (h : gmap loc Cell) (w : World) : World :=
  {| grid := grid w; heap := h; ents := ents w;
     random_calls := random_calls w; console := console w |}.

Definition with_ents (es : gmap eid Entity) (w : World) : World :=
  {| grid := grid w; heap := heap w; ents := es;
     random_calls := random_calls w; console := console w |}.

Definition with_random_calls (n : nat) (w : World) : World :=
  {| grid := grid w; heap := heap w; ents := ents w;
     random_calls := n; console := console w |}.

Definition with_console (out : list string) (w : World) : World :=
  {| grid := grid w; heap := heap w; ents := ents w;
     random_calls := random_calls w; console := out |}.

(** ** A state monad with failure

    [None] is a computation that does not return: the fuel of a nested
    construction ran out, or a reference does not name an object. *)

Definition M (A : Type) : Type := World -> option (A * World).

Definition ret {A} (a : A) : M A := fun w => Some (a, w).

Definition bind {A B} (c : M A) (k : A -> M B) : M B :=
  fun w => match c w with
           | Some (a, w') => k a w'
           | None => None
           end.

Definition fail {A} : M A := fun _ => None.

Definition gets {A} (f : World -> A) : M A := fun w => Some (f w, w).

Definition modify (f : World -> World) : M unit := fun w => Some (tt, f w).

Definition lift_option {A} (o : option A) : M A :=
  match o with
  | Some a => ret a
  | None => fail
  end.

Declare Scope monad_scope.
Delimit Scope monad_scope with M.
Notation "x <- c ;; k" := (bind c (fun x => k))
  (at level 100, c at next level, right associativity) : monad_scope.
Notation "c ;; k" := (bind c (fun _ => k))
  (at level 100, right associativity) : monad_scope.

Local Open Scope monad_scope.

(** Reading and writing objects through their address. *)
Definition read_cell (l : loc) : M Cell :=
  h <- gets heap ;; lift_option (h !! l).

Definition update_cell (l : loc) (f : Cell -> Cell) : M unit :=
  modify (fun w => with_heap (alter f l (heap w)) w).

Definition read_entity (e : eid) : M Entity :=
  es <- gets ents ;; lift_option (es !! e).

Definition update_entity (e : eid) (f : Entity -> Entity) : M unit :=
  modify (fun w => with_ents (alter f e (ents w)) w).

(** [Math.random()]: the next value of the runtime's stream. *)
Definition random (rt : Runtime) : M Qc :=
  fun w => Some (Math_random rt (random_calls w),
                 with_random_calls (S (random_calls w)) w).

(** The values of [i] in [for (let i = lo; i <= hi; i++)]. *)
Definition range (lo hi : Z) : list Z := seqZ lo (hi - lo + 1).

(** ** Victor.js vectors *)

Definition Victor_add (a b : Victor) : Victor := (a.1 + b.1, a.2 + b.2).

Definition Victor_multiplyScalar (a : Victor) (k : Qc) : Victor :=
  (a.1 * k, a.2 * k).

(** [v.magnitude() > 0], the magnitude being [Math.sqrt(x * x + y * y)]. *)
Definition Victor_magnitude_gt0 (v : Victor) : bool :=
  sqrt_gtb (v.1 * v.1 + v.2 * v.2) 0.

(** ** Tree.js: the catalogue of flora *)

Definition Tree_types : list string := ["oak"; "pine"; "birch"; "palm"; "maple"].

(** ** main.js: class Cell *)

Record TreePreferences := {
  heightMin : Qc; heightMax : Qc; heightOptimal : Qc;
  soilMin : Qc; soilMax : Qc; soilOptimal : Qc;
  tempMin : Qc; tempMax : Qc; tempOptimal : Qc;
}.

(** The object literal [treePreferences] of [calculateTreeSpawnChance]. *)
Definition treePreferences : list (string * TreePreferences) :=
  [ ("oak",
     {| heightMin := Q2Qc 0.4; heightMax := Q2Qc 0.7; heightOptimal := Q2Qc 0.55;
        soilMin := Q2Qc 0.4; soilMax := Q2Qc 0.7; soilOptimal := Q2Qc 0.55;
        tempMin := Q2Qc 0.4; tempMax := Q2Qc 0.7; tempOptimal := Q2Qc 0.55 |});
    ("pine",
     {| heightMin := Q2Qc 0.5; heightMax := Q2Qc 0.8; heightOptimal := Q2Qc 0.65;
        soilMin := Q2Qc 0.5; soilMax := Q2Qc 0.8; soilOptimal := Q2Qc 0.65;
        tempMin := Q2Qc 0.5; tempMax := Q2Qc 0.8; tempOptimal := Q2Qc 0.65 |});
    ("palm",
     {| heightMin := Q2Qc 0.45; heightMax := Q2Qc 0.75; heightOptimal := Q2Qc 0.6;
        soilMin := Q2Qc 0.45; soilMax := Q2Qc 0.75; soilOptimal := Q2Qc 0.6;
        tempMin := Q2Qc 0.45; tempMax := Q2Qc 0.75; tempOptimal := Q2Qc 0.6 |});
    ("birch",
     {| heightMin := Q2Qc 0.4; heightMax := Q2Qc 1; heightOptimal := Q2Qc 0.6;
        soilMin := Q2Qc 0.2; soilMax := Q2Qc 0.6; soilOptimal := Q2Qc 0.4;
        tempMin := Q2Qc 0.6; tempMax := Q2Qc 0.85; tempOptimal := Q2Qc 0.725 |});
    ("maple",
     {| heightMin := Q2Qc 0.6; heightMax := Q2Qc 0.85; heightOptimal := Q2Qc 0.6;
        soilMin := Q2Qc 0.5; soilMax := Q2Qc 0.9; soilOptimal := Q2Qc 0.7;
        tempMin := Q2Qc 0.1; tempMax := Q2Qc 0.4; tempOptimal := Q2Qc 0.25 |}) ].

(** The property names every object literal inherits from
    [Object.prototype]; each of them names a function or an object. *)
Definition Object_prototype_keys : list string :=
  [ "constructor"; "__defineGetter__"; "__defineSetter__"; "hasOwnProperty";
    "__lookupGetter__"; "__lookupSetter__"; "isPrototypeOf";
    "propertyIsEnumerable"; "toString"; "valueOf"; "__proto__";
    "toLocaleString" ].

(** The value of [treePreferences[treeType]]: an entry of the literal, a
    member of the prototype, or [undefined]. *)
Inductive PrefsLookup :=
  | OwnEntry (p : TreePreferences)
  | Inherited
  | Undefined.

Fixpoint assoc {A} (k : string) (l : list (string * A)) : option A :=
  match l with
  | [] => None
  | (k', a) :: l => if String.eqb k k' then Some a else assoc k l
  end.

Definition treePreferences_get (treeType : string) : PrefsLookup :=
  match assoc treeType treePreferences with
  | Some p => OwnEntry p
  | None =>
      if bool_decide (treeType ∈ Object_prototype_keys) then Inherited
      else Undefined
  end.

(** [prefs.field] in a numeric position: a member of the prototype has none
    of the fields, and [undefined] converts to [NaN]. *)
Definition prefs_field (f : TreePreferences -> Qc) (prefs : PrefsLookup)
  : JSNumber :=
  match prefs with
  | OwnEntry p => Fin (f p)
  | Inherited | Undefined => NaN
  end.

Definition Cell_calculatePropertyFitness (value min max optimal : JSNumber)
  : JSNumber :=
  if JS.lt value min || JS.gt value max then Fin 0
  else
    let distanceFromOptimal := JS.abs (JS.sub value optimal) in
    let maxDistance := JS.max (JS.sub optimal min) (JS.sub max optimal) in
    let fitness := JS.sub (Fin 1) (JS.div distanceFromOptimal maxDistance) in
    JS.max (Fin 0) fitness.

(** [calculateTreeSpawnChance]: the chance, and the line written by
    [console.warn] if any. *)
Definition Cell_calculateTreeSpawnChance
    (height soilFertility temperature : JSNumber) (treeType : string)
  : JSNumber * option string :=
  let prefs := treePreferences_get treeType in
  match prefs with
  | Undefined => (Fin 0, Some ("Unknown tree type: " +:+ treeType))
  | _ =>
      let heightFitness :=
        Cell_calculatePropertyFitness height
          (prefs_field heightMin prefs) (prefs_field heightMax prefs)
          (prefs_field heightOptimal prefs) in
      let soilFitness :=
        Cell_calculatePropertyFitness soilFertility
          (prefs_field soilMin prefs) (prefs_field soilMax prefs)
          (prefs_field soilOptimal prefs) in
      let tempFitness :=
        Cell_calculatePropertyFitness temperature
          (prefs_field tempMin prefs) (prefs_field tempMax prefs)
          (prefs_field tempOptimal prefs) in
      let combinedFitness :=
        JS.mul (JS.mul heightFitness soilFitness) tempFitness in
      let baseSpawnRate := Fin (Q2Qc 0.3) in
      (JS.mul combinedFitness baseSpawnRate, None)
  end.

(** The first loop of [spawnTreesHere]: the types whose chance is positive,
    in the order of [treeTypes], and the warnings written meanwhile. *)
Fixpoint treeChances_of (height soilFertility temperature : Qc)
    (treeTypes : list string) : list (string * JSNumber) * list string :=
  match treeTypes with
  | [] => ([], [])
  | treeType :: rest =>
      let '(chance, warning) :=
        Cell_calculateTreeSpawnChance
          (Fin height) (Fin soilFertility) (Fin temperature) treeType in
      let '(chances, warnings) :=
        treeChances_of height soilFertility temperature rest in
      ((if JS.gt chance (Fin 0) then (treeType, chance) :: chances
        else chances),
       (match warning with Some line => line :: warnings | None => warnings end))
  end.

(** [treeChances.sort((a, b) => b.chance - a.chance)]: a stable sort, highest
    chance first. *)
Fixpoint insert_by_chance (a : string * JSNumber)
    (l : list (string * JSNumber)) : list (string * JSNumber) :=
  match l with
  | [] => [a]
  | b :: l' =>
      if JS.lt a.2 b.2 then b :: insert_by_chance a l' else a :: b :: l'
  end.

Definition sort_by_chance (l : list (string * JSNumber))
  : list (string * JSNumber) :=
  foldr insert_by_chance [] l.

(** The fields a constructor call computes from the three samples. *)
Definition Cell_init (x y : Z) (cellSize soilFertility height temperature : Qc)
  : Cell :=
  {| Cell_x := x;
     Cell_y := y;
     Cell_cellSize := cellSize;
     Cell_entities := ∅;
     Cell_worldX := Z2Qc x * cellSize;
     Cell_worldY := Z2Qc y * cellSize;
     Cell_soilFertility := soilFertility;
     Cell_height := height;
     Cell_temperature := temperature;
     Cell_z := 0;
     Cell_water := Qcltb height (Q2Qc 0.4);
     Cell_beach := Qcltb (Q2Qc 0.4) height && Qcltb height (Q2Qc 0.45);
     Cell_frozen := Qcltb temperature (Q2Qc 0.3);
     Cell_desert := Qcltb (Q2Qc 0.7) temperature;
     Cell_flowDirection := (0, 0);
     Cell_flowDirectionCalculated := false;
     Cell_neighborsInRadius := None |}.

Definition Cell_addEntity (l : loc) (e : eid) : M unit :=
  update_cell l (fun c => Cell_with_entities (Cell_entities c ∪ {[e]}) c).

Definition Cell_removeEntity (l : loc) (e : eid) : M unit :=
  update_cell l (fun c => Cell_with_entities (Cell_entities c ∖ {[e]}) c).

Definition Cell_getEntities (l : loc) : M (gset eid) :=
  c <- read_cell l ;; ret (Cell_entities c).

Definition Cell_clear (c : Cell) : Cell := Cell_with_entities ∅ c.

(** ** Grid.js: keys and coordinates *)

(** [`x_${cellX}_y_${cellY}`] *)
Definition Grid_getCellKey (cellX cellY : Z) : string :=
  "x_" +:+ pretty cellX +:+ "_y_" +:+ pretty cellY.

Definition Grid_worldToCell (g : Grid) (worldX worldY : Qc) : Z * Z :=
  (Math_floor (worldX / Grid_cellSize g), Math_floor (worldY / Grid_cellSize g)).

Definition Grid_new (cellSize : Qc) (noiseFrequencies : NoiseFrequencies) : Grid :=
  {| Grid_cellSize := cellSize;
     Grid_cells := ∅;
     Grid_noiseFrequencies := noiseFrequencies;
     Grid_soilNoiseGenerator := PerlinNoise_new 123;
     Grid_heightNoiseGenerator := PerlinNoise_new 456;
     Grid_temperatureNoiseGenerator := PerlinNoise_new 789 |}.

(** A [Game] just constructed: the grid is empty and nothing exists yet. *)
Definition Game_new (cellSize : Qc) (noiseFrequencies : NoiseFrequencies) : World :=
  {| grid := Grid_new cellSize noiseFrequencies;
     heap := ∅; ents := ∅; random_calls := 0; console := [] |}.

(** [for (const b of l) acc = f(b, acc)] *)
Fixpoint foldM {A B} (f : B -> A -> M A) (l : list B) (acc : A) : M A :=
  match l with
  | [] => ret acc
  | b :: l => acc' <- f b acc ;; foldM f l acc'
  end.

Definition alloc_cell (c : Cell) : M loc :=
  fun w => let l := fresh (dom (heap w)) in
           Some (l, with_heap (<[l := c]> (heap w)) w).

Definition alloc_entity (E : Entity) : M eid :=
  fun w => let e := fresh (dom (ents w)) in
           Some (e, with_ents (<[e := E]> (ents w)) w).

Section Game.
Variable rt : Runtime.

(** *** Cell: construction *)

(** The second loop of [spawnTreesHere], over the sorted candidates. *)
Fixpoint spawn_loop (createTree : Qc -> Qc -> string -> M unit) (this : Cell)
    (treeChances : list (string * JSNumber)) (treesSpawned : nat) : M unit :=
  match treeChances with
  | [] => ret tt
  | treeData :: rest =>
      if (2 <=? treesSpawned)%nat then ret tt
      else
        r <- random rt ;;
        if JS.lt (Fin r) (JS.mul treeData.2 (Fin 1)) then
          rx <- random rt ;;
          ry <- random rt ;;
          createTree (Cell_worldX this + Cell_cellSize this * rx)
                     (Cell_worldY this + Cell_cellSize this * ry)
                     treeData.1 ;;
          spawn_loop createTree this rest (S treesSpawned)
        else spawn_loop createTree this rest treesSpawned
  end.

Definition Cell_spawnTreesHere (createTree : Qc -> Qc -> string -> M unit)
    (l : loc) : M unit :=
  this <- read_cell l ;;
  if Cell_water this then ret tt
  else
    let '(treeChances, warnings) :=
      treeChances_of (Cell_height this) (Cell_soilFertility this)
                     (Cell_temperature this) Tree_types in
    modify (fun w => with_console (console w ++ warnings) w) ;;
    match treeChances with
    | [] => ret tt
    | _ => spawn_loop createTree this (sort_by_chance treeChances) 0
    end.

(** [new Cell(x, y, cellSize, grid)]: the three samples, the object, and
    [spawnTreesHere]; [createTree] is [grid.game.createTree]. *)
Definition Cell_constructor (createTree : Qc -> Qc -> string -> M unit)
    (x y : Z) (cellSize : Qc) : M loc :=
  g <- gets grid ;;
  let f := Grid_noiseFrequencies g in
  let soilScale := Z2Qc x * freq_soilFertility f in
  let heightScale := Z2Qc x * freq_height f in
  let temperatureScale := Z2Qc x * freq_temperature f in
  let soilScaleY := Z2Qc y * freq_soilFertility f in
  let heightScaleY := Z2Qc y * freq_height f in
  let temperatureScaleY := Z2Qc y * freq_temperature f in
  let '(soilFertility, sg) :=
    noise rt (Grid_soilNoiseGenerator g) soilScale soilScaleY in
  let '(height, hg) :=
    noise rt (Grid_heightNoiseGenerator g) heightScale heightScaleY in
  let '(temperature, tg) :=
    noise rt (Grid_temperatureNoiseGenerator g)
      temperatureScale temperatureScaleY in
  modify (fun w => with_grid (Grid_with_generators sg hg tg (grid w)) w) ;;
  this <- alloc_cell (Cell_init x y cellSize soilFertility height temperature) ;;
  Cell_spawnTreesHere createTree this ;;
  ret this.

(** *** Entity and Tree: construction *)

(** [new Entity(x, y, game)]: the object, then [game.grid.addEntity(this)]. *)
Definition Entity_constructor (Grid_addEntity : eid -> M unit) (x y : Qc)
  : M eid :=
  this <- alloc_entity {| Entity_position := (x, y);
                          Entity_currentCell := None;
                          Entity_treeType := None |} ;;
  Grid_addEntity this ;;
  ret this.

(** [new Tree(x, y, game, type)], for a [type] that is not empty. *)
Definition Tree_constructor (Grid_addEntity : eid -> M unit) (x y : Qc)
    (type : string) : M eid :=
  this <- Entity_constructor Grid_addEntity x y ;;
  update_entity this (fun E =>
    {| Entity_position := Entity_position E;
       Entity_currentCell := Entity_currentCell E;
       Entity_treeType := Some type |}) ;;
  ret this.

(** *** Grid: cells and the entity index

    The methods that reach [getCell] take it as an argument; the knot is
    tied by [Grid_getCell] below. *)

Definition Grid_getCellAtWorldPos_with (getCell : Z -> Z -> M loc)
    (worldX worldY : Qc) : M loc :=
  g <- gets grid ;;
  let '(cellX, cellY) := Grid_worldToCell g worldX worldY in
  getCell cellX cellY.

Definition Grid_addEntity_with (getCell : Z -> Z -> M loc) (entity : eid)
  : M unit :=
  E <- read_entity entity ;;
  cell <- Grid_getCellAtWorldPos_with getCell
            (Entity_position E).1 (Entity_position E).2 ;;
  Cell_addEntity cell entity ;;
  update_entity entity (Entity_with_currentCell (Some cell)).

Definition Game_createTree_with (getCell : Z -> Z -> M loc) (x y : Qc)
    (treeType : string) : M unit :=
  Tree_constructor (Grid_addEntity_with getCell) x y treeType ;; ret tt.

(** [getCell]; [fuel] bounds the depth of nested constructions. *)
Fixpoint Grid_getCell (fuel : nat) (cellX cellY : Z) : M loc :=
  fun w =>
    let key := Grid_getCellKey cellX cellY in
    match Grid_cells (grid w) !! key with
    | Some cell => Some (cell, w)
    | None =>
        match fuel with
        | O => None
        | S fuel' =>
            (cell <- Cell_constructor
                       (Game_createTree_with (Grid_getCell fuel'))
                       cellX cellY (Grid_cellSize (grid w)) ;;
             modify (fun w =>
               with_grid
                 (Grid_with_cells (<[key := cell]> (Grid_cells (grid w)))
                    (grid w)) w) ;;
             ret cell) w
        end
    end.

Definition Grid_getCellAtWorldPos (fuel : nat) : Qc -> Qc -> M loc :=
  Grid_getCellAtWorldPos_with (Grid_getCell fuel).

Definition Grid_addEntity (fuel : nat) : eid -> M unit :=
  Grid_addEntity_with (Grid_getCell fuel).

Definition Game_createTree (fuel : nat) : Qc -> Qc -> string -> M unit :=
  Game_createTree_with (Grid_getCell fuel).

Definition Grid_removeEntity (entity : eid) : M unit :=
  E <- read_entity entity ;;
  match Entity_currentCell E with
  | Some cell =>
      Cell_removeEntity cell entity ;;
      update_entity entity (Entity_with_currentCell None)
  | None => ret tt
  end.

Definition Grid_updateEntity (fuel : nat) (entity : eid) : M unit :=
  E <- read_entity entity ;;
  newCell <- Grid_getCellAtWorldPos fuel
               (Entity_position E).1 (Entity_position E).2 ;;
  E <- read_entity entity ;;
  if bool_decide (Entity_currentCell E = Some newCell) then ret tt
  else
    match Entity_currentCell E with
    | Some cell => Cell_removeEntity cell entity
    | None => ret tt
    end ;;
    Cell_addEntity newCell entity ;;
    update_entity entity (Entity_with_currentCell (Some newCell)).

(** *** Grid: queries *)

(** [cell.getEntities().forEach(...)] of [getEntitiesInRadius]. *)
Definition radius_filter (centerX centerY radius : Qc) (entity : eid)
    (entities : gset eid) : M (gset eid) :=
  E <- read_entity entity ;;
  let dx := (Entity_position E).1 - centerX in
  let dy := (Entity_position E).2 - centerY in
  if sqrt_leb (dx * dx + dy * dy) radius then ret (entities ∪ {[entity]})
  else ret entities.

Definition Grid_getEntitiesInRadius (centerX centerY radius : Qc)
  : M (gset eid) :=
  g <- gets grid ;;
  let minCellX := Math_floor ((centerX - radius) / Grid_cellSize g) in
  let maxCellX := Math_floor ((centerX + radius) / Grid_cellSize g) in
  let minCellY := Math_floor ((centerY - radius) / Grid_cellSize g) in
  let maxCellY := Math_floor ((centerY + radius) / Grid_cellSize g) in
  foldM (fun cellX entities =>
    foldM (fun cellY entities =>
      let key := Grid_getCellKey cellX cellY in
      g <- gets grid ;;
      match Grid_cells g !! key with
      | Some cell =>
          members <- Cell_getEntities cell ;;
          foldM (radius_filter centerX centerY radius)
                (elements members) entities
      | None => ret entities
      end) (range minCellY maxCellY) entities)
    (range minCellX maxCellX) ∅.

(** [cell.getEntities().forEach(...)] of [getEntitiesInArea]. *)
Definition area_filter (x y width height : Qc) (entity : eid)
    (entities : gset eid) : M (gset eid) :=
  E <- read_entity entity ;;
  if Qcleb x (Entity_position E).1
     && Qcleb (Entity_position E).1 (x + width)
     && Qcleb y (Entity_position E).2
     && Qcleb (Entity_position E).2 (y + height)
  then ret (entities ∪ {[entity]})
  else ret entities.

Definition Grid_getEntitiesInArea (x y width height : Qc) : M (gset eid) :=
  g <- gets grid ;;
  let minCellX := Math_floor (x / Grid_cellSize g) in
  let maxCellX := Math_floor ((x + width) / Grid_cellSize g) in
  let minCellY := Math_floor (y / Grid_cellSize g) in
  let maxCellY := Math_floor ((y + height) / Grid_cellSize g) in
  foldM (fun cellX entities =>
    foldM (fun cellY entities =>
      let key := Grid_getCellKey cellX cellY in
      g <- gets grid ;;
      match Grid_cells g !! key with
      | Some cell =>
          members <- Cell_getEntities cell ;;
          foldM (area_filter x y width height) (elements members) entities
      | None => ret entities
      end) (range minCellY maxCellY) entities)
    (range minCellX maxCellX) ∅.

(** [clear]: every cell of the map is emptied, then the map is dropped. *)
Definition Grid_clear : M unit :=
  g <- gets grid ;;
  foldM (fun cell (_ : unit) => update_cell cell Cell_clear)
        (map snd (map_to_list (Grid_cells g))) tt ;;
  modify (fun w => with_grid (Grid_with_cells ∅ (grid w)) w).

(** *** Cell: neighbours and flow *)

(** The two loops of [getNeighborsInRadius], which push the cells found in
    the grid's map. *)
Definition neighbors_scan (cells : gmap string loc) (x y radius : Z)
  : list loc :=
  dx ← range (- radius) radius;
  dy ← range (- radius) radius;
  if bool_decide (dx = 0%Z) && bool_decide (dy = 0%Z) then []
  else
    let neighborX := (x + dx)%Z in
    let neighborY := (y + dy)%Z in
    let neighborKey := Grid_getCellKey neighborX neighborY in
    match cells !! neighborKey with
    | Some neighbor => [neighbor]
    | None => []
    end.

Definition Cell_getNeighborsInRadius (l : loc) (radius : Z) : M (list loc) :=
  update_cell l (fun this =>
    match Cell_neighborsInRadius this with
    | None => Cell_with_neighborsInRadius (Some ∅) this
    | Some _ => this
    end) ;;
  this <- read_cell l ;;
  let table := default ∅ (Cell_neighborsInRadius this) in
  match table !! radius with
  | Some cached => ret cached
  | None =>
      g <- gets grid ;;
      let neighbors :=
        neighbors_scan (Grid_cells g) (Cell_x this) (Cell_y this) radius in
      update_cell l
        (Cell_with_neighborsInRadius (Some (<[radius := neighbors]> table))) ;;
      ret neighbors
  end.

Definition Cell_getNeighbors (l : loc) : M (list loc) :=
  Cell_getNeighborsInRadius l 1.

(** The body of the loop of [calculateFlowDirection]. *)
Definition flow_step (this : Cell) (neighbor : loc) (flowVector : Victor)
  : M Victor :=
  n <- read_cell neighbor ;;
  let heightDifference := Cell_height this - Cell_height n in
  let dx := (Cell_x n - Cell_x this)%Z in
  let dy := (Cell_y n - Cell_y this)%Z in
  let directionToNeighbor := Victor_normalize rt (Z2Qc dx, Z2Qc dy) in
  let flowContribution :=
    Victor_multiplyScalar directionToNeighbor heightDifference in
  ret (Victor_add flowVector flowContribution).

Definition Cell_calculateFlowDirection (l : loc) : M Victor :=
  neighbors <- Cell_getNeighborsInRadius l 3 ;;
  this <- read_cell l ;;
  flowVector <- foldM (flow_step this) neighbors (0, 0) ;;
  let flowDirection :=
    if Victor_magnitude_gt0 flowVector then Victor_normalize rt flowVector
    else (0, 0) in
  update_cell l (fun this =>
    Cell_with_flow flowDirection (Cell_flowDirectionCalculated this) this) ;;
  ret flowDirection.

Definition Cell_getFlowDirection (l : loc) : M Victor :=
  this <- read_cell l ;;
  (if Cell_flowDirectionCalculated this then ret tt
   else
     v <- Cell_calculateFlowDirection l ;;
     update_cell l (Cell_with_flow v true)) ;;
  this <- read_cell l ;;
  ret (Cell_flowDirection this).

Definition Cell_recalculateFlowDirection (l : loc) : M unit :=
  v <- Cell_calculateFlowDirection l ;;
  update_cell l (Cell_with_flow v true).

End Game.

(** ** Runs of the public interface *)

Inductive Op :=
  | OpGetCell (cellX cellY : Z)
  | OpGetCellAtWorldPos (worldX worldY : Qc)
  (** [new Entity(x, y, game)], whose constructor calls [grid.addEntity] *)
  | OpNewEntity (x y : Qc)
  (** [entity.setPosition(x, y)], without a call of the grid *)
  | OpSetPosition (entity : eid) (x y : Qc)
  (** [grid.addEntity(entity)], the entity being at [(x, y)] *)
  | OpAddEntity (entity : eid) (x y : Qc)
  (** [grid.updateEntity(entity)], the entity being at [(x, y)] *)
  | OpUpdateEntity (entity : eid) (x y : Qc)
  | OpRemoveEntity (entity : eid)
  | OpGetEntitiesInRadius (centerX centerY radius : Qc)
  | OpGetEntitiesInArea (x y width height : Qc)
  | OpClear
  | OpGetNeighborsInRadius (cell : loc) (radius : Z)
  | OpGetFlowDirection (cell : loc)
  | OpRecalculateFlowDirection (cell : loc).

Definition Entity_setPosition (entity : eid) (x y : Qc) : M unit :=
  read_entity entity ;;
  update_entity entity (Entity_with_position (x, y)).

Definition run_op (rt : Runtime) (fuel : nat) (op : Op) : M unit :=
  match op with
  | OpGetCell cellX cellY => Grid_getCell rt fuel cellX cellY ;; ret tt
  | OpGetCellAtWorldPos x y => Grid_getCellAtWorldPos rt fuel x y ;; ret tt
  | OpNewEntity x y => Entity_constructor (Grid_addEntity rt fuel) x y ;; ret tt
  | OpSetPosition e x y => Entity_setPosition e x y
  | OpAddEntity e x y => Entity_setPosition e x y ;; Grid_addEntity rt fuel e
  | OpUpdateEntity e x y => Entity_setPosition e x y ;; Grid_updateEntity rt fuel e
  | OpRemoveEntity e => Grid_removeEntity e
  | OpGetEntitiesInRadius cx cy r => Grid_getEntitiesInRadius cx cy r ;; ret tt
  | OpGetEntitiesInArea x y width height =>
      Grid_getEntitiesInArea x y width height ;; ret tt
  | OpClear => Grid_clear
  | OpGetNeighborsInRadius cell radius =>
      Cell_getNeighborsInRadius cell radius ;; ret tt
  | OpGetFlowDirection cell => Cell_getFlowDirection rt cell ;; ret tt
  | OpRecalculateFlowDirection cell => Cell_recalculateFlowDirection rt cell
  end.

Fixpoint run_ops (rt : Runtime) (fuel : nat) (ops : list Op) : M unit :=
  match ops with
  | [] => ret tt
  | op :: ops => run_op rt fuel op ;; run_ops rt fuel ops
  end.

(** The worlds a game reaches from its construction. *)
Definition reachable (rt : Runtime) (cellSize : Qc) (f : NoiseFrequencies)
    (w : World) : Prop :=
  exists fuel ops, run_ops rt fuel ops (Game_new cellSize f) = Some (tt, w).

(** The calls that maintain the entity index: everything but [clear] and a
    move without [updateEntity]; [addEntity] only for an entity that is not
    tracked when the call is made. *)
Definition index_call (w : World) (op : Op) : bool :=
  match op with
  | OpClear | OpSetPosition _ _ _ => false
  | OpAddEntity e _ _ =>
      match ents w !! e with
      | Some E => bool_decide (Entity_currentCell E = None)
      | None => true
      end
  | _ => true
  end.

Fixpoint index_calls (rt : Runtime) (fuel : nat) (ops : list Op) (w : World)
  : bool :=
  match ops with
  | [] => true
  | op :: ops =>
      index_call w op &&
      match run_op rt fuel op w with
      | Some (_, w') => index_calls rt fuel ops w'
      | None => true
      end
  end.

(** ** Specification *)

(** *** The noise as a function (refinement target of [noise]) *)

Definition gradient_pure (rt : Runtime) (seed : Z) (ix iy : Z) : Qc * Qc :=
  let hash := Z.rem (ix * 374761393 + iy * 668265263 + seed * 1000) 2147483647 in
  let angle := Z2Qc hash / Z2Qc 2147483647 * Q2Qc 2 * Math_PI rt in
  (Math_cos rt angle, Math_sin rt angle).

Definition dot_pure (rt : Runtime) (seed : Z) (ix iy : Z) (x y : Qc) : Qc :=
  let g := gradient_pure rt seed ix iy in
  (x - Z2Qc ix) * g.1 + (y - Z2Qc iy) * g.2.

Definition noise_pure (rt : Runtime) (seed : Z) (x y : Qc) : Qc :=
  let x0 := Math_floor x in
  let y0 := Math_floor y in
  let sx := x - Z2Qc x0 in
  let sy := y - Z2Qc y0 in
  let ix0 :=
    interpolate (dot_pure rt seed x0 y0 x y) (dot_pure rt seed (x0 + 1) y0 x y) sx in
  let ix1 :=
    interpolate (dot_pure rt seed x0 (y0 + 1) x y)
                (dot_pure rt seed (x0 + 1) (y0 + 1) x y) sx in
  Math_max 0 (Math_min 1 ((interpolate ix0 ix1 sy + 1) / Q2Qc 2)).

(** The caches of a generator hold values of the functions above only. *)
Definition memo_ok (rt : Runtime) (pn : PerlinNoise) : Prop :=
  (forall ix iy g, gradients pn !! gradientKey ix iy = Some g ->
                   g = gradient_pure rt (seed pn) ix iy) /\
  (forall x y v, memory pn !! (x, y) = Some v -> v = noise_pure rt (seed pn) x y).

(** The terrain of the cell at [(x, y)] as a function of the configuration. *)
Definition terrain_soilFertility (rt : Runtime) (f : NoiseFrequencies) (x y : Z) : Qc :=
  noise_pure rt 123 (Z2Qc x * freq_soilFertility f) (Z2Qc y * freq_soilFertility f).
Definition terrain_height (rt : Runtime) (f : NoiseFrequencies) (x y : Z) : Qc :=
  noise_pure rt 456 (Z2Qc x * freq_height f) (Z2Qc y * freq_height f).
Definition terrain_temperature (rt : Runtime) (f : NoiseFrequencies) (x y : Z) : Qc :=
  noise_pure rt 789 (Z2Qc x * freq_temperature f) (Z2Qc y * freq_temperature f).

(** The cell the grid constructs at [(x, y)], before any entity enters it. *)
Definition Cell_at (rt : Runtime) (cellSize : Qc) (f : NoiseFrequencies)
    (x y : Z) : Cell :=
  Cell_init x y cellSize (terrain_soilFertility rt f x y)
    (terrain_height rt f x y) (terrain_temperature rt f x y).

(** The fields of a cell that no method assigns after construction. *)
Definition Cell_terrain (c : Cell) :=
  (Cell_cellSize c, Cell_worldX c, Cell_worldY c,
   Cell_soilFertility c, Cell_height c, Cell_temperature c, Cell_z c,
   (Cell_water c, Cell_beach c, Cell_frozen c, Cell_desert c)).

(** *** Well-formed worlds *)

Record world_ok (rt : Runtime) (w : World) : Prop := {
  (** a cell of the map is an object, stored under the key of its coordinates *)
  ok_cells : forall key l, Grid_cells (grid w) !! key = Some l ->
      exists c, heap w !! l = Some c /\ key = Grid_getCellKey (Cell_x c) (Cell_y c);
  (** a member of a cell is an object *)
  ok_members : forall l c e, heap w !! l = Some c -> e ∈ Cell_entities c ->
      is_Some (ents w !! e);
  (** a cached neighbour is an object *)
  ok_neighbors : forall l c t r ns l', heap w !! l = Some c ->
      Cell_neighborsInRadius c = Some t -> t !! r = Some ns -> l' ∈ ns ->
      is_Some (heap w !! l');
  (** the terrain of a cell is the terrain of its coordinates *)
  ok_terrain : forall l c, heap w !! l = Some c ->
      Cell_terrain c =
      Cell_terrain (Cell_at rt (Grid_cellSize (grid w))
                      (Grid_noiseFrequencies (grid w)) (Cell_x c) (Cell_y c));
  ok_soil : memo_ok rt (Grid_soilNoiseGenerator (grid w))
            /\ seed (Grid_soilNoiseGenerator (grid w)) = 123%Z;
  ok_height : memo_ok rt (Grid_heightNoiseGenerator (grid w))
              /\ seed (Grid_heightNoiseGenerator (grid w)) = 456%Z;
  ok_temperature : memo_ok rt (Grid_temperatureNoiseGenerator (grid w))
                   /\ seed (Grid_temperatureNoiseGenerator (grid w)) = 789%Z;
}.

(** *** The entity index *)

(** Membership of one entity: tracked, it is a member of its current cell
    and of no other cell; untracked, it is a member of no cell. *)
Definition membership_ok (w : World) (e : eid) : Prop :=
  forall E, ents w !! e = Some E ->
    match Entity_currentCell E with
    | Some l =>
        (exists c, heap w !! l = Some c /\ e ∈ Cell_entities c) /\
        (forall l' c', heap w !! l' = Some c' -> e ∈ Cell_entities c' -> l' = l)
    | None => forall l' c', heap w !! l' = Some c' -> e ∉ Cell_entities c'
    end.

(** The current cell of a tracked entity has the coordinates of its
    position. *)
Definition position_ok (w : World) (e : eid) : Prop :=
  forall E l c, ents w !! e = Some E -> Entity_currentCell E = Some l ->
    heap w !! l = Some c ->
    (Cell_x c, Cell_y c) =
    Grid_worldToCell (grid w) (Entity_position E).1 (Entity_position E).2.

Definition index_inv_at (w : World) (e : eid) : Prop :=
  membership_ok w e /\ position_ok w e.

Definition index_inv (w : World) : Prop := forall e, index_inv_at w e.

(** The position [(px, py)] lies in the square of the cell. *)
Definition in_cell_range (c : Cell) (px py : Qc) : Prop :=
  Cell_worldX c <= px /\ px < Cell_worldX c + Cell_cellSize c /\
  Cell_worldY c <= py /\ py < Cell_worldY c + Cell_cellSize c.

(** The hypothesis of the radius query: the cells of the map and their
    members are objects, and a tracked entity is a member of the cell of the
    map that contains its position. *)
Record index_consistent (w : World) : Prop := {
  consistent_cells : forall key l, Grid_cells (grid w) !! key = Some l ->
      is_Some (heap w !! l);
  consistent_members : forall key l c e, Grid_cells (grid w) !! key = Some l ->
      heap w !! l = Some c -> e ∈ Cell_entities c -> is_Some (ents w !! e);
  consistent_tracked : forall e E, ents w !! e = Some E ->
      Entity_currentCell E <> None ->
      exists l c,
        Grid_cells (grid w) !!
          Grid_getCellKey
            (Grid_worldToCell (grid w) (Entity_position E).1 (Entity_position E).2).1
            (Grid_worldToCell (grid w) (Entity_position E).1 (Entity_position E).2).2
        = Some l /\
        heap w !! l = Some c /\ e ∈ Cell_entities c;
}.

(** The Euclidean distance from [(cx, cy)] to [(px, py)] is at most [r]. *)
Definition within_distance (cx cy r px py : Qc) : Prop :=
  (sqrt ((Q2R px - Q2R cx) * (Q2R px - Q2R cx)
         + (Q2R py - Q2R cy) * (Q2R py - Q2R cy)) <= Q2R r)%R.

(** *** What a construction may change

    Relative to the entities [D] that exist beforehand: their records and
    their memberships stay; the cells that exist keep everything but their
    members; the configuration of the grid stays. *)
Record evolves (D : gset eid) (w w' : World) : Prop := {
  ev_cellSize : Grid_cellSize (grid w') = Grid_cellSize (grid w);
  ev_frequencies : Grid_noiseFrequencies (grid w') = Grid_noiseFrequencies (grid w);
  ev_entities : forall e E, e ∈ D -> ents w !! e = Some E -> ents w' !! e = Some E;
  ev_entities_dom : forall e, is_Some (ents w !! e) -> is_Some (ents w' !! e);
  ev_cells : forall l c, heap w !! l = Some c ->
      exists c', heap w' !! l = Some c' /\
                 Cell_x c' = Cell_x c /\ Cell_y c' = Cell_y c /\
                 (forall e, e ∈ D -> e ∈ Cell_entities c' <-> e ∈ Cell_entities c);
  ev_new_cells : forall l c', heap w !! l = None -> heap w' !! l = Some c' ->
      forall e, e ∈ D -> e ∉ Cell_entities c';
}.

(** *** Neighbours and flow *)

(** [l] is a cell of the map within Chebyshev distance [radius] of the cell
    [this], other than the cell at its coordinates. *)
Definition present_neighbor (w : World) (this : Cell) (radius : Z) (l : loc)
  : Prop :=
  exists x y,
    Grid_cells (grid w) !! Grid_getCellKey x y = Some l /\
    (Z.max (Z.abs (x - Cell_x this)) (Z.abs (y - Cell_y this)) <= radius)%Z /\
    (x, y) <> (Cell_x this, Cell_y this).

Definition flow_contribution (rt : Runtime) (this n : Cell) : Victor :=
  Victor_multiplyScalar
    (Victor_normalize rt (Z2Qc (Cell_x n - Cell_x this), Z2Qc (Cell_y n - Cell_y this)))
    (Cell_height this - Cell_height n).

Definition flow_sum (rt : Runtime) (this : Cell) (ns : list Cell) : Victor :=
  foldl (fun acc n => Victor_add acc (flow_contribution rt this n)) (0, 0) ns.

(** The normalised sum, or the zero vector when the sum has no magnitude. *)
Definition flow_of (rt : Runtime) (this : Cell) (ns : list Cell) : Victor :=
  if Victor_magnitude_gt0 (flow_sum rt this ns)
  then Victor_normalize rt (flow_sum rt this ns)
  else (0, 0).

(** The cells named by a list of references. *)
Definition cells_of (w : World) (ls : list loc) : list Cell :=
  omap (fun l => heap w !! l) ls.

(** The cells whose membership set contains [e]. *)
Definition cells_holding (w : World) (e : eid) : list loc :=
  map fst (filter (fun lc => e ∈ Cell_entities lc.2) (map_to_list (heap w))).

(** *** Specifications of the construction

    A step keeps the world well formed, changes what [evolves] allows
    relative to the entities that existed, and leaves the entities it
    created (the trees) indexed. *)
Definition fresh_index (D : gset eid) (w' : World) : Prop :=
  forall e, e ∉ D -> index_inv_at w' e.

Record step_ok (rt : Runtime) (w w' : World) : Prop := {
  step_world : world_ok rt w';
  step_evolves : evolves (dom (ents w)) w w';
  step_fresh : fresh_index (dom (ents w)) w';
}.

Definition getCell_spec (rt : Runtime) (getCell : Z -> Z -> M loc) : Prop :=
  forall x y w l w', world_ok rt w -> getCell x y w = Some (l, w') ->
    step_ok rt w w' /\
    Grid_cells (grid w') !! Grid_getCellKey x y = Some l /\
    exists c, heap w' !! l = Some c /\ Cell_x c = x /\ Cell_y c = y.

Definition createTree_spec (rt : Runtime)
    (createTree : Qc -> Qc -> string -> M unit) : Prop :=
  forall x y type w u w', world_ok rt w -> createTree x y type w = Some (u, w') ->
    step_ok rt w w'.

(** The configuration of the grid is the same in both worlds. *)
Definition same_config (w w' : World) : Prop :=
  Grid_cellSize (grid w') = Grid_cellSize (grid w) /\
  Grid_noiseFrequencies (grid w') = Grid_noiseFrequencies (grid w).

(** *** The shape of the two queries

    Both sweep a rectangle of keys and keep the members of the cells found
    that pass a test on the entity. *)
Definition member_filter (test : Entity -> bool) (entity : eid)
    (entities : gset eid) : M (gset eid) :=
  E <- read_entity entity ;;
  if test E then ret (entities ∪ {[entity]}) else ret entities.

Definition sweep (test : Entity -> bool) (xs ys : list Z) (acc : gset eid)
  : M (gset eid) :=
  foldM (fun cellX entities =>
    foldM (fun cellY entities =>
      let key := Grid_getCellKey cellX cellY in
      g <- gets grid ;;
      match Grid_cells g !! key with
      | Some cell =>
          members <- Cell_getEntities cell ;;
          foldM (member_filter test) (elements members) entities
      | None => ret entities
      end) ys entities) xs acc.

(** [e] is a member, passing the test, of the cell of the map at the key. *)
Definition found (test : Entity -> bool) (w : World) (cellX cellY : Z) (e : eid)
  : Prop :=
  exists l c E, Grid_cells (grid w) !! Grid_getCellKey cellX cellY = Some l /\
                heap w !! l = Some c /\ e ∈ Cell_entities c /\
                ents w !! e = Some E /\ test E = true.

(** The test of [getEntitiesInRadius]. *)
Definition radius_test (centerX centerY radius : Qc) (E : Entity) : bool :=
  sqrt_leb (((Entity_position E).1 - centerX) * ((Entity_position E).1 - centerX)
            + ((Entity_position E).2 - centerY) * ((Entity_position E).2 - centerY))
           radius.

(** The heap once the cells [ls] have been cleared. *)
Definition cleared (ls : list loc) (h : gmap loc Cell) : gmap loc Cell :=
  foldl (fun h l => alter Cell_clear l h) h ls.

(** What the flow reads of a cell. *)
Definition geo (c : Cell) : Z * Z * Qc := (Cell_x c, Cell_y c, Cell_height c).

(** The neighbours [getNeighborsInRadius(radius)] returns for [this]: the
    cached list when there is one, the result of the scan otherwise. *)
Definition neighbors_result (w : World) (this : Cell) (radius : Z) : list loc :=
  default (neighbors_scan (Grid_cells (grid w)) (Cell_x this) (Cell_y this) radius)
          (default ∅ (Cell_neighborsInRadius this) !! radius).

(** The cell [this] once [getNeighborsInRadius(radius)] has run. *)
Definition with_neighbors_result (w : World) (this : Cell) (radius : Z) : Cell :=
  Cell_with_neighborsInRadius
    (Some (<[radius := neighbors_result w this radius]>
             (default ∅ (Cell_neighborsInRadius this)))) this.

(** *** Statements about the index *)

(** Every tracked entity is a member of its current cell, which contains its
    position, and of no other cell. *)
Definition index_claim (w : World) : Prop :=
  forall e E l, ents w !! e = Some E -> Entity_currentCell E = Some l ->
    (exists c, heap w !! l = Some c /\ e ∈ Cell_entities c /\
               in_cell_range c (Entity_position E).1 (Entity_position E).2) /\
    (forall l' c', heap w !! l' = Some c' -> e ∈ Cell_entities c' -> l' = l).

(** A decision procedure for the hypothesis of the radius query. *)
Definition index_consistentb (w : World) : bool :=
  forallb (fun kl : string * loc =>
    match heap w !! kl.2 with
    | Some c =>
        forallb (fun e => bool_decide (is_Some (ents w !! e)))
                (elements (Cell_entities c))
    | None => false
    end) (map_to_list (Grid_cells (grid w)))
  &&
  forallb (fun eE : eid * Entity =>
    match Entity_currentCell eE.2 with
    | None => true
    | Some _ =>
        let xy := Grid_worldToCell (grid w) (Entity_position eE.2).1
                                   (Entity_position eE.2).2 in
        match Grid_cells (grid w) !! Grid_getCellKey xy.1 xy.2 with
        | Some l =>
            match heap w !! l with
            | Some c => bool_decide (eE.1 ∈ Cell_entities c)
            | None => false
            end
        | None => false
        end
    end) (map_to_list (ents w)).

(** The four flags of a cell, as the thresholds on its height and its
    temperature. *)
Definition flags_claim (c : Cell) : Prop :=
  (Cell_water c = true <-> Cell_height c < Q2Qc 0.4) /\
  (Cell_beach c = true <-> Q2Qc 0.4 < Cell_height c /\ Cell_height c < Q2Qc 0.45) /\
  (Cell_frozen c = true <-> Cell_temperature c < Q2Qc 0.3) /\
  (Cell_desert c = true <-> Q2Qc 0.7 < Cell_temperature c) /\
  ~ (Cell_water c = true /\ Cell_beach c = true) /\
  (Cell_height c = Q2Qc 0.4 -> Cell_beach c = false /\ Cell_water c = false).

(** Two runtimes with the same trigonometry; their random streams and their
    vector library may differ. *)
Definition same_trigonometry (rt1 rt2 : Runtime) : Prop :=
  Math_cos rt1 = Math_cos rt2 /\ Math_sin rt1 = Math_sin rt2 /\
  Math_PI rt1 = Math_PI rt2.

(** ** Example configurations

    A runtime for the examples: every gradient is the unit vector [(1, 0)]
    (the cosine is 1 and the sine 0 at every angle), and a vector is
    normalised by the sum of the magnitudes of its coordinates, which is its
    length when it is parallel to an axis. *)

Definition demo_normalize (v : Victor) : Victor :=
  let n := Math_abs v.1 + Math_abs v.2 in
  if Qceqb n 0 then (1, 0) else (v.1 / n, v.2 / n).

Definition demo_runtime (tape : nat -> Qc) : Runtime :=
  {| Math_cos := fun _ => 1;
     Math_sin := fun _ => 0;
     Math_PI := Q2Qc (355 # 113);
     Math_random := tape;
     Victor_normalize := demo_normalize |}.

(** No roll of [spawnTreesHere] succeeds: a chance is at most 0.3. *)
Definition no_tree_tape (n : nat) : Qc := Q2Qc 0.9.

(** The first roll succeeds, the tree is put in the middle of the cell, and
    every later roll fails. *)
Definition one_tree_tape (n : nat) : Qc :=
  match n with
  | O => 0
  | 1%nat | 2%nat => Q2Qc 0.5
  | _ => Q2Qc 0.9
  end.

(** Every roll succeeds. *)
Definition every_tree_tape (n : nat) : Qc := 0.

(** Every cell is sampled at a lattice point of the three fields, where the
    noise is 1/2: flat land. *)
Definition lattice_frequencies : NoiseFrequencies :=
  {| freq_soilFertility := 1; freq_height := 1; freq_temperature := 1 |}.

(** The height field is sampled every quarter of a lattice step. *)
Definition sloped_frequencies : NoiseFrequencies :=
  {| freq_soilFertility := 1; freq_height := Q2Qc 0.25; freq_temperature := 1 |}.

(** The world of a run from a new game, if the run returns. *)
Definition world_after (rt : Runtime) (fuel : nat) (ops : list Op)
    (cellSize : Qc) (f : NoiseFrequencies) : option World :=
  snd <$> run_ops rt fuel ops (Game_new cellSize f).

(** *** The flora table, in the words of the specification *)

(** The fitness of a value for a range, in the words of the specification:
    0 outside [[min, max]], else
    [1 - |value - optimal| / max (optimal - min) (max - optimal)]. *)
Definition fitness_formula (value min max optimal : Qc) : Qc :=
  if Qcltb value min || Qcltb max value then 0
  else 1 - Math_abs (value - optimal) / Math_max (optimal - min) (max - optimal).

(** The chance of a type of the table: the product of the three fitness
    values and the base rate. *)
Definition chance_formula (p : TreePreferences) (height soilFertility temperature : Qc)
  : Qc :=
  fitness_formula height (heightMin p) (heightMax p) (heightOptimal p)
  * fitness_formula soilFertility (soilMin p) (soilMax p) (soilOptimal p)
  * fitness_formula temperature (tempMin p) (tempMax p) (tempOptimal p)
  * Q2Qc 0.3.

(** A range with its optimum inside, and more than one point. *)
Definition proper_range (min max optimal : Qc) : bool :=
  Qcleb min optimal && Qcleb optimal max && Qcltb min max.

Definition proper_ranges (p : TreePreferences) : bool :=
  proper_range (heightMin p) (heightMax p) (heightOptimal p)
  && proper_range (soilMin p) (soilMax p) (soilOptimal p)
  && proper_range (tempMin p) (tempMax p) (tempOptimal p).

(** A candidate of [spawnTreesHere] whose chance is a number at most [bound]. *)
Definition chance_at_most (bound : Qc) (treeData : string * JSNumber) : Prop :=
  exists c, treeData.2 = Fin c /\ c <= bound.

(** No roll of the stream is below the base rate. *)
Definition rolls_fail (rt : Runtime) : Prop :=
  forall n, Q2Qc 0.3 <= Math_random rt n.

(** ** perlinNoise.js: a generator in use

    The generator after the samples [qs] have been asked of it, in order. *)
Fixpoint noise_history (rt : Runtime) (pn : PerlinNoise) (qs : list (Qc * Qc))
  : PerlinNoise :=
  match qs with
  | [] => pn
  | q :: qs => noise_history rt (noise rt pn q.1 q.2).2 qs
  end.

(** ** Grid.js: the other methods of [Entity]

    [entity.getEntitiesInRadius(radius)]; the game and its grid are there. *)
Definition Entity_getEntitiesInRadius (this : eid) (radius : Qc) : M (gset eid) :=
  E <- read_entity this ;;
  entities <- Grid_getEntitiesInRadius (Entity_position E).1 (Entity_position E).2
                radius ;;
  ret (entities ∖ {[this]}).

(** [entity.destroy()], for what it does to the grid and to the reference
    [currentCell]. *)
Definition Entity_destroy (this : eid) : M unit :=
  Grid_removeEntity this ;;
  update_entity this (Entity_with_currentCell None).

(** [game.clearEntities()]; [entities] lists the members of [this.entities]. *)
Definition Game_clearEntities (entities : list eid) : M unit :=
  foldM (fun entity (_ : unit) => Entity_destroy entity) entities tt ;;
  Grid_clear.

(** The test of [getEntitiesInArea]. *)
Definition area_test (x y width height : Qc) (E : Entity) : bool :=
  Qcleb x (Entity_position E).1
  && Qcleb (Entity_position E).1 (x + width)
  && Qcleb y (Entity_position E).2
  && Qcleb (Entity_position E).2 (y + height).

(** ** main.js: the colour of a cell *)

Record Color := {
  Color_r : Z;
  Color_g : Z;
  Color_b : Z;
}.

Definition Cell_getColor (this : Cell) : Color :=
  if Cell_water this then {| Color_r := 0; Color_g := 0; Color_b := 255 |}
  else if Cell_beach this then {| Color_r := 255; Color_g := 255; Color_b := 0 |}
  else if Cell_frozen this then {| Color_r := 240; Color_g := 240; Color_b := 240 |}
  else if Cell_desert this then {| Color_r := 200; Color_g := 200; Color_b := 0 |}
  else {| Color_r := Math_floor (Cell_temperature this * Z2Qc 255);
          Color_g := Math_floor (Cell_soilFertility this * Z2Qc 255);
          Color_b := Math_floor (Cell_height this * Z2Qc 255) |}.

(** [`rgb(${color.r}, ${color.g}, ${color.b})`] *)
Definition Cell_getColorString (this : Cell) : string :=
  let color := Cell_getColor this in
  "rgb(" +:+ pretty (Color_r color) +:+ ", " +:+ pretty (Color_g color)
    +:+ ", " +:+ pretty (Color_b color) +:+ ")".

(** [n.toString(16)] of an integer: lower-case digits, and a minus sign
    before those of a negative number. *)
Definition Number_toString_16 (n : Z) : string :=
  match n with
  | Z0 => "0"
  | Zpos p => HexString.Raw.of_pos p EmptyString
  | Zneg p => "-" +:+ HexString.Raw.of_pos p EmptyString
  end.

Fixpoint String_repeat (s : string) (count : nat) : string :=
  match count with
  | O => EmptyString
  | S count => s +:+ String_repeat s count
  end.

(** [s.padStart(targetLength, padString)]: the filler is [padString],
    repeated and cut to the missing length. *)
Definition String_padStart (s : string) (targetLength : nat) (padString : string)
  : string :=
  let fillLen := (targetLength - String.length s)%nat in
  match padString with
  | EmptyString => s
  | _ => String.substring 0 fillLen (String_repeat padString fillLen) +:+ s
  end.

Definition Cell_getColorHex (this : Cell) : string :=
  let color := Cell_getColor this in
  let toHex n := String_padStart (Number_toString_16 n) 2 "0" in
  "#" +:+ toHex (Color_r color) +:+ toHex (Color_g color)
    +:+ toHex (Color_b color).

(** The value of [parseInt(s, 16)] for a string of hexadecimal digits. *)
Definition parseInt_16 (s : string) : Z := Z.of_N (HexString.Raw.to_N s 0).

(** ** Tree.js: harvesting

    The fields of a [Tree] that [harvest] reads and assigns. *)
Record TreeState := {
  Tree_treeType : string;
  Tree_health : Qc;
  Tree_active : bool;
}.

(** What the constructor leaves: [health = 100], [active = true]. *)
Definition Tree_new (type : string) : TreeState :=
  {| Tree_treeType := type; Tree_health := Z2Qc 100; Tree_active := true |}.

(** The object [harvest] returns; [treeType] is absent from the empty one. *)
Record Harvest := {
  Harvest_wood : Z;
  Harvest_seeds : Z;
  Harvest_treeType : option string;
}.

Definition Tree_canHarvest (this : TreeState) : bool :=
  Qcltb (Z2Qc 50) (Tree_health this).

Definition Tree_harvest (rt : Runtime) (this : TreeState)
  : M (Harvest * TreeState) :=
  if negb (Tree_canHarvest this) then
    ret ({| Harvest_wood := 0; Harvest_seeds := 0; Harvest_treeType := None |},
         this)
  else
    r <- random rt ;;
    let woodYield := (Math_floor (r * Z2Qc 5) + 3)%Z in
    r <- random rt ;;
    let seedYield := if Qcltb r (Q2Qc 0.3) then 1%Z else 0%Z in
    let health := Tree_health this - Z2Qc 50 in
    let active := if Qcleb health 0 then false else Tree_active this in
    ret ({| Harvest_wood := woodYield; Harvest_seeds := seedYield;
            Harvest_treeType := Some (Tree_treeType this) |},
         {| Tree_treeType := Tree_treeType this; Tree_health := health;
            Tree_active := active |}).

(** [harvest] called [n] times in a row; the yields, first call first. *)
Fixpoint Tree_harvests (rt : Runtime) (n : nat) (this : TreeState)
  : M (list Harvest * TreeState) :=
  match n with
  | O => ret ([], this)
  | S n =>
      first <- Tree_harvest rt this ;;
      rest <- Tree_harvests rt n first.2 ;;
      ret (first.1 :: rest.1, rest.2)
  end.

(** ** Grid.js: debug information *)

Definition Cell_getEntityCount (l : loc) : M nat :=
  c <- read_cell l ;; ret (size (Cell_entities c)).

Record GridDebugInfo := {
  debug_totalCells : nat;
  debug_totalEntities : nat;
  debug_cellSize : Qc;
  debug_cells : gmap string loc;
}.

(** [getDebugInfo]: the keys are counted and the member counts of the cells
    of the map are summed. *)
Definition Grid_getDebugInfo : M GridDebugInfo :=
  g <- gets grid ;;
  let cellKeys := map fst (map_to_list (Grid_cells g)) in
  totalEntities <-
    foldM (fun cell sum => n <- Cell_getEntityCount cell ;; ret (sum + n)%nat)
          (map snd (map_to_list (Grid_cells g))) 0%nat ;;
  ret {| debug_totalCells := length cellKeys;
         debug_totalEntities := totalEntities;
         debug_cellSize := Grid_cellSize g;
         debug_cells := Grid_cells g |}.

(** The current cell of the entity is a cell of the map. *)
Definition in_map_cell (w : World) (e : eid) : bool :=
  match ents w !! e with
  | Some E =>
      match Entity_currentCell E with
      | Some l => bool_decide (l ∈ map snd (map_to_list (Grid_cells (grid w))))
      | None => false
      end
  | None => false
  end.

(** The members of the cell at an address. *)
Definition members_at (w : World) (l : loc) : gset eid :=
  default ∅ (Cell_entities <$> heap w !! l).

(** ** Game.js: the camera and the visualisation of the grid

    The fields of a [Game] that the camera reads: the size of the canvas and
    the position of the main container. *)
Record Screen := {
  Game_width : Qc;
  Game_height : Qc;
  mainContainer_x : Qc;
  mainContainer_y : Qc;
}.

Definition Game_getCameraPosition (s : Screen) : Victor :=
  (Game_width s / Z2Qc 2 - mainContainer_x s,
   Game_height s / Z2Qc 2 - mainContainer_y s).

(** [renderCell] reads the colour, the size and the height of the cell and
    draws; the drawing is no part of the state. *)
Definition Game_renderCell (cell : loc) : M unit :=
  c <- read_cell cell ;;
  let color := Cell_getColor c in
  ret tt.

(** [updateGridVisualization]: every cell of the window around the camera is
    asked of the grid and drawn, row by row. *)
Definition Game_updateGridVisualization (rt : Runtime) (fuel : nat) (s : Screen)
  : M unit :=
  let camera := Game_getCameraPosition s in
  g <- gets grid ;;
  let cellSize := Grid_cellSize g in
  let padding := cellSize * Z2Qc 6 in
  let minX := camera.1 - Game_width s / Z2Qc 2 - padding in
  let maxX := camera.1 + Game_width s / Z2Qc 2 + padding in
  let minY := camera.2 - Game_height s / Z2Qc 2 - padding in
  let maxY := camera.2 + Game_height s / Z2Qc 2 + padding in
  let minCellX := Math_floor (minX / cellSize) in
  let maxCellX := Math_floor (maxX / cellSize) in
  let minCellY := Math_floor (minY / cellSize) in
  let maxCellY := Math_floor (maxY / cellSize) in
  foldM (fun cellY (_ : unit) =>
    foldM (fun cellX (_ : unit) =>
      cell <- Grid_getCell rt fuel cellX cellY ;;
      Game_renderCell cell) (range minCellX maxCellX) tt)
    (range minCellY maxCellY) tt.

(** ** What the operations keep

    Two cells that differ by their members at most. *)
Definition same_but_members (c c' : Cell) : Prop :=
  Cell_with_entities ∅ c' = Cell_with_entities ∅ c.

(** What a construction and the calls of the index keep: the console, the
    entries of the grid's map, and all of a cell but its members. *)
Record settled (w w' : World) : Prop := {
  settled_console : console w' = console w;
  settled_map : forall key l, Grid_cells (grid w) !! key = Some l ->
      Grid_cells (grid w') !! key = Some l;
  settled_cells : forall l c, heap w !! l = Some c ->
      exists c', heap w' !! l = Some c' /\ same_but_members c c';
}.

(** What every operation keeps: the console, the cell objects with their
    coordinates and their terrain, and the lists of neighbours cached. *)
Record persists (w w' : World) : Prop := {
  persists_console : console w' = console w;
  persists_cells : forall l c, heap w !! l = Some c ->
      exists c', heap w' !! l = Some c' /\
        Cell_x c' = Cell_x c /\ Cell_y c' = Cell_y c /\
        Cell_terrain c' = Cell_terrain c /\
        forall r ns, default ∅ (Cell_neighborsInRadius c) !! r = Some ns ->
                     default ∅ (Cell_neighborsInRadius c') !! r = Some ns;
}.

(** The entries of the grid's map are kept. *)
Definition map_grows (w w' : World) : Prop :=
  forall key l, Grid_cells (grid w) !! key = Some l ->
                Grid_cells (grid w') !! key = Some l.

Definition settled_spec (getCell : Z -> Z -> M loc) : Prop :=
  forall x y w l w', getCell x y w = Some (l, w') -> settled w w'.

(** ** A further example configuration

    A runtime with a ridge: the gradient of a lattice point is [(1, 0)] or
    [(-1, 0)] with the sign of its angle, so the fields fall to 1/4 between
    two lattice points whose gradients point apart. *)
Definition ridge_runtime (tape : nat -> Qc) : Runtime :=
  {| Math_cos := fun a => if Qcltb a 0 then - (1) else 1;
     Math_sin := fun _ => 0;
     Math_PI := Q2Qc (355 # 113);
     Math_random := tape;
     Victor_normalize := demo_normalize |}.

(** * Properties *)

(** ** Numbers *)

Lemma Qcltb_true a b : Qcltb a b = true <-> a < b.
Proof. unfold Qcltb. apply bool_decide_eq_true. Qed.

Lemma Qcltb_false a b : Qcltb a b = false <-> b <= a.
Proof.
  unfold Qcltb. rewrite bool_decide_eq_false. split.
  - apply Qcnot_lt_le.
  - apply Qcle_not_lt.
Qed.

Lemma Qcleb_true a b : Qcleb a b = true <-> a <= b.
Proof. unfold Qcleb. apply bool_decide_eq_true. Qed.

Lemma Qcleb_false a b : Qcleb a b = false <-> b < a.
Proof.
  unfold Qcleb. rewrite bool_decide_eq_false. split.
  - apply Qcnot_le_lt.
  - apply Qclt_not_le.
Qed.

(** From [Qc] to [Q], where [lra] and [nra] work. *)
Lemma this_plus a b : (this (a + b) == this a + this b)%Q.
Proof. apply Qred_correct. Qed.
Lemma this_mult a b : (this (a * b) == this a * this b)%Q.
Proof. apply Qred_correct. Qed.
Lemma this_opp a : (this (- a) == - this a)%Q.
Proof. apply Qred_correct. Qed.
Lemma this_minus a b : (this (a - b) == this a - this b)%Q.
Proof. unfold Qcminus. rewrite this_plus, this_opp. reflexivity. Qed.
Lemma this_Z2Qc z : (this (Z2Qc z) == inject_Z z)%Q.
Proof. apply Qred_correct. Qed.
Lemma this_Q2Qc q : (this (Q2Qc q) == q)%Q.
Proof. apply Qred_correct. Qed.

Ltac to_Q_rw :=
  repeat (rewrite this_plus || rewrite this_mult || rewrite this_minus
          || rewrite this_opp || rewrite this_Z2Qc || rewrite this_Q2Qc).
Ltac to_Q_rw_in H :=
  repeat (rewrite this_plus in H || rewrite this_mult in H || rewrite this_minus in H
          || rewrite this_opp in H || rewrite this_Z2Qc in H || rewrite this_Q2Qc in H).
Ltac to_Q :=
  unfold Qclt, Qcle in *;
  repeat match goal with
  | H : (this _ < this _)%Q |- _ => progress to_Q_rw_in H
  | H : (this _ <= this _)%Q |- _ => progress to_Q_rw_in H
  end;
  to_Q_rw.

Lemma floor_spec q : Z2Qc (Math_floor q) <= q /\ q < Z2Qc (Math_floor q) + 1.
Proof.
  unfold Math_floor. split; to_Q.
  - apply Qfloor_le.
  - pose proof (Qlt_floor q) as H. rewrite inject_Z_plus in H. exact H.
Qed.

Lemma floor_mono a b : a <= b -> (Math_floor a <= Math_floor b)%Z.
Proof. intros H. apply Qfloor_resp_le. exact H. Qed.

Lemma Qc_pos_neq0 c : 0 < c -> c <> 0.
Proof. intros H ->. by apply Qclt_not_le in H. Qed.

Lemma div_mult_cancel x c : c <> 0 -> x / c * c = x.
Proof. intros Hc. field. exact Hc. Qed.

Lemma div_le_mono a b c : 0 < c -> a <= b -> a / c <= b / c.
Proof.
  intros Hc Hab. apply Qcmult_lt_0_le_reg_r with c; [done|].
  rewrite !div_mult_cancel by by apply Qc_pos_neq0. done.
Qed.

(** The cell of a coordinate: for a positive cell size the coordinate lies
    in the half-open interval of the cell. *)
Lemma floor_div_range x c :
  0 < c ->
  Z2Qc (Math_floor (x / c)) * c <= x /\ x < Z2Qc (Math_floor (x / c)) * c + c.
Proof.
  intros Hc. destruct (floor_spec (x / c)) as [Hlo Hhi].
  assert (Hne : c <> 0) by by apply Qc_pos_neq0.
  split.
  - rewrite <- (div_mult_cancel x c Hne) at 2.
    apply Qcmult_le_compat_r; [done|]. by apply Qclt_le_weak.
  - rewrite <- (div_mult_cancel x c Hne) at 1.
    replace (Z2Qc (Math_floor (x / c)) * c + c)
      with ((Z2Qc (Math_floor (x / c)) + 1) * c) by ring.
    by apply Qcmult_lt_compat_r.
Qed.

(** ** The exact comparison with a square root *)

Lemma Q2R_this_plus a b : Q2R (a + b)%Qc = (Q2R a + Q2R b)%R.
Proof. rewrite <- Q2R_plus. apply Qeq_eqR. apply this_plus. Qed.
Lemma Q2R_this_mult a b : Q2R (a * b)%Qc = (Q2R a * Q2R b)%R.
Proof. rewrite <- Q2R_mult. apply Qeq_eqR. apply this_mult. Qed.
Lemma Q2R_this_minus a b : Q2R (a - b)%Qc = (Q2R a - Q2R b)%R.
Proof. rewrite <- Q2R_minus. apply Qeq_eqR. apply this_minus. Qed.
Lemma Q2R_this_0 : Q2R 0%Qc = 0%R.
Proof. change (Q2R 0%Q = 0%R). unfold Q2R. simpl. lra. Qed.

Lemma Qcle_Rle a b : a <= b <-> (Q2R a <= Q2R b)%R.
Proof. split; [apply Qle_Rle|apply Rle_Qle]. Qed.

Lemma sqrt_leb_spec s r :
  0 <= s -> sqrt_leb s r = true <-> (sqrt (Q2R s) <= Q2R r)%R.
Proof.
  intros Hs. unfold sqrt_leb. rewrite andb_true_iff, !Qcleb_true.
  apply Qcle_Rle in Hs. rewrite Q2R_this_0 in Hs.
  rewrite !Qcle_Rle, Q2R_this_0, Q2R_this_mult. split.
  - intros [Hr Hle]. rewrite <- (sqrt_square (Q2R r) Hr). by apply sqrt_le_1_alt.
  - intros Hle. pose proof (sqrt_pos (Q2R s)) as Hpos.
    assert (Hr : (0 <= Q2R r)%R) by lra. split; [done|].
    rewrite <- (sqrt_sqrt (Q2R s) Hs). nra.
Qed.

(** ** Keys are injective *)

(** Keys *)

Lemma pretty_N_char_not c x :
  c <> "0"%char -> c <> "1"%char -> c <> "2"%char -> c <> "3"%char ->
  c <> "4"%char -> c <> "5"%char -> c <> "6"%char -> c <> "7"%char ->
  c <> "8"%char -> c <> "9"%char -> pretty_N_char x <> c.
Proof.
  intros. unfold pretty_N_char. repeat case_match; congruence.
Qed.

Lemma pretty_N_go_no_char c x s :
  not_digit c -> no_char c s -> no_char c (pretty_N_go x s).
Proof.
  intros Hc. revert s. induction (N.lt_wf_0 x) as [x _ IH]; intros s Hs.
  destruct (decide (x = 0%N)) as [->|Hx].
  - by rewrite pretty_N_go_0.
  - rewrite pretty_N_go_step by lia. apply IH.
    + apply N.div_lt; lia.
    + simpl. split; [apply Hc | done].
Qed.

Lemma pretty_N_no_char c (x : N) : not_digit c -> no_char c (pretty x).
Proof.
  intros Hc. unfold pretty, pretty_N. case_decide.
  - simpl. split; [|done]. apply (Hc 0%N).
  - by apply pretty_N_go_no_char.
Qed.

Lemma pretty_Z_no_char c (z : Z) :
  not_digit c -> c <> "-"%char -> no_char c (pretty z).
Proof.
  intros Hc Hd. destruct z as [|p|p]; unfold pretty, pretty_Z.
  - simpl. split; [|done]. apply (Hc 0%N).
  - apply (pretty_N_no_char c (Npos p) Hc).
  - simpl. split; [congruence|]. apply (pretty_N_no_char c (Npos p) Hc).
Qed.

Lemma append_sep_inj c s1 s2 t1 t2 :
  no_char c s1 -> no_char c s2 ->
  s1 +:+ String c t1 = s2 +:+ String c t2 -> s1 = s2 /\ t1 = t2.
Proof.
  revert s2. induction s1 as [|a s1 IH]; intros [|b s2]; simpl.
  - intros _ _ [= ->]. done.
  - intros _ [Hb _] [= <- _]. done.
  - intros [Ha _] _ [= -> _]. done.
  - intros [_ H1] [_ H2] [= -> Heq]. destruct (IH s2 H1 H2 Heq) as [-> ->]. done.
Qed.

Lemma not_digit_underscore : not_digit "_"%char.
Proof. intros x. apply pretty_N_char_not; discriminate. Qed.
Lemma not_digit_comma : not_digit ","%char.
Proof. intros x. apply pretty_N_char_not; discriminate. Qed.

Lemma Grid_getCellKey_inj x y x' y' :
  Grid_getCellKey x y = Grid_getCellKey x' y' -> x = x' /\ y = y'.
Proof.
  unfold Grid_getCellKey. simpl. intros [= H].
  apply (append_sep_inj "_"%char) in H as [Hx Hy];
    try (apply pretty_Z_no_char; [apply not_digit_underscore | discriminate]).
  injection Hy as Hy.
  split; eapply (inj pretty); eauto.
Qed.

Lemma gradientKey_inj x y x' y' :
  gradientKey x y = gradientKey x' y' -> x = x' /\ y = y'.
Proof.
  unfold gradientKey. intros H.
  apply (append_sep_inj ","%char) in H as [Hx Hy];
    try (apply pretty_Z_no_char; [apply not_digit_comma | discriminate]).
  split; eapply (inj pretty); eauto.
Qed.

(** ** The memoised noise computes the noise function *)

Section NoiseFacts.
Variable rt : Runtime.

Lemma randomGradient_ok pn ix iy :
  memo_ok rt pn ->
  (randomGradient rt pn ix iy).1 = gradient_pure rt (seed pn) ix iy /\
  memo_ok rt (randomGradient rt pn ix iy).2 /\
  seed (randomGradient rt pn ix iy).2 = seed pn.
Proof.
  intros [Hg Hm]. unfold randomGradient.
  destruct (gradients pn !! gradientKey ix iy) as [g|] eqn:E; simpl.
  - split; [by apply Hg | done].
  - split; [done|]. split; [|done]. split; simpl.
    + intros ix' iy' g'. destruct (decide (gradientKey ix iy = gradientKey ix' iy')) as [Heq|Hne].
      * rewrite Heq, lookup_insert_eq. apply gradientKey_inj in Heq as [-> ->].
        by intros [= <-].
      * rewrite lookup_insert_ne by done. apply Hg.
    + apply Hm.
Qed.

Lemma dotGridGradient_ok pn ix iy x y :
  memo_ok rt pn ->
  (dotGridGradient rt pn ix iy x y).1 = dot_pure rt (seed pn) ix iy x y /\
  memo_ok rt (dotGridGradient rt pn ix iy x y).2 /\
  seed (dotGridGradient rt pn ix iy x y).2 = seed pn.
Proof.
  intros H. unfold dotGridGradient, dot_pure.
  destruct (randomGradient_ok pn ix iy H) as (Hv & Hok & Hs).
  destruct (randomGradient rt pn ix iy) as [g pn']; simpl in *.
  by rewrite Hv.
Qed.

Lemma noise_ok pn x y :
  memo_ok rt pn ->
  (noise rt pn x y).1 = noise_pure rt (seed pn) x y /\
  memo_ok rt (noise rt pn x y).2 /\
  seed (noise rt pn x y).2 = seed pn.
Proof.
  intros H. unfold noise.
  destruct (memory pn !! (x, y)) as [v|] eqn:E; simpl.
  - split; [by apply H | done].
  - destruct (dotGridGradient_ok pn (Math_floor x) (Math_floor y) x y H)
      as (V0 & H0 & S0).
    destruct (dotGridGradient rt pn (Math_floor x) (Math_floor y) x y)
      as [n0 pn0]; simpl in *.
    destruct (dotGridGradient_ok pn0 (Math_floor x + 1) (Math_floor y) x y H0)
      as (V1 & H1 & S1).
    destruct (dotGridGradient rt pn0 (Math_floor x + 1) (Math_floor y) x y)
      as [n1 pn1]; simpl in *.
    destruct (dotGridGradient_ok pn1 (Math_floor x) (Math_floor y + 1) x y H1)
      as (V2 & H2 & S2).
    destruct (dotGridGradient rt pn1 (Math_floor x) (Math_floor y + 1) x y)
      as [n2 pn2]; simpl in *.
    destruct (dotGridGradient_ok pn2 (Math_floor x + 1) (Math_floor y + 1) x y H2)
      as (V3 & H3 & S3).
    destruct (dotGridGradient rt pn2 (Math_floor x + 1) (Math_floor y + 1) x y)
      as [n3 pn3]; simpl in *.
    assert (Hs : seed pn3 = seed pn) by congruence.
    assert (Hv : Math_max 0 (Math_min 1
              (((interpolate (interpolate n0 n1 (x - Z2Qc (Math_floor x)))
                  (interpolate n2 n3 (x - Z2Qc (Math_floor x)))
                  (y - Z2Qc (Math_floor y))) + 1) / Q2Qc 2))
            = noise_pure rt (seed pn) x y).
    { unfold noise_pure. subst n0 n1 n2 n3. by rewrite S2, S1, S0. }
    split; [exact Hv|]. split; [|exact Hs].
    destruct H3 as [Hg3 Hm3]. split; cbn [gradients memory seed].
    + exact Hg3.
    + intros x' y' v'. destruct (decide ((x, y) = (x', y'))) as [Heq|Hne].
      * injection Heq as <- <-. rewrite lookup_insert_eq.
        intros Hv'. apply (inj Some) in Hv'. subst v'. rewrite Hs. exact Hv.
      * rewrite lookup_insert_ne by exact Hne. apply Hm3.
Qed.
End NoiseFacts.

(** ** The monad *)

Lemma bind_Some {A B} (c : M A) (k : A -> M B) w r :
  bind c k w = Some r <-> exists a w1, c w = Some (a, w1) /\ k a w1 = Some r.
Proof.
  unfold bind. destruct (c w) as [[a w1]|]; split.
  - intros H. by exists a, w1.
  - intros (a' & w1' & Heq & H). apply (inj Some) in Heq.
    by inversion Heq; subst.
  - discriminate.
  - intros (? & ? & ? & _). discriminate.
Qed.

Lemma ret_Some {A} (a b : A) w w' : ret a w = Some (b, w') <-> a = b /\ w = w'.
Proof.
  unfold ret. split.
  - intros H. apply (inj Some) in H. by inversion H.
  - by intros [-> ->].
Qed.

Lemma gets_Some {A} (f : World -> A) a w w' :
  gets f w = Some (a, w') <-> a = f w /\ w' = w.
Proof.
  unfold gets. split.
  - intros H. apply (inj Some) in H. by inversion H.
  - by intros [-> ->].
Qed.

Lemma modify_Some f u w w' : modify f w = Some (u, w') <-> w' = f w.
Proof.
  unfold modify. destruct u. split.
  - intros H. apply (inj Some) in H. by inversion H.
  - by intros ->.
Qed.

Lemma lift_option_Some {A} (o : option A) a w w' :
  lift_option o w = Some (a, w') <-> o = Some a /\ w' = w.
Proof.
  destruct o as [a'|]; simpl.
  - rewrite ret_Some. split; [intros [-> ->]|intros [Heq ->]]; [done|].
    apply (inj Some) in Heq. by subst.
  - unfold fail. split; [discriminate|]. by intros [? _].
Qed.

Lemma read_cell_Some l c w w' :
  read_cell l w = Some (c, w') <-> heap w !! l = Some c /\ w' = w.
Proof.
  unfold read_cell. rewrite bind_Some. split.
  - intros (h & w1 & Hg & Hl). apply gets_Some in Hg as [-> ->].
    by apply lift_option_Some in Hl.
  - intros [Hl ->]. exists (heap w), w. split; [by apply gets_Some|].
    by apply lift_option_Some.
Qed.

Lemma read_entity_Some e E w w' :
  read_entity e w = Some (E, w') <-> ents w !! e = Some E /\ w' = w.
Proof.
  unfold read_entity. rewrite bind_Some. split.
  - intros (h & w1 & Hg & Hl). apply gets_Some in Hg as [-> ->].
    by apply lift_option_Some in Hl.
  - intros [Hl ->]. exists (ents w), w. split; [by apply gets_Some|].
    by apply lift_option_Some.
Qed.

Lemma update_cell_Some l f u w w' :
  update_cell l f w = Some (u, w') <-> w' = with_heap (alter f l (heap w)) w.
Proof. unfold update_cell. exact (modify_Some _ u w w'). Qed.

Lemma update_entity_Some e f u w w' :
  update_entity e f w = Some (u, w') <-> w' = with_ents (alter f e (ents w)) w.
Proof. unfold update_entity. exact (modify_Some _ u w w'). Qed.

Lemma alloc_cell_Some c l w w' :
  alloc_cell c w = Some (l, w') <->
  l = fresh (dom (heap w)) /\ w' = with_heap (<[l := c]> (heap w)) w.
Proof.
  unfold alloc_cell. split.
  - intros H. apply (inj Some) in H. by inversion H.
  - by intros [-> ->].
Qed.

Lemma alloc_entity_Some E e w w' :
  alloc_entity E w = Some (e, w') <->
  e = fresh (dom (ents w)) /\ w' = with_ents (<[e := E]> (ents w)) w.
Proof.
  unfold alloc_entity. split.
  - intros H. apply (inj Some) in H. by inversion H.
  - by intros [-> ->].
Qed.

Lemma random_Some rt r w w' :
  random rt w = Some (r, w') <->
  r = Math_random rt (random_calls w) /\ w' = with_random_calls (S (random_calls w)) w.
Proof.
  unfold random. split.
  - intros H. apply (inj Some) in H. by inversion H.
  - by intros [-> ->].
Qed.

Lemma fail_Some {A} (r : A * World) w : @fail A w = Some r -> False.
Proof. discriminate. Qed.

(** Inversion of a run, one statement at a time. *)
Ltac minv1 :=
  match goal with
  | H : bind _ _ _ = Some _ |- _ =>
      let a := fresh "a" in let w := fresh "w" in let H1 := fresh "Hrun" in
      apply bind_Some in H as (a & w & H1 & H)
  | H : ret _ _ = Some (_, _) |- _ => apply ret_Some in H as [? ?]
  | H : gets _ _ = Some (_, _) |- _ => apply gets_Some in H as [? ?]
  | H : modify _ _ = Some (_, _) |- _ => apply modify_Some in H
  | H : read_cell _ _ = Some (_, _) |- _ => apply read_cell_Some in H as [H ?]
  | H : read_entity _ _ = Some (_, _) |- _ => apply read_entity_Some in H as [H ?]
  | H : update_cell _ _ _ = Some (_, _) |- _ => apply update_cell_Some in H
  | H : update_entity _ _ _ = Some (_, _) |- _ => apply update_entity_Some in H
  | H : alloc_cell _ _ = Some (_, _) |- _ => apply alloc_cell_Some in H as [? ?]
  | H : alloc_entity _ _ = Some (_, _) |- _ => apply alloc_entity_Some in H as [? ?]
  | H : random _ _ = Some (_, _) |- _ => apply random_Some in H as [? ?]
  | H : fail _ = Some _ |- _ => destruct (fail_Some _ _ H)
  | H : Some _ = Some _ |- _ => apply (inj Some) in H
  end.
Ltac minv := repeat minv1.

(** ** What the setters keep *)

Lemma Cell_terrain_with_entities s c :
  Cell_terrain (Cell_with_entities s c) = Cell_terrain c.
Proof. reflexivity. Qed.
Lemma Cell_terrain_with_flow v b c :
  Cell_terrain (Cell_with_flow v b c) = Cell_terrain c.
Proof. reflexivity. Qed.
Lemma Cell_terrain_with_neighborsInRadius t c :
  Cell_terrain (Cell_with_neighborsInRadius t c) = Cell_terrain c.
Proof. reflexivity. Qed.

(** ** The relation [evolves] *)

Lemma evolves_refl D w : evolves D w w.
Proof.
  split; try done.
  - intros l c Hl. exists c. done.
  - intros l c' Hn Hs. congruence.
Qed.

Lemma evolves_trans D w1 w2 w3 :
  evolves D w1 w2 -> evolves D w2 w3 -> evolves D w1 w3.
Proof.
  intros H12 H23. split.
  - rewrite (ev_cellSize _ _ _ H23). apply (ev_cellSize _ _ _ H12).
  - rewrite (ev_frequencies _ _ _ H23). apply (ev_frequencies _ _ _ H12).
  - intros e E He Hl. eapply (ev_entities _ _ _ H23); [done|].
    by eapply (ev_entities _ _ _ H12).
  - intros e He. eapply (ev_entities_dom _ _ _ H23).
    by eapply (ev_entities_dom _ _ _ H12).
  - intros l c Hl.
    destruct (ev_cells _ _ _ H12 l c Hl) as (c2 & Hl2 & Hx2 & Hy2 & Hm2).
    destruct (ev_cells _ _ _ H23 l c2 Hl2) as (c3 & Hl3 & Hx3 & Hy3 & Hm3).
    exists c3. split; [done|]. split; [congruence|]. split; [congruence|].
    intros e He. rewrite (Hm3 e He). apply (Hm2 e He).
  - intros l c3 Hn Hl3 e He.
    destruct (heap w2 !! l) as [c2|] eqn:Hl2.
    + destruct (ev_cells _ _ _ H23 l c2 Hl2) as (c3' & Hl3' & _ & _ & Hm3).
      assert (c3' = c3) as -> by congruence.
      rewrite (Hm3 e He). by eapply (ev_new_cells _ _ _ H12).
    + by eapply (ev_new_cells _ _ _ H23).
Qed.

Lemma evolves_mono D D' w w' : D' ⊆ D -> evolves D w w' -> evolves D' w w'.
Proof.
  intros Hsub H. split.
  - apply (ev_cellSize _ _ _ H).
  - apply (ev_frequencies _ _ _ H).
  - intros e E He. apply (ev_entities _ _ _ H). by apply Hsub.
  - apply (ev_entities_dom _ _ _ H).
  - intros l c Hl. destruct (ev_cells _ _ _ H l c Hl) as (c' & ? & ? & ? & Hm).
    exists c'. repeat (split; [done|]). intros e He. apply Hm. by apply Hsub.
  - intros l c' Hn Hl e He. eapply (ev_new_cells _ _ _ H); eauto.
Qed.

Lemma evolves_heap_alter D w l f :
  (forall c, Cell_x (f c) = Cell_x c /\ Cell_y (f c) = Cell_y c /\
             forall e, e ∈ D -> e ∈ Cell_entities (f c) <-> e ∈ Cell_entities c) ->
  evolves D w (with_heap (alter f l (heap w)) w).
Proof.
  intros Hf. split; try done; simpl.
  - intros l' c Hl. destruct (decide (l = l')) as [<-|Hne].
    + exists (f c). rewrite lookup_alter_eq, Hl. split; [done|]. apply Hf.
    + exists c. rewrite lookup_alter_ne by done. done.
  - intros l' c' Hn. destruct (decide (l = l')) as [<-|Hne].
    + by rewrite lookup_alter_eq, Hn.
    + rewrite lookup_alter_ne by done. congruence.
Qed.

Lemma evolves_heap_insert D w l c :
  heap w !! l = None -> (forall e, e ∈ D -> e ∉ Cell_entities c) ->
  evolves D w (with_heap (<[l := c]> (heap w)) w).
Proof.
  intros Hn Hc. split; try done; simpl.
  - intros l' c' Hl. exists c'. rewrite lookup_insert_ne by congruence. done.
  - intros l' c' Hn'. destruct (decide (l = l')) as [<-|Hne].
    + rewrite lookup_insert_eq. intros Heq. apply (inj Some) in Heq. by subst.
    + rewrite lookup_insert_ne by done. congruence.
Qed.

Lemma evolves_ents_insert D w e E :
  e ∉ D -> evolves D w (with_ents (<[e := E]> (ents w)) w).
Proof.
  intros He. split; try done; simpl.
  - intros e' E' He' Hl. rewrite lookup_insert_ne; [done|]. by intros ->.
  - intros e' [E' Hl]. destruct (decide (e = e')) as [<-|Hne].
    + rewrite lookup_insert_eq. by eexists.
    + rewrite lookup_insert_ne by done. by eexists.
  - intros l c Hl. exists c. done.
  - intros l c' Hn Hl. congruence.
Qed.

Lemma evolves_ents_alter D w e f :
  e ∉ D -> evolves D w (with_ents (alter f e (ents w)) w).
Proof.
  intros He. split; try done; simpl.
  - intros e' E' He' Hl. rewrite lookup_alter_ne; [done|]. by intros ->.
  - intros e' [E' Hl]. destruct (decide (e = e')) as [<-|Hne].
    + rewrite lookup_alter_eq, Hl. by eexists.
    + rewrite lookup_alter_ne by done. by eexists.
  - intros l c Hl. exists c. done.
  - intros l c' Hn Hl. congruence.
Qed.

Lemma evolves_grid D w g :
  Grid_cellSize g = Grid_cellSize (grid w) ->
  Grid_noiseFrequencies g = Grid_noiseFrequencies (grid w) ->
  evolves D w (with_grid g w).
Proof.
  intros H1 H2. split; try done; simpl.
  - intros l c Hl. exists c. done.
  - intros l c' Hn Hl. congruence.
Qed.

Lemma evolves_random_calls D w n : evolves D w (with_random_calls n w).
Proof.
  split; try done; simpl.
  - intros l c Hl. exists c. done.
  - intros l c' Hn Hl. congruence.
Qed.

Lemma evolves_console D w out : evolves D w (with_console out w).
Proof.
  split; try done; simpl.
  - intros l c Hl. exists c. done.
  - intros l c' Hn Hl. congruence.
Qed.

(** The index at an entity that exists is kept by what [evolves] allows. *)
Lemma membership_ok_evolves D w w' e :
  evolves D w w' -> e ∈ D -> is_Some (ents w !! e) ->
  membership_ok w e -> membership_ok w' e.
Proof.
  intros Hev He [E HE] Hm E' HE'.
  pose proof (ev_entities _ _ _ Hev e E He HE) as HE2.
  assert (E' = E) as -> by congruence.
  specialize (Hm E HE). destruct (Entity_currentCell E) as [l|].
  - destruct Hm as [(c & Hl & Hin) Huniq]. split.
    + destruct (ev_cells _ _ _ Hev l c Hl) as (c' & Hl' & _ & _ & Hmem).
      exists c'. split; [done|]. by apply Hmem.
    + intros l' c' Hl' Hin'.
      destruct (heap w !! l') as [c0|] eqn:Hl0.
      * destruct (ev_cells _ _ _ Hev l' c0 Hl0) as (c1 & Hl1 & _ & _ & Hmem).
        assert (c1 = c') as -> by congruence.
        apply (Huniq l' c0 Hl0). by apply Hmem.
      * by destruct (ev_new_cells _ _ _ Hev l' c' Hl0 Hl' e He).
  - intros l' c' Hl' Hin'.
    destruct (heap w !! l') as [c0|] eqn:Hl0.
    + destruct (ev_cells _ _ _ Hev l' c0 Hl0) as (c1 & Hl1 & _ & _ & Hmem).
      assert (c1 = c') as -> by congruence.
      apply (Hm l' c0 Hl0). by apply Hmem.
    + by destruct (ev_new_cells _ _ _ Hev l' c' Hl0 Hl' e He).
Qed.

Lemma position_ok_evolves D w w' e :
  evolves D w w' -> e ∈ D -> is_Some (ents w !! e) ->
  membership_ok w e -> position_ok w e -> position_ok w' e.
Proof.
  intros Hev He [E HE] Hm Hp E' l c' HE' Hcur Hl'.
  pose proof (ev_entities _ _ _ Hev e E He HE) as HE2.
  assert (E' = E) as -> by congruence.
  specialize (Hm E HE). rewrite Hcur in Hm. destruct Hm as [(c & Hl & Hin) _].
  destruct (ev_cells _ _ _ Hev l c Hl) as (c1 & Hl1 & Hx & Hy & _).
  assert (c1 = c') as -> by congruence.
  rewrite Hx, Hy. unfold Grid_worldToCell. rewrite (ev_cellSize _ _ _ Hev).
  apply (Hp E l c HE Hcur Hl).
Qed.

Lemma index_inv_at_evolves D w w' e :
  evolves D w w' -> e ∈ D -> is_Some (ents w !! e) ->
  index_inv_at w e -> index_inv_at w' e.
Proof.
  intros Hev He HE [Hm Hp]. split.
  - by eapply membership_ok_evolves.
  - by eapply position_ok_evolves.
Qed.

(** ** Well-formed worlds are preserved *)

Section WorldOk.
Variable rt : Runtime.

Lemma world_ok_new cellSize f : world_ok rt (Game_new cellSize f).
Proof.
  split; simpl; try done.
  all: split; [|done]; split; simpl; intros; by rewrite lookup_empty in *.
Qed.

Lemma world_ok_random_calls w n :
  world_ok rt w -> world_ok rt (with_random_calls n w).
Proof. intros [Hcells Hmembers Hneighbors Hterrain Hsoil Hheight Htemperature]. by split. Qed.

Lemma world_ok_console w out :
  world_ok rt w -> world_ok rt (with_console out w).
Proof. intros [Hcells Hmembers Hneighbors Hterrain Hsoil Hheight Htemperature]. by split. Qed.

Lemma world_ok_generators w s h t :
  world_ok rt w ->
  memo_ok rt s -> seed s = 123%Z ->
  memo_ok rt h -> seed h = 456%Z ->
  memo_ok rt t -> seed t = 789%Z ->
  world_ok rt (with_grid (Grid_with_generators s h t (grid w)) w).
Proof. intros [Hcells Hmembers Hneighbors Hterrain Hsoil Hheight Htemperature]. by split. Qed.

Lemma world_ok_cells w m :
  world_ok rt w ->
  (forall key l, m !! key = Some l ->
     exists c, heap w !! l = Some c /\ key = Grid_getCellKey (Cell_x c) (Cell_y c)) ->
  world_ok rt (with_grid (Grid_with_cells m (grid w)) w).
Proof. intros [Hcells Hmembers Hneighbors Hterrain Hsoil Hheight Htemperature] Hm. by split. Qed.

Lemma world_ok_ents_insert w e E :
  world_ok rt w -> world_ok rt (with_ents (<[e := E]> (ents w)) w).
Proof.
  intros [Hcells Hmembers Hneighbors Hterrain Hsoil Hheight Htemperature]. split; try done; simpl.
  intros l c e' Hl Hin. destruct (decide (e = e')) as [<-|Hne].
  - rewrite lookup_insert_eq. by eexists.
  - rewrite lookup_insert_ne by done. eauto.
Qed.

Lemma world_ok_ents_alter w e f :
  world_ok rt w -> world_ok rt (with_ents (alter f e (ents w)) w).
Proof.
  intros [Hcells Hmembers Hneighbors Hterrain Hsoil Hheight Htemperature]. split; try done; simpl.
  intros l c e' Hl Hin. destruct (Hmembers l c e' Hl Hin) as [E HE].
  destruct (decide (e = e')) as [<-|Hne].
  - rewrite lookup_alter_eq, HE. by eexists.
  - rewrite lookup_alter_ne by done. by eexists.
Qed.

Lemma world_ok_heap_insert w l c :
  world_ok rt w -> heap w !! l = None ->
  Cell_entities c = ∅ -> Cell_neighborsInRadius c = None ->
  Cell_terrain c =
    Cell_terrain (Cell_at rt (Grid_cellSize (grid w))
                    (Grid_noiseFrequencies (grid w)) (Cell_x c) (Cell_y c)) ->
  world_ok rt (with_heap (<[l := c]> (heap w)) w).
Proof.
  intros [Hcells Hmembers Hneighbors Hterrain Hsoil Hheight Htemperature] Hn He Hc Ht. split; try done; simpl.
  - intros key l' Hk. destruct (Hcells key l' Hk) as (c' & Hl' & Hkey).
    exists c'. rewrite lookup_insert_ne by congruence. done.
  - intros l' c' e. destruct (decide (l = l')) as [<-|Hne].
    + rewrite lookup_insert_eq. intros Heq. apply (inj Some) in Heq. subst c'.
      rewrite He. intros Hin. by apply not_elem_of_empty in Hin.
    + rewrite lookup_insert_ne by done. apply Hmembers.
  - intros l' c' t r ns l''. destruct (decide (l = l')) as [<-|Hne].
    + rewrite lookup_insert_eq. intros Heq. apply (inj Some) in Heq. subst c'.
      congruence.
    + rewrite lookup_insert_ne by done. intros Hl' Ht' Hr Hin.
      destruct (Hneighbors l' c' t r ns l'' Hl' Ht' Hr Hin) as [c'' Hc''].
      exists c''. rewrite lookup_insert_ne by congruence. done.
  - intros l' c'. destruct (decide (l = l')) as [<-|Hne].
    + rewrite lookup_insert_eq. intros Heq. apply (inj Some) in Heq. by subst c'.
    + rewrite lookup_insert_ne by done. apply Hterrain.
Qed.

Lemma world_ok_heap_alter w l f :
  world_ok rt w ->
  (forall c, heap w !! l = Some c ->
     Cell_x (f c) = Cell_x c /\ Cell_y (f c) = Cell_y c /\
     Cell_terrain (f c) = Cell_terrain c /\
     (forall e, e ∈ Cell_entities (f c) ->
                e ∈ Cell_entities c \/ is_Some (ents w !! e)) /\
     (forall t r ns l', Cell_neighborsInRadius (f c) = Some t ->
        t !! r = Some ns -> l' ∈ ns -> is_Some (heap w !! l'))) ->
  world_ok rt (with_heap (alter f l (heap w)) w).
Proof.
  intros [Hcells Hmembers Hneighbors Hterrain Hsoil Hheight Htemperature] Hf.
  assert (Hdom : forall l', is_Some (heap w !! l') ->
                            is_Some (alter f l (heap w) !! l')).
  { intros l' [c Hc]. destruct (decide (l = l')) as [<-|Hne].
    - rewrite lookup_alter_eq, Hc. by eexists.
    - rewrite lookup_alter_ne by done. by eexists. }
  split; try done; simpl.
  - intros key l' Hk. destruct (Hcells key l' Hk) as (c' & Hl' & Hkey).
    destruct (decide (l = l')) as [<-|Hne].
    + exists (f c'). rewrite lookup_alter_eq, Hl'. split; [done|].
      destruct (Hf c' Hl') as (-> & -> & _). done.
    + exists c'. rewrite lookup_alter_ne by done. done.
  - intros l' c' e. destruct (decide (l = l')) as [<-|Hne].
    + rewrite lookup_alter_eq. destruct (heap w !! l) as [c|] eqn:Hl; [|done].
      simpl. intros Heq. apply (inj Some) in Heq. subst c'. intros Hin.
      destruct (Hf c eq_refl) as (_ & _ & _ & Hm & _).
      destruct (Hm e Hin) as [Hin'|Hs]; [|done]. exact (Hmembers l c e Hl Hin').
    + rewrite lookup_alter_ne by done. apply Hmembers.
  - intros l' c' t r ns l''. destruct (decide (l = l')) as [<-|Hne].
    + rewrite lookup_alter_eq. destruct (heap w !! l) as [c|] eqn:Hl; [|done].
      simpl. intros Heq. apply (inj Some) in Heq. subst c'. intros Ht Hr Hin.
      destruct (Hf c eq_refl) as (_ & _ & _ & _ & Hn).
      apply Hdom. by eapply Hn.
    + rewrite lookup_alter_ne by done. intros Hl' Ht Hr Hin.
      apply Hdom. exact (Hneighbors l' c' t r ns l'' Hl' Ht Hr Hin).
  - intros l' c'. destruct (decide (l = l')) as [<-|Hne].
    + rewrite lookup_alter_eq. destruct (heap w !! l) as [c|] eqn:Hl; [|done].
      simpl. intros Heq. apply (inj Some) in Heq. subst c'.
      destruct (Hf c eq_refl) as (-> & -> & -> & _). exact (Hterrain l c Hl).
    + rewrite lookup_alter_ne by done. apply Hterrain.
Qed.

(** Adding or removing a member, for an entity that is an object. *)
Lemma world_ok_addEntity w l e :
  world_ok rt w -> is_Some (ents w !! e) ->
  world_ok rt
    (with_heap (alter (fun c => Cell_with_entities (Cell_entities c ∪ {[e]}) c)
                  l (heap w)) w).
Proof.
  intros Hok He. apply world_ok_heap_alter; [done|].
  intros c Hc. repeat (split; [done|]). split.
  - simpl. intros e' [Hin| ->%elem_of_singleton]%elem_of_union; auto.
  - simpl. intros t r ns l'. by eapply (ok_neighbors _ _ Hok).
Qed.

Lemma world_ok_removeEntity w l e :
  world_ok rt w ->
  world_ok rt
    (with_heap (alter (fun c => Cell_with_entities (Cell_entities c ∖ {[e]}) c)
                  l (heap w)) w).
Proof.
  intros Hok. apply world_ok_heap_alter; [done|].
  intros c Hc. repeat (split; [done|]). split.
  - simpl. intros e' [Hin _]%elem_of_difference; auto.
  - simpl. intros t r ns l'. by eapply (ok_neighbors _ _ Hok).
Qed.

End WorldOk.

(** ** The construction of cells and entities *)

Lemma index_inv_at_absent w e : ents w !! e = None -> index_inv_at w e.
Proof.
  intros Hn. split.
  - intros E HE. congruence.
  - intros E l c HE. congruence.
Qed.

(** An update of the record of [e] that keeps its position and its current
    cell keeps the index at every entity. *)
Lemma index_inv_at_ents_alter w e f e' :
  (forall E, Entity_position (f E) = Entity_position E /\
             Entity_currentCell (f E) = Entity_currentCell E) ->
  index_inv_at w e' -> index_inv_at (with_ents (alter f e (ents w)) w) e'.
Proof.
  intros Hf [Hm Hp]. split.
  - intros E'. simpl. destruct (decide (e = e')) as [<-|Hne].
    + rewrite lookup_alter_eq. destruct (ents w !! e) as [E|] eqn:HE; [|done].
      simpl. intros Heq. apply (inj Some) in Heq. subst E'.
      destruct (Hf E) as [_ ->]. apply (Hm E HE).
    + rewrite lookup_alter_ne by done. apply Hm.
  - intros E' l c. simpl. destruct (decide (e = e')) as [<-|Hne].
    + rewrite lookup_alter_eq. destruct (ents w !! e) as [E|] eqn:HE; [|done].
      simpl. intros Heq. apply (inj Some) in Heq. subst E'.
      destruct (Hf E) as [-> ->]. apply (Hp E l c HE).
    + rewrite lookup_alter_ne by done. apply Hp.
Qed.

Section Construction.
Variable rt : Runtime.

Lemma step_ok_refl w : world_ok rt w -> step_ok rt w w.
Proof.
  intros Hok. split; [done|apply evolves_refl|].
  intros e He. apply index_inv_at_absent. by apply not_elem_of_dom.
Qed.

Lemma evolves_dom D w w' : evolves D w w' -> dom (ents w) ⊆ dom (ents w').
Proof.
  intros Hev e He. apply elem_of_dom. apply (ev_entities_dom _ _ _ Hev).
  by apply elem_of_dom.
Qed.

Lemma step_ok_trans w1 w2 w3 :
  step_ok rt w1 w2 -> step_ok rt w2 w3 -> step_ok rt w1 w3.
Proof.
  intros [Hok2 Hev2 Hf2] [Hok3 Hev3 Hf3]. split; [done| |].
  - eapply evolves_trans; [done|].
    eapply evolves_mono; [|done]. by eapply evolves_dom.
  - intros e He. destruct (decide (e ∈ dom (ents w2))) as [Hin|Hnin].
    + eapply index_inv_at_evolves; [done|done| |by apply Hf2].
      by apply elem_of_dom.
    + by apply Hf3.
Qed.

(** A step that creates no entity. *)
Lemma step_ok_same_entities w w' :
  world_ok rt w' -> evolves (dom (ents w)) w w' ->
  dom (ents w') ⊆ dom (ents w) -> step_ok rt w w'.
Proof.
  intros Hok Hev Hdom. split; [done|done|].
  intros e He. apply index_inv_at_absent. apply not_elem_of_dom.
  intros Hin. apply He. by apply Hdom.
Qed.

Lemma step_ok_random w r w' :
  world_ok rt w -> random rt w = Some (r, w') -> step_ok rt w w'.
Proof.
  intros Hok Hr. minv. subst. apply step_ok_same_entities.
  - by apply world_ok_random_calls.
  - apply evolves_random_calls.
  - done.
Qed.

Section WithGetCell.
Variable getCell : Z -> Z -> M loc.
Hypothesis getCell_ok : getCell_spec rt getCell.

Lemma Grid_getCellAtWorldPos_with_spec x y w l w' :
  world_ok rt w ->
  Grid_getCellAtWorldPos_with getCell x y w = Some (l, w') ->
  step_ok rt w w' /\
  exists c, heap w' !! l = Some c /\
            (Cell_x c, Cell_y c) = Grid_worldToCell (grid w) x y /\
            Grid_cells (grid w') !!
              Grid_getCellKey (Grid_worldToCell (grid w) x y).1
                              (Grid_worldToCell (grid w) x y).2 = Some l.
Proof.
  intros Hok Hrun. unfold Grid_getCellAtWorldPos_with in Hrun. minv. subst.
  destruct (Grid_worldToCell (grid w) x y) as [cx cy] eqn:Hwc.
  destruct (getCell_ok cx cy w l w' Hok Hrun) as (Hstep & Hkey & c & Hc & Hx & Hy).
  split; [done|]. exists c. split; [done|]. split; [|done]. by rewrite Hx, Hy.
Qed.

Lemma Grid_addEntity_with_spec e E w u w' :
  world_ok rt w -> ents w !! e = Some E -> Entity_currentCell E = None ->
  (forall l c, heap w !! l = Some c -> e ∉ Cell_entities c) ->
  Grid_addEntity_with getCell e w = Some (u, w') ->
  world_ok rt w' /\ evolves (dom (ents w) ∖ {[e]}) w w' /\
  fresh_index (dom (ents w)) w' /\ index_inv_at w' e.
Proof.
  intros Hok HE Hcur Hnone Hrun. unfold Grid_addEntity_with in Hrun.
  minv. subst.
  assert (a = E) as -> by congruence.
  destruct (Grid_getCellAtWorldPos_with_spec _ _ _ _ _ Hok Hrun1)
    as ([Hok2 Hev2 Hf2] & c & Hc & Hxy & Hkey).
  unfold Cell_addEntity in Hrun2. minv. subst.
  assert (HeD : e ∈ dom (ents w)) by (apply elem_of_dom; by eexists).
  pose proof (ev_entities _ _ _ Hev2 e E HeD HE) as HE2.
  assert (Hm2 : membership_ok w1 e).
  { eapply membership_ok_evolves; [done|done|by eexists|].
    intros E' HE'. assert (E' = E) as -> by congruence. rewrite Hcur.
    intros l' c' Hl'. by apply (Hnone l' c'). }
  set (w3 := with_heap _ w1).
  assert (Hok3 : world_ok rt w3) by (apply world_ok_addEntity; [done|by eexists]).
  split; [by apply world_ok_ents_alter|].
  assert (Hev3 : forall D, e ∉ D -> evolves D w1
            (with_ents (alter (Entity_with_currentCell (Some a0)) e (ents w3)) w3)).
  { intros D HD. apply (evolves_trans D w1 w3).
    - subst w3. apply evolves_heap_alter. intros c0. split; [done|]. split; [done|].
      intros e' He'. simpl. rewrite elem_of_union, elem_of_singleton.
      split; [|by left]. intros [Hin|Heq]; [done|]. subst e'. by destruct HD.
    - by apply (evolves_ents_alter D w3 e). }
  split; [|split].
  - eapply evolves_trans.
    + eapply evolves_mono; [|exact Hev2]. set_solver.
    + apply Hev3. set_solver.
  - intros e' He'. destruct (ents w1 !! e') as [E'|] eqn:HE'.
    + eapply (index_inv_at_evolves {[e']}); [apply Hev3| |by eexists|by apply Hf2].
      * intros ->%elem_of_singleton. by destruct He'.
      * by apply elem_of_singleton.
    + apply index_inv_at_absent. simpl. rewrite lookup_alter_ne; [done|].
      intros <-. congruence.
  - specialize (Hm2 E HE2). rewrite Hcur in Hm2. split.
    + intros E'. simpl. rewrite lookup_alter_eq, HE2. simpl.
      intros Heq. apply (inj Some) in Heq. subst E'. simpl. split.
      * exists (Cell_with_entities (Cell_entities c ∪ {[e]}) c).
        rewrite lookup_alter_eq, Hc. split; [done|]. simpl.
        apply elem_of_union_r. by apply elem_of_singleton.
      * intros l' c'. destruct (decide (a0 = l')) as [<-|Hne]; [done|].
        rewrite lookup_alter_ne by done. intros Hl' Hin.
        by destruct (Hm2 l' c' Hl').
    + intros E' l' c'. simpl. rewrite lookup_alter_eq, HE2. simpl.
      intros Heq. apply (inj Some) in Heq. subst E'. simpl.
      intros Heq. apply (inj Some) in Heq. subst l'.
      rewrite lookup_alter_eq, Hc. simpl.
      intros Heq. apply (inj Some) in Heq. subst c'. simpl.
      unfold Grid_worldToCell in *. rewrite (ev_cellSize _ _ _ Hev2). exact Hxy.
Qed.

Lemma Entity_constructor_spec x y w e w' :
  world_ok rt w ->
  Entity_constructor (Grid_addEntity_with getCell) x y w = Some (e, w') ->
  step_ok rt w w' /\ e = fresh (dom (ents w)) /\ index_inv_at w' e.
Proof.
  intros Hok Hrun. unfold Entity_constructor in Hrun. minv. subst.
  set (e := fresh (dom (ents w))) in *.
  set (E0 := {| Entity_position := (x, y); Entity_currentCell := None;
                Entity_treeType := None |}) in *.
  set (w1 := with_ents (<[e := E0]> (ents w)) w) in *.
  assert (Hfresh : e ∉ dom (ents w)) by apply is_fresh.
  assert (Hok1 : world_ok rt w1) by by apply world_ok_ents_insert.
  assert (HE1 : ents w1 !! e = Some E0) by apply lookup_insert_eq.
  assert (Hnone : forall l c, heap w1 !! l = Some c -> e ∉ Cell_entities c).
  { intros l c Hl Hin. apply Hfresh. apply elem_of_dom.
    exact (ok_members _ _ Hok l c e Hl Hin). }
  destruct (Grid_addEntity_with_spec e E0 w1 a0 w' Hok1 HE1 eq_refl Hnone Hrun1)
    as (Hok' & Hev & Hf & He).
  assert (Hdom1 : dom (ents w1) = {[e]} ∪ dom (ents w))
    by apply dom_insert_L.
  split; [|done]. split; [done| |].
  - apply (evolves_trans _ w w1).
    + by apply evolves_ents_insert.
    + eapply evolves_mono; [|exact Hev]. rewrite Hdom1. set_solver.
  - intros e' He'. destruct (decide (e' = e)) as [->|Hne]; [done|].
    apply Hf. rewrite Hdom1. set_solver.
Qed.

Lemma Game_createTree_with_spec : createTree_spec rt (Game_createTree_with getCell).
Proof.
  intros x y type w u w' Hok Hrun.
  unfold Game_createTree_with, Tree_constructor in Hrun. minv.
  match goal with H : Entity_constructor _ _ _ _ = Some (?e, ?w1) |- _ =>
    destruct (Entity_constructor_spec _ _ _ _ _ Hok H) as ([Hok1 Hev1 Hf1] & ? & He);
    rename w1 into wa
  end.
  subst. split.
  - by apply world_ok_ents_alter.
  - apply (evolves_trans _ w wa); [done|].
    apply evolves_ents_alter. apply is_fresh.
  - intros e' He'. apply index_inv_at_ents_alter; [done|]. by apply Hf1.
Qed.

End WithGetCell.

Section WithCreateTree.
Variable createTree : Qc -> Qc -> string -> M unit.
Hypothesis createTree_ok : createTree_spec rt createTree.

Lemma spawn_loop_spec this treeChances treesSpawned w u w' :
  world_ok rt w ->
  spawn_loop rt createTree this treeChances treesSpawned w = Some (u, w') ->
  step_ok rt w w'.
Proof.
  revert treesSpawned w.
  induction treeChances as [|treeData rest IH]; intros n w Hok Hrun.
  - cbn [spawn_loop] in Hrun. minv. subst. by apply step_ok_refl.
  - cbn [spawn_loop] in Hrun. destruct (2 <=? n)%nat.
    { minv. subst. by apply step_ok_refl. }
    apply bind_Some in Hrun as (r & w1 & Hr & Hrun).
    pose proof (step_ok_random _ _ _ Hok Hr) as Hs1.
    destruct (JS.lt (Fin r) (JS.mul treeData.2 (Fin 1))).
    + apply bind_Some in Hrun as (rx & w2 & Hrx & Hrun).
      apply bind_Some in Hrun as (ry & w3 & Hry & Hrun).
      apply bind_Some in Hrun as (u4 & w4 & Hct & Hrun).
      pose proof (step_ok_random _ _ _ (step_world _ _ _ Hs1) Hrx) as Hs2.
      pose proof (step_ok_random _ _ _ (step_world _ _ _ Hs2) Hry) as Hs3.
      pose proof (createTree_ok _ _ _ _ _ _ (step_world _ _ _ Hs3) Hct) as Hs4.
      pose proof (IH _ _ (step_world _ _ _ Hs4) Hrun) as Hs5.
      eauto using step_ok_trans.
    + pose proof (IH _ _ (step_world _ _ _ Hs1) Hrun) as Hs5.
      eauto using step_ok_trans.
Qed.

Lemma Cell_spawnTreesHere_spec l w u w' :
  world_ok rt w ->
  Cell_spawnTreesHere rt createTree l w = Some (u, w') ->
  step_ok rt w w'.
Proof.
  intros Hok Hrun. unfold Cell_spawnTreesHere in Hrun.
  apply bind_Some in Hrun as (this & w1 & Hthis & Hrun).
  apply read_cell_Some in Hthis as [Hthis ->].
  destruct (Cell_water this).
  { minv. subst. by apply step_ok_refl. }
  destruct (treeChances_of _ _ _ _) as [treeChances warnings].
  apply bind_Some in Hrun as (u1 & w1 & Hc & Hrun).
  apply modify_Some in Hc. subst w1.
  assert (Hs1 : step_ok rt w (with_console (console w ++ warnings) w)).
  { apply step_ok_same_entities; [by apply world_ok_console| |done].
    apply evolves_console. }
  destruct treeChances as [|t ts].
  - minv. by subst.
  - eapply step_ok_trans; [exact Hs1|].
    eapply spawn_loop_spec; [|exact Hrun]. apply Hs1.
Qed.

Lemma Cell_constructor_spec x y w l w' :
  world_ok rt w ->
  Cell_constructor rt createTree x y (Grid_cellSize (grid w)) w = Some (l, w') ->
  step_ok rt w w' /\
  exists c, heap w' !! l = Some c /\ Cell_x c = x /\ Cell_y c = y.
Proof.
  intros Hok Hrun. unfold Cell_constructor in Hrun.
  apply bind_Some in Hrun as (g & w0 & Hg & Hrun).
  apply gets_Some in Hg as [-> ->].
  destruct (ok_soil _ _ Hok) as [Hms Hss].
  destruct (ok_height _ _ Hok) as [Hmh Hsh].
  destruct (ok_temperature _ _ Hok) as [Hmt Hst].
  set (f := Grid_noiseFrequencies (grid w)) in *.
  destruct (noise_ok rt _ (Z2Qc x * freq_soilFertility f)
              (Z2Qc y * freq_soilFertility f) Hms) as (Vs & Ms & Ss).
  destruct (noise_ok rt _ (Z2Qc x * freq_height f)
              (Z2Qc y * freq_height f) Hmh) as (Vh & Mh & Sh).
  destruct (noise_ok rt _ (Z2Qc x * freq_temperature f)
              (Z2Qc y * freq_temperature f) Hmt) as (Vt & Mt & St).
  destruct (noise rt (Grid_soilNoiseGenerator (grid w)) _ _) as [s sg].
  destruct (noise rt (Grid_heightNoiseGenerator (grid w)) _ _) as [h hg].
  destruct (noise rt (Grid_temperatureNoiseGenerator (grid w)) _ _) as [t tg].
  cbn [fst snd] in *.
  apply bind_Some in Hrun as (u1 & w1 & Hm & Hrun).
  apply modify_Some in Hm.
  apply bind_Some in Hrun as (this & w2 & Ha & Hrun).
  apply alloc_cell_Some in Ha as [Hl Hw2].
  apply bind_Some in Hrun as (u3 & w3 & Hsp & Hrun).
  apply ret_Some in Hrun as [-> ->].
  assert (Hok1 : world_ok rt w1).
  { subst w1. apply world_ok_generators; congruence. }
  assert (Hfresh : heap w1 !! l = None).
  { subst l. apply not_elem_of_dom. apply is_fresh. }
  assert (Hcs : Grid_cellSize (grid w1) = Grid_cellSize (grid w)) by by subst w1.
  assert (Hfr : Grid_noiseFrequencies (grid w1) = f) by by subst w1.
  assert (Hok2 : world_ok rt w2).
  { subst w2. apply world_ok_heap_insert; [done|done|done|done|].
    rewrite Hcs, Hfr. unfold Cell_at, terrain_soilFertility, terrain_height,
      terrain_temperature. cbn [Cell_init Cell_x Cell_y].
    rewrite Vs, Vh, Vt, Hss, Hsh, Hst. reflexivity. }
  assert (Hs2 : step_ok rt w w2).
  { apply step_ok_same_entities; [done| |by subst w2 w1].
    apply (evolves_trans _ w w1).
    - subst w1. by apply evolves_grid.
    - subst w2. apply evolves_heap_insert; [done|].
      intros e _. cbn [Cell_init Cell_entities]. apply not_elem_of_empty. }
  pose proof (Cell_spawnTreesHere_spec _ _ _ _ Hok2 Hsp) as Hs3.
  split; [by eapply step_ok_trans|].
  assert (Hl2 : heap w2 !! l = Some (Cell_init x y (Grid_cellSize (grid w)) s h t)).
  { subst w2. cbn [heap with_heap]. apply lookup_insert_eq. }
  destruct (ev_cells _ _ _ (step_evolves _ _ _ Hs3) l _ Hl2) as (c' & Hc' & Hx & Hy & _).
  exists c'. done.
Qed.

End WithCreateTree.

Lemma Grid_getCell_spec fuel : getCell_spec rt (Grid_getCell rt fuel).
Proof.
  induction fuel as [|fuel IH]; intros x y w l w' Hok Hrun.
  - cbn [Grid_getCell] in Hrun.
    destruct (Grid_cells (grid w) !! Grid_getCellKey x y) as [cell|] eqn:Hk; [|done].
    apply (inj Some) in Hrun. injection Hrun as -> ->.
    split; [by apply step_ok_refl|]. split; [done|].
    destruct (ok_cells _ _ Hok _ _ Hk) as (c & Hc & Hkey).
    apply Grid_getCellKey_inj in Hkey as [-> ->]. by exists c.
  - cbn [Grid_getCell] in Hrun.
    destruct (Grid_cells (grid w) !! Grid_getCellKey x y) as [cell|] eqn:Hk.
    + apply (inj Some) in Hrun. injection Hrun as -> ->.
      split; [by apply step_ok_refl|]. split; [done|].
      destruct (ok_cells _ _ Hok _ _ Hk) as (c & Hc & Hkey).
      apply Grid_getCellKey_inj in Hkey as [-> ->]. by exists c.
    + apply bind_Some in Hrun as (cell & w1 & Hc & Hrun).
      apply bind_Some in Hrun as (u & w2 & Hm & Hrun).
      apply modify_Some in Hm. apply ret_Some in Hrun as [-> ->].
      destruct (Cell_constructor_spec _ (Game_createTree_with_spec _ IH) _ _ _ _ _ Hok Hc)
        as (Hs1 & c & Hl & Hx & Hy).
      subst w'. split; [|split].
      * eapply step_ok_trans; [exact Hs1|].
        apply step_ok_same_entities; [|by apply evolves_grid|done].
        apply world_ok_cells; [apply Hs1|].
        intros key l'. destruct (decide (Grid_getCellKey x y = key)) as [<-|Hne].
        -- rewrite lookup_insert_eq. intros Heq. apply (inj Some) in Heq. subst l'.
           exists c. by rewrite Hx, Hy.
        -- rewrite lookup_insert_ne by done. apply (ok_cells _ _ (step_world _ _ _ Hs1)).
      * cbn. apply lookup_insert_eq.
      * by exists c.
Qed.
End Construction.

(** ** The operations of the index *)

Section IndexOps.
Variable rt : Runtime.

Lemma Entity_setPosition_Some e x y u w w' :
  Entity_setPosition e x y w = Some (u, w') <->
  is_Some (ents w !! e) /\
  w' = with_ents (alter (Entity_with_position (x, y)) e (ents w)) w.
Proof.
  unfold Entity_setPosition. rewrite bind_Some. split.
  - intros (E & w1 & Hr & Hu). apply read_entity_Some in Hr as [Hr ->].
    apply update_entity_Some in Hu. split; [by eexists|done].
  - intros [[E HE] ->]. exists E, w. split; [by apply read_entity_Some|].
    by apply update_entity_Some.
Qed.

(** Moving [e] keeps the memberships, and the position clause of the
    other entities. *)
Lemma membership_ok_setPosition w e p e' :
  membership_ok w e' ->
  membership_ok (with_ents (alter (Entity_with_position p) e (ents w)) w) e'.
Proof.
  intros Hm E'. cbn [ents with_ents heap].
  destruct (decide (e = e')) as [<-|Hne].
  - rewrite lookup_alter_eq. destruct (ents w !! e) as [E|] eqn:HE; [|done].
    cbn. intros Heq. apply (inj Some) in Heq. subst E'. apply (Hm E HE).
  - rewrite lookup_alter_ne by done. apply Hm.
Qed.

Lemma position_ok_setPosition w e p e' :
  e <> e' -> position_ok w e' ->
  position_ok (with_ents (alter (Entity_with_position p) e (ents w)) w) e'.
Proof.
  intros Hne Hp E' l c. cbn [ents with_ents heap grid].
  rewrite lookup_alter_ne by done. apply Hp.
Qed.

Lemma Grid_removeEntity_spec e u w w' :
  world_ok rt w -> Grid_removeEntity e w = Some (u, w') ->
  world_ok rt w' /\ evolves (dom (ents w) ∖ {[e]}) w w' /\
  dom (ents w') = dom (ents w) /\
  (membership_ok w e -> index_inv_at w' e).
Proof.
  intros Hok Hrun. unfold Grid_removeEntity in Hrun.
  apply bind_Some in Hrun as (E & w1 & HE & Hrun).
  apply read_entity_Some in HE as [HE ->].
  destruct (Entity_currentCell E) as [cell|] eqn:Hcur.
  - apply bind_Some in Hrun as (u1 & w1 & Hrm & Hrun).
    unfold Cell_removeEntity in Hrm. apply update_cell_Some in Hrm.
    apply update_entity_Some in Hrun. subst w' w1.
    set (w1 := with_heap _ w).
    assert (Hok1 : world_ok rt w1) by by apply world_ok_removeEntity.
    split; [by apply world_ok_ents_alter|]. split; [|split].
    + apply (evolves_trans _ w w1).
      * apply evolves_heap_alter. intros c. split; [done|]. split; [done|].
        intros e' He'. cbn. rewrite elem_of_difference, elem_of_singleton.
        split; [by intros [? _]|]. intros Hin. split; [done|]. set_solver.
      * apply evolves_ents_alter. set_solver.
    + cbn. apply dom_alter_L.
    + intros Hm. specialize (Hm E HE). rewrite Hcur in Hm.
      destruct Hm as [(c & Hc & Hin) Huniq]. split.
      * intros E'. unfold w1. cbn [ents with_ents heap with_heap].
        rewrite lookup_alter_eq, HE. cbn. intros Heq. apply (inj Some) in Heq.
        subst E'. cbn. intros l' c'. destruct (decide (cell = l')) as [<-|Hne].
        -- rewrite lookup_alter_eq, Hc. cbn. intros Heq. apply (inj Some) in Heq.
           subst c'. cbn. set_solver.
        -- rewrite lookup_alter_ne by done. intros Hl' Hin'.
           apply Hne. symmetry. by eapply Huniq.
      * intros E' l' c'. unfold w1. cbn [ents with_ents with_heap].
        rewrite lookup_alter_eq, HE. cbn.
        intros Heq. apply (inj Some) in Heq. subst E'. cbn. done.
  - apply ret_Some in Hrun as [_ <-]. split; [done|].
    split; [apply evolves_refl|]. split; [done|].
    intros Hm. split; [done|]. intros E' l c HE'. congruence.
Qed.

Lemma Grid_updateEntity_spec fuel e E u w w' :
  world_ok rt w -> ents w !! e = Some E -> membership_ok w e ->
  Grid_updateEntity rt fuel e w = Some (u, w') ->
  world_ok rt w' /\ evolves (dom (ents w) ∖ {[e]}) w w' /\
  fresh_index (dom (ents w)) w' /\ index_inv_at w' e.
Proof.
  intros Hok HE Hm Hrun. unfold Grid_updateEntity in Hrun.
  apply bind_Some in Hrun as (E0 & w0 & HE0 & Hrun).
  apply read_entity_Some in HE0 as [HE0 ->].
  assert (E0 = E) as -> by congruence.
  apply bind_Some in Hrun as (newCell & w1 & Hg & Hrun).
  apply bind_Some in Hrun as (E1 & w1' & HE1 & Hrun).
  apply read_entity_Some in HE1 as [HE1 ->].
  destruct (Grid_getCellAtWorldPos_with_spec rt _ (Grid_getCell_spec rt fuel)
              _ _ _ _ _ Hok Hg) as ([Hok1 Hev1 Hf1] & c & Hc & Hxy & Hkey).
  assert (HeD : e ∈ dom (ents w)) by (apply elem_of_dom; by eexists).
  pose proof (ev_entities _ _ _ Hev1 e E HeD HE) as HE2.
  assert (E1 = E) as -> by congruence.
  assert (Hm1 : membership_ok w1 e).
  { eapply membership_ok_evolves; [done|done|by eexists|done]. }
  assert (Hxy1 : (Cell_x c, Cell_y c) =
                 Grid_worldToCell (grid w1) (Entity_position E).1 (Entity_position E).2).
  { unfold Grid_worldToCell in *. by rewrite (ev_cellSize _ _ _ Hev1). }
  destruct (bool_decide (Entity_currentCell E = Some newCell)) eqn:Hb.
  - apply bool_decide_eq_true in Hb. apply ret_Some in Hrun as [_ <-].
    split; [done|]. split; [|split; [done|]].
    + eapply evolves_mono; [|done]. set_solver.
    + split; [done|]. intros E' l c' HE' Hcur Hl.
      assert (E' = E) as -> by congruence.
      assert (l = newCell) as -> by congruence.
      assert (c' = c) as -> by congruence. done.
  - apply bool_decide_eq_false in Hb.
    apply bind_Some in Hrun as (u2 & w2 & Hrm & Hrun).
    apply bind_Some in Hrun as (u3 & w3 & Hadd & Hrun).
    unfold Cell_addEntity in Hadd. apply update_cell_Some in Hadd.
    apply update_entity_Some in Hrun.
    (* the removal from the old cell, if any *)
    assert (Hs2 : world_ok rt w2 /\ ents w2 = ents w1 /\
                  grid w2 = grid w1 /\
                  (forall D, e ∉ D -> evolves D w1 w2) /\
                  (exists c2, heap w2 !! newCell = Some c2 /\
                              Cell_x c2 = Cell_x c /\ Cell_y c2 = Cell_y c) /\
                  (forall l' c', heap w2 !! l' = Some c' -> e ∉ Cell_entities c')).
    { specialize (Hm1 E HE2). destruct (Entity_currentCell E) as [old|] eqn:Hcur.
      - unfold Cell_removeEntity in Hrm. apply update_cell_Some in Hrm. subst w2.
        split; [by apply world_ok_removeEntity|]. split; [done|]. split; [done|].
        destruct Hm1 as [(c0 & Hc0 & Hin0) Huniq]. split; [|split].
        + intros D HD. apply evolves_heap_alter. intros c1.
          split; [done|]. split; [done|]. intros e' He'. cbn.
          rewrite elem_of_difference, elem_of_singleton.
          split; [by intros [? _]|]. intros Hin. split; [done|].
          intros ->. done.
        + cbn [heap with_heap]. rewrite lookup_alter_ne by congruence. by exists c.
        + intros l' c'. cbn [heap with_heap].
          destruct (decide (old = l')) as [<-|Hne].
          * rewrite lookup_alter_eq, Hc0. cbn. intros Heq. apply (inj Some) in Heq.
            subst c'. cbn. set_solver.
          * rewrite lookup_alter_ne by done. intros Hl' Hin'.
            apply Hne. symmetry. by eapply Huniq.
      - apply ret_Some in Hrm as [_ <-]. split; [done|]. split; [done|].
        split; [done|]. split; [intros; apply evolves_refl|].
        split; [by exists c|]. done. }
    destruct Hs2 as (Hok2 & Hents2 & Hgrid2 & Hev2 & (c2 & Hc2 & Hx2 & Hy2) & Hnone2).
    subst w' w3. set (w3 := with_heap _ w2).
    assert (HE3 : ents w2 !! e = Some E) by by rewrite Hents2.
    assert (Hok3 : world_ok rt w3) by (apply world_ok_addEntity; [done|by eexists]).
    assert (Hev3 : forall D, e ∉ D -> evolves D w1
              (with_ents (alter (Entity_with_currentCell (Some newCell)) e (ents w3)) w3)).
    { intros D HD. apply (evolves_trans D w1 w2); [by apply Hev2|].
      apply (evolves_trans D w2 w3).
      - subst w3. apply evolves_heap_alter. intros c0. split; [done|]. split; [done|].
        intros e' He'. cbn. rewrite elem_of_union, elem_of_singleton.
        split; [|by left]. intros [Hin|Heq]; [done|]. subst e'. by destruct HD.
      - by apply (evolves_ents_alter D w3 e). }
    split; [by apply world_ok_ents_alter|]. split; [|split].
    + eapply evolves_trans.
      * eapply evolves_mono; [|exact Hev1]. set_solver.
      * apply Hev3. set_solver.
    + intros e' He'. destruct (ents w1 !! e') as [E'|] eqn:HE'.
      * eapply (index_inv_at_evolves {[e']}); [apply Hev3| |by eexists|by apply Hf1].
        -- intros ->%elem_of_singleton. by destruct He'.
        -- by apply elem_of_singleton.
      * apply index_inv_at_absent. cbn. rewrite lookup_alter_ne; [by rewrite Hents2|].
        intros <-. congruence.
    + split.
      * intros E'. unfold w3. cbn [ents with_ents with_heap heap].
        rewrite lookup_alter_eq, HE3. cbn.
        intros Heq. apply (inj Some) in Heq. subst E'. cbn. split.
        -- exists (Cell_with_entities (Cell_entities c2 ∪ {[e]}) c2).
           rewrite lookup_alter_eq, Hc2. split; [done|]. cbn.
           apply elem_of_union_r. by apply elem_of_singleton.
        -- intros l' c'. destruct (decide (newCell = l')) as [<-|Hne]; [done|].
           rewrite lookup_alter_ne by done. intros Hl' Hin.
           by destruct (Hnone2 l' c' Hl').
      * intros E' l' c'. unfold w3. cbn [ents with_ents with_heap heap grid with_grid].
        rewrite lookup_alter_eq, HE3. cbn.
        intros Heq. apply (inj Some) in Heq. subst E'. cbn.
        intros Heq. apply (inj Some) in Heq. subst l'.
        rewrite lookup_alter_eq, Hc2. cbn.
        intros Heq. apply (inj Some) in Heq. subst c'. cbn.
        rewrite Hx2, Hy2, Hgrid2. exact Hxy1.
Qed.

End IndexOps.

(** ** Loops *)

Lemma foldM_frame {A B} (f : B -> A -> M A) (l : list B) :
  (forall b acc w a w', f b acc w = Some (a, w') -> w' = w) ->
  forall acc w a w', foldM f l acc w = Some (a, w') -> w' = w.
Proof.
  intros Hf. induction l as [|b l IH]; intros acc w a w' Hrun; cbn [foldM] in Hrun.
  - by apply ret_Some in Hrun as [_ <-].
  - apply bind_Some in Hrun as (acc' & w1 & Hb & Hrun).
    apply Hf in Hb as ->. by eapply IH.
Qed.

Lemma elem_of_range lo hi i : i ∈ range lo hi <-> (lo <= i <= hi)%Z.
Proof. unfold range. rewrite elem_of_seqZ. lia. Qed.

(** ** The two queries *)

Lemma member_filter_frame test e acc w a w' :
  member_filter test e acc w = Some (a, w') -> w' = w.
Proof.
  unfold member_filter. intros Hrun.
  apply bind_Some in Hrun as (E & w1 & HE & Hrun).
  apply read_entity_Some in HE as [_ ->].
  destruct (test E); by apply ret_Some in Hrun as [_ <-].
Qed.

Lemma sweep_frame test xs ys acc w a w' :
  sweep test xs ys acc w = Some (a, w') -> w' = w.
Proof.
  unfold sweep. apply foldM_frame. clear. intros cellX acc w a w'.
  apply foldM_frame. clear. intros cellY acc w a w' Hrun.
  apply bind_Some in Hrun as (g & w1 & Hg & Hrun).
  apply gets_Some in Hg as [-> ->].
  destruct (Grid_cells (grid w) !! _) as [cell|].
  - apply bind_Some in Hrun as (members & w1 & Hm & Hrun).
    unfold Cell_getEntities in Hm.
    apply bind_Some in Hm as (c & w2 & Hc & Hm).
    apply read_cell_Some in Hc as [_ ->]. apply ret_Some in Hm as [_ <-].
    revert Hrun. apply foldM_frame. clear. intros. by eapply member_filter_frame.
  - by apply ret_Some in Hrun as [_ <-].
Qed.

Section Sweep.
Variable test : Entity -> bool.
Variable w : World.
Hypothesis cells_exist : forall key l,
  Grid_cells (grid w) !! key = Some l -> is_Some (heap w !! l).
Hypothesis members_exist : forall key l c e,
  Grid_cells (grid w) !! key = Some l -> heap w !! l = Some c ->
  e ∈ Cell_entities c -> is_Some (ents w !! e).

Lemma members_sweep es acc :
  (forall e, e ∈ es -> is_Some (ents w !! e)) ->
  exists res, foldM (member_filter test) es acc w = Some (res, w) /\
    forall e, e ∈ res <->
      e ∈ acc \/ (e ∈ es /\ exists E, ents w !! e = Some E /\ test E = true).
Proof.
  revert acc. induction es as [|e0 es IH]; intros acc Hes.
  - exists acc. split; [done|]. intros e. split; [by left|].
    intros [?|[Hin _]]; [done|]. by apply elem_of_nil in Hin.
  - destruct (Hes e0) as [E0 HE0]; [by left|].
    assert (Hes' : forall e, e ∈ es -> is_Some (ents w !! e)).
    { intros e He. apply Hes. by right. }
    cbn [foldM].
    assert (Hstep : member_filter test e0 acc w =
                    Some (if test E0 then acc ∪ {[e0]} else acc, w)).
    { unfold member_filter. apply bind_Some. exists E0, w.
      split; [by apply read_entity_Some|]. by destruct (test E0). }
    destruct (IH (if test E0 then acc ∪ {[e0]} else acc) Hes') as (res & Hres & Hspec).
    exists res. split.
    + apply bind_Some. eauto.
    + intros e. rewrite Hspec. rewrite elem_of_cons. split.
      * intros [Hacc|(Hin & E & HE & Ht)].
        -- destruct (test E0) eqn:Ht0; [|by left].
           apply elem_of_union in Hacc as [?|Heq]; [by left|].
           apply elem_of_singleton in Heq as ->. right. split; [by left|]. eauto.
        -- right. split; [by right|]. eauto.
      * intros [Hacc|([->|Hin] & E & HE & Ht)].
        -- left. destruct (test E0); [|done]. by apply elem_of_union_l.
        -- left. assert (E = E0) as -> by congruence. rewrite Ht.
           apply elem_of_union_r. by apply elem_of_singleton.
        -- right. split; [done|]. eauto.
Qed.

Lemma row_sweep cellX ys acc :
  exists res,
    foldM (fun cellY entities =>
      let key := Grid_getCellKey cellX cellY in
      g <- gets grid ;;
      match Grid_cells g !! key with
      | Some cell =>
          members <- Cell_getEntities cell ;;
          foldM (member_filter test) (elements members) entities
      | None => ret entities
      end) ys acc w = Some (res, w) /\
    forall e, e ∈ res <->
      e ∈ acc \/ exists cellY, cellY ∈ ys /\ found test w cellX cellY e.
Proof.
  revert acc. induction ys as [|y0 ys IH]; intros acc.
  - exists acc. split; [done|]. intros e. split; [by left|].
    intros [?|(cellY & Hin & _)]; [done|]. by apply elem_of_nil in Hin.
  - cbn [foldM].
    assert (Hstep : exists acc1,
      (g <- gets grid ;;
       match Grid_cells g !! Grid_getCellKey cellX y0 with
       | Some cell =>
           members <- Cell_getEntities cell ;;
           foldM (member_filter test) (elements members) acc
       | None => ret acc
       end)%M w = Some (acc1, w) /\
      forall e, e ∈ acc1 <-> e ∈ acc \/ found test w cellX y0 e).
    { destruct (Grid_cells (grid w) !! Grid_getCellKey cellX y0) as [l|] eqn:Hk.
      - destruct (cells_exist _ _ Hk) as [c Hc].
        destruct (members_sweep (elements (Cell_entities c)) acc) as (acc1 & Hrun & Hspec).
        { intros e He. apply elem_of_elements in He. by eapply members_exist. }
        exists acc1. split.
        + apply bind_Some. exists (grid w), w. split; [done|]. rewrite Hk.
          apply bind_Some. exists (Cell_entities c), w. split; [|done].
          unfold Cell_getEntities. apply bind_Some. exists c, w.
          split; [by apply read_cell_Some|done].
        + intros e. rewrite Hspec. rewrite elem_of_elements. split.
          * intros [?|(Hin & E & HE & Ht)]; [by left|]. right.
            exists l, c, E. done.
          * intros [?|(l' & c' & E & Hl' & Hc' & Hin & HE & Ht)]; [by left|].
            right. assert (l' = l) as -> by congruence.
            assert (c' = c) as -> by congruence. eauto.
      - exists acc. split.
        + apply bind_Some. exists (grid w), w. split; [done|]. by rewrite Hk.
        + intros e. split; [by left|].
          intros [?|(l' & c' & E & Hl' & _)]; [done|]. congruence. }
    destruct Hstep as (acc1 & Hrun1 & Hspec1).
    destruct (IH acc1) as (res & Hrun & Hspec).
    exists res. split.
    + apply bind_Some. eauto.
    + intros e. rewrite Hspec, Hspec1. split.
      * intros [[?|Hf]|(cellY & Hin & Hf)]; [by left| |].
        -- right. exists y0. split; [by left|done].
        -- right. exists cellY. split; [by right|done].
      * intros [?|(cellY & Hin & Hf)]; [by left; left|].
        apply elem_of_cons in Hin as [->|Hin]; [by left; right|].
        right. eauto.
Qed.

Lemma sweep_spec xs ys acc :
  exists res, sweep test xs ys acc w = Some (res, w) /\
    forall e, e ∈ res <->
      e ∈ acc \/ exists cellX cellY, cellX ∈ xs /\ cellY ∈ ys /\
                                     found test w cellX cellY e.
Proof.
  unfold sweep. revert acc. induction xs as [|x0 xs IH]; intros acc.
  - exists acc. split; [done|]. intros e. split; [by left|].
    intros [?|(cellX & cellY & Hin & _)]; [done|]. by apply elem_of_nil in Hin.
  - cbn [foldM]. destruct (row_sweep x0 ys acc) as (acc1 & Hrun1 & Hspec1).
    destruct (IH acc1) as (res & Hrun & Hspec).
    exists res. split.
    + apply bind_Some. eauto.
    + intros e. rewrite Hspec, Hspec1. split.
      * intros [[?|(cellY & Hin & Hf)]|(cellX & cellY & Hx & Hy & Hf)]; [by left| |].
        -- right. exists x0, cellY. split; [by left|done].
        -- right. exists cellX, cellY. split; [by right|done].
      * intros [?|(cellX & cellY & Hx & Hy & Hf)]; [by left; left|].
        apply elem_of_cons in Hx as [->|Hx]; [left; right; eauto|].
        right. eauto.
Qed.
End Sweep.

Lemma Grid_getEntitiesInRadius_sweep cx cy r w :
  Grid_getEntitiesInRadius cx cy r w =
  sweep (radius_test cx cy r)
    (range (Math_floor ((cx - r) / Grid_cellSize (grid w)))
           (Math_floor ((cx + r) / Grid_cellSize (grid w))))
    (range (Math_floor ((cy - r) / Grid_cellSize (grid w)))
           (Math_floor ((cy + r) / Grid_cellSize (grid w)))) ∅ w.
Proof. reflexivity. Qed.

Lemma Grid_getEntitiesInArea_sweep x y width height w :
  Grid_getEntitiesInArea x y width height w =
  sweep (fun E => Qcleb x (Entity_position E).1
                  && Qcleb (Entity_position E).1 (x + width)
                  && Qcleb y (Entity_position E).2
                  && Qcleb (Entity_position E).2 (y + height))
    (range (Math_floor (x / Grid_cellSize (grid w)))
           (Math_floor ((x + width) / Grid_cellSize (grid w))))
    (range (Math_floor (y / Grid_cellSize (grid w)))
           (Math_floor ((y + height) / Grid_cellSize (grid w)))) ∅ w.
Proof. reflexivity. Qed.

(** ** [clear] *)

Lemma clear_fold ls w :
  foldM (fun cell (_ : unit) => update_cell cell Cell_clear) ls tt w =
  Some (tt, with_heap (cleared ls (heap w)) w).
Proof.
  revert w. induction ls as [|l ls IH]; intros w.
  - cbn. by destruct w.
  - cbn [foldM]. apply bind_Some. eexists tt, _. split.
    + by apply update_cell_Some.
    + rewrite IH. reflexivity.
Qed.

Lemma lookup_cleared ls h l :
  cleared ls h !! l = if decide (l ∈ ls) then Cell_clear <$> h !! l else h !! l.
Proof.
  revert h. induction ls as [|l0 ls IH]; intros h.
  - cbn. destruct (decide (l ∈ [])) as [Hin|]; [|done]. by apply elem_of_nil in Hin.
  - cbn [cleared foldl]. fold (cleared ls (alter Cell_clear l0 h)). rewrite IH.
    destruct (decide (l0 = l)) as [->|Hne].
    + rewrite lookup_alter_eq. destruct (decide (l ∈ l :: ls)) as [_|Hn].
      * destruct (decide (l ∈ ls)); [|done]. by destruct (h !! l).
      * destruct Hn. by left.
    + rewrite lookup_alter_ne by done.
      destruct (decide (l ∈ ls)) as [Hin|Hnin].
      * destruct (decide (l ∈ l0 :: ls)) as [_|Hn]; [done|]. destruct Hn. by right.
      * destruct (decide (l ∈ l0 :: ls)) as [Hin'|_]; [|done].
        apply elem_of_cons in Hin' as [->|?]; done.
Qed.

Lemma Grid_clear_Some w :
  Grid_clear w =
  Some (tt, with_grid (Grid_with_cells ∅ (grid w))
              (with_heap (cleared (map snd (map_to_list (Grid_cells (grid w))))
                            (heap w)) w)).
Proof.
  unfold Grid_clear. apply bind_Some. exists (grid w), w. split; [done|].
  apply bind_Some. eexists tt, _. split; [apply clear_fold|]. reflexivity.
Qed.

Lemma elem_of_map_values (m : gmap string loc) l :
  l ∈ map snd (map_to_list m) <-> exists key, m !! key = Some l.
Proof.
  rewrite list_elem_of_fmap. split.
  - intros ([key l'] & -> & Hin). exists key. by apply elem_of_map_to_list.
  - intros (key & Hk). exists (key, l). split; [done|]. by apply elem_of_map_to_list.
Qed.

Lemma world_ok_cleared rt ls w :
  world_ok rt w -> world_ok rt (with_heap (cleared ls (heap w)) w).
Proof.
  revert w. induction ls as [|l ls IH]; intros w Hok.
  - cbn. by destruct w.
  - cbn [cleared foldl]. fold (cleared ls (alter Cell_clear l (heap w))).
    assert (Hok1 : world_ok rt (with_heap (alter Cell_clear l (heap w)) w));
      [|exact (IH _ Hok1)].
    apply world_ok_heap_alter; [done|]. intros c Hc.
    split; [done|]. split; [done|]. split; [done|]. split.
    + cbn. intros e He. by apply not_elem_of_empty in He.
    + cbn. intros t r ns l'. by apply (ok_neighbors _ _ Hok l c).
Qed.

(** ** [getNeighborsInRadius] *)

Lemma alter_as_insert (h : gmap loc Cell) l c f :
  h !! l = Some c -> alter f l h = <[l := f c]> h.
Proof.
  intros Hl. apply map_eq. intros l'. destruct (decide (l = l')) as [<-|Hne].
  - by rewrite lookup_alter_eq, lookup_insert_eq, Hl.
  - by rewrite lookup_alter_ne, lookup_insert_ne.
Qed.

Lemma Cell_with_neighborsInRadius_twice t t' c :
  Cell_with_neighborsInRadius t (Cell_with_neighborsInRadius t' c) =
  Cell_with_neighborsInRadius t c.
Proof. reflexivity. Qed.

Lemma Cell_with_neighborsInRadius_id c :
  Cell_with_neighborsInRadius (Cell_neighborsInRadius c) c = c.
Proof. by destruct c. Qed.

Lemma Cell_getNeighborsInRadius_Some l r w this :
  heap w !! l = Some this ->
  let table := default ∅ (Cell_neighborsInRadius this) in
  let ns := default (neighbors_scan (Grid_cells (grid w)) (Cell_x this) (Cell_y this) r)
                    (table !! r) in
  Cell_getNeighborsInRadius l r w =
  Some (ns, with_heap
              (<[l := Cell_with_neighborsInRadius (Some (<[r := ns]> table)) this]>
                 (heap w)) w).
Proof.
  intros Hl table ns. unfold Cell_getNeighborsInRadius.
  set (f := fun this0 => match Cell_neighborsInRadius this0 with
                         | None => Cell_with_neighborsInRadius (Some ∅) this0
                         | Some _ => this0
                         end).
  assert (Hf : f this = Cell_with_neighborsInRadius (Some table) this).
  { unfold f, table. destruct (Cell_neighborsInRadius this) eqn:Hc; cbn; [|done].
    by rewrite <- Hc, Cell_with_neighborsInRadius_id. }
  apply bind_Some. eexists tt, _. split; [by apply update_cell_Some|].
  apply bind_Some. exists (f this), (with_heap (alter f l (heap w)) w). split.
  { apply read_cell_Some. split; [|done]. cbn. by rewrite lookup_alter_eq, Hl. }
  rewrite Hf. cbn [Cell_neighborsInRadius Cell_with_neighborsInRadius Cell_x Cell_y].
  change (default ∅ (Some table)) with table.
  subst ns. destruct (table !! r) as [cached|] eqn:Hr.
  - change (default _ (Some cached)) with cached.
    apply ret_Some. split; [done|]. f_equal.
    rewrite (alter_as_insert _ _ _ _ Hl), Hf. by rewrite (insert_id table r cached).
  - change (default ?d None) with d.
    apply bind_Some. exists (grid w), (with_heap (alter f l (heap w)) w). split; [done|].
    apply bind_Some. eexists tt, _. split; [by apply update_cell_Some|].
    apply ret_Some. split; [done|].
    unfold with_heap. cbn [grid heap ents random_calls console]. f_equal.
    rewrite (alter_as_insert _ _ _ _ Hl), Hf.
    rewrite (alter_as_insert _ l (Cell_with_neighborsInRadius (Some table) this));
      [|apply lookup_insert_eq].
    rewrite insert_insert_eq. done.
Qed.

Lemma elem_of_neighbors_scan cells x y r l :
  l ∈ neighbors_scan cells x y r <->
  exists dx dy, (- r <= dx <= r)%Z /\ (- r <= dy <= r)%Z /\
                ~ (dx = 0%Z /\ dy = 0%Z) /\
                cells !! Grid_getCellKey (x + dx) (y + dy) = Some l.
Proof.
  unfold neighbors_scan. rewrite list_elem_of_bind. split.
  - intros (dx & Hin & Hdx). apply elem_of_range in Hdx.
    apply list_elem_of_bind in Hin as (dy & Hin & Hdy). apply elem_of_range in Hdy.
    exists dx, dy. split; [done|]. split; [done|].
    destruct (bool_decide (dx = 0%Z) && bool_decide (dy = 0%Z)) eqn:Hb.
    + by apply elem_of_nil in Hin.
    + split.
      * intros [-> ->]. by rewrite !bool_decide_eq_true_2 in Hb.
      * destruct (cells !! _) as [l'|]; [|by apply elem_of_nil in Hin].
        apply list_elem_of_singleton in Hin. by subst.
  - intros (dx & dy & Hdx & Hdy & Hne & Hl).
    exists dx. split; [|by apply elem_of_range].
    apply list_elem_of_bind. exists dy. split; [|by apply elem_of_range].
    destruct (bool_decide (dx = 0%Z) && bool_decide (dy = 0%Z)) eqn:Hb.
    + apply andb_true_iff in Hb as [H1%bool_decide_eq_true H2%bool_decide_eq_true].
      by destruct Hne.
    + rewrite Hl. by apply list_elem_of_singleton.
Qed.

(** The scan finds the present neighbours, and nothing else. *)
Lemma neighbors_scan_present w this r l :
  l ∈ neighbors_scan (Grid_cells (grid w)) (Cell_x this) (Cell_y this) r <->
  present_neighbor w this r l.
Proof.
  rewrite elem_of_neighbors_scan. unfold present_neighbor. split.
  - intros (dx & dy & Hdx & Hdy & Hne & Hl).
    exists (Cell_x this + dx)%Z, (Cell_y this + dy)%Z. split; [done|]. split; [lia|].
    intros [= Hx Hy]. apply Hne. lia.
  - intros (x & y & Hl & Hd & Hne).
    exists (x - Cell_x this)%Z, (y - Cell_y this)%Z.
    split; [lia|]. split; [lia|]. split.
    + intros [Hx Hy]. apply Hne. f_equal; lia.
    + by replace (Cell_x this + (x - Cell_x this))%Z with x by lia;
         replace (Cell_y this + (y - Cell_y this))%Z with y by lia.
Qed.

(** ** Flow *)

Section Flow.
Variable rt : Runtime.

Lemma flow_contribution_geo this this' n n' :
  geo this = geo this' -> geo n = geo n' ->
  flow_contribution rt this n = flow_contribution rt this' n'.
Proof.
  unfold geo, flow_contribution. intros Ht Hn.
  apply (f_equal fst) in Ht as Hxy. cbn [fst] in Hxy.
  apply (f_equal snd) in Ht as Hh. cbn [snd] in Hh.
  apply (f_equal fst) in Hxy as Hx. apply (f_equal snd) in Hxy as Hy.
  cbn [fst snd] in Hx, Hy.
  apply (f_equal fst) in Hn as Hxy'. cbn [fst] in Hxy'.
  apply (f_equal snd) in Hn as Hh'. cbn [snd] in Hh'.
  apply (f_equal fst) in Hxy' as Hx'. apply (f_equal snd) in Hxy' as Hy'.
  cbn [fst snd] in Hx', Hy'.
  by rewrite Hx, Hy, Hh, Hx', Hy', Hh'.
Qed.

Lemma flow_fold_geo this this' cs cs' acc :
  geo this = geo this' -> map geo cs = map geo cs' ->
  foldl (fun acc n => Victor_add acc (flow_contribution rt this n)) acc cs =
  foldl (fun acc n => Victor_add acc (flow_contribution rt this' n)) acc cs'.
Proof.
  intros Ht. revert cs' acc. induction cs as [|c cs IH]; intros [|c' cs'] acc Hm;
    try discriminate; [done|].
  cbn [map] in Hm. apply (f_equal head) in Hm as Hc. cbn in Hc.
  apply (inj Some) in Hc. apply (f_equal tail) in Hm. cbn [tail] in Hm.
  cbn [foldl]. rewrite (flow_contribution_geo this this' c c' Ht Hc). by apply IH.
Qed.

Lemma flow_of_geo this this' cs cs' :
  geo this = geo this' -> map geo cs = map geo cs' ->
  flow_of rt this cs = flow_of rt this' cs'.
Proof.
  intros Ht Hm. unfold flow_of, flow_sum.
  by rewrite (flow_fold_geo this this' cs cs' _ Ht Hm).
Qed.

Lemma cells_of_cons w l ls c :
  heap w !! l = Some c -> cells_of w (l :: ls) = c :: cells_of w ls.
Proof. intros Hl. unfold cells_of. cbn [omap list_omap]. by rewrite Hl. Qed.

Lemma cells_of_geo w w' ls :
  (forall l, l ∈ ls -> geo <$> heap w' !! l = geo <$> heap w !! l) ->
  map geo (cells_of w' ls) = map geo (cells_of w ls).
Proof.
  induction ls as [|l ls IH]; intros Hg; [done|].
  assert (Hl := Hg l ltac:(by left)).
  assert (IH' : map geo (cells_of w' ls) = map geo (cells_of w ls)).
  { apply IH. intros l' Hl'. apply Hg. by right. }
  unfold cells_of in *. cbn [omap list_omap].
  destruct (heap w' !! l) as [c'|], (heap w !! l) as [c|]; cbn in Hl; try done.
  cbn [map]. apply (inj Some) in Hl. by rewrite Hl, IH'.
Qed.

Lemma flow_fold this ns acc w :
  (forall l, l ∈ ns -> is_Some (heap w !! l)) ->
  foldM (flow_step rt this) ns acc w =
  Some (foldl (fun acc n => Victor_add acc (flow_contribution rt this n)) acc
          (cells_of w ns), w).
Proof.
  revert acc. induction ns as [|l ns IH]; intros acc Hns; [done|].
  destruct (Hns l) as [c Hc]; [by left|].
  rewrite (cells_of_cons _ _ _ _ Hc). cbn [foldM foldl].
  apply bind_Some. eexists _, w. split.
  - unfold flow_step. apply bind_Some. exists c, w.
    split; [by apply read_cell_Some|]. reflexivity.
  - apply IH. intros l' Hl'. apply Hns. by right.
Qed.

Lemma Cell_calculateFlowDirection_Some l w this :
  heap w !! l = Some this ->
  (forall l', l' ∈ neighbors_result w this 3 -> is_Some (heap w !! l')) ->
  let v := flow_of rt this (cells_of w (neighbors_result w this 3)) in
  Cell_calculateFlowDirection rt l w =
  Some (v, with_heap
             (<[l := Cell_with_flow v (Cell_flowDirectionCalculated this)
                       (with_neighbors_result w this 3)]> (heap w)) w).
Proof.
  intros Hl Hns v. unfold Cell_calculateFlowDirection.
  pose proof (Cell_getNeighborsInRadius_Some l 3 w this Hl) as Hn.
  cbv zeta in Hn. fold (neighbors_result w this 3) in Hn.
  fold (with_neighbors_result w this 3) in Hn.
  set (ns := neighbors_result w this 3) in *.
  set (this1 := with_neighbors_result w this 3) in *.
  set (w1 := with_heap (<[l := this1]> (heap w)) w) in *.
  assert (Hl1 : heap w1 !! l = Some this1) by apply lookup_insert_eq.
  assert (Hns1 : forall l', l' ∈ ns -> is_Some (heap w1 !! l')).
  { intros l' Hl'. unfold w1. cbn [heap with_heap].
    destruct (decide (l = l')) as [<-|Hne].
    - rewrite lookup_insert_eq. by eexists.
    - rewrite lookup_insert_ne by done. by apply Hns. }
  assert (Hv : flow_of rt this1 (cells_of w1 ns) = v).
  { unfold v. apply flow_of_geo; [done|]. apply cells_of_geo.
    intros l' _. unfold w1. cbn [heap with_heap].
    destruct (decide (l = l')) as [<-|Hne].
    - by rewrite lookup_insert_eq, Hl.
    - by rewrite lookup_insert_ne. }
  apply bind_Some. exists ns, w1. split; [exact Hn|].
  apply bind_Some. exists this1, w1. split; [by apply read_cell_Some|].
  apply bind_Some. eexists _, w1. split; [by apply flow_fold|].
  cbv beta zeta.
  fold (flow_sum rt this1 (cells_of w1 ns)).
  change (if Victor_magnitude_gt0 (flow_sum rt this1 (cells_of w1 ns)) then _ else _)
    with (flow_of rt this1 (cells_of w1 ns)).
  rewrite Hv.
  apply bind_Some. eexists tt, _. split; [by apply update_cell_Some|].
  apply ret_Some. split; [done|].
  unfold w1, with_heap. cbn [grid heap ents random_calls console]. f_equal.
  rewrite (alter_as_insert _ l this1); [|apply lookup_insert_eq].
  by rewrite insert_insert_eq.
Qed.

Lemma Cell_getFlowDirection_cached l w this :
  heap w !! l = Some this -> Cell_flowDirectionCalculated this = true ->
  Cell_getFlowDirection rt l w = Some (Cell_flowDirection this, w).
Proof.
  intros Hl Hc. unfold Cell_getFlowDirection.
  apply bind_Some. exists this, w. split; [by apply read_cell_Some|].
  rewrite Hc. apply bind_Some. exists tt, w. split; [done|].
  apply bind_Some. exists this, w. split; [by apply read_cell_Some|done].
Qed.

Lemma Cell_getFlowDirection_first l w this :
  heap w !! l = Some this -> Cell_flowDirectionCalculated this = false ->
  (forall l', l' ∈ neighbors_result w this 3 -> is_Some (heap w !! l')) ->
  let v := flow_of rt this (cells_of w (neighbors_result w this 3)) in
  Cell_getFlowDirection rt l w =
  Some (v, with_heap
             (<[l := Cell_with_flow v true (with_neighbors_result w this 3)]>
                (heap w)) w).
Proof.
  intros Hl Hc Hns v. unfold Cell_getFlowDirection.
  apply bind_Some. exists this, w. split; [by apply read_cell_Some|].
  rewrite Hc.
  set (c1 := Cell_with_flow v false (with_neighbors_result w this 3)).
  set (w1 := with_heap (<[l := c1]> (heap w)) w).
  set (c2 := Cell_with_flow v true (with_neighbors_result w this 3)).
  set (w2 := with_heap (<[l := c2]> (heap w)) w).
  apply bind_Some. exists tt, w2. split.
  - apply bind_Some. exists v, w1. split.
    + rewrite (Cell_calculateFlowDirection_Some l w this Hl Hns). by rewrite Hc.
    + apply update_cell_Some. unfold w2, w1, with_heap.
      cbn [grid heap ents random_calls console]. f_equal.
      rewrite (alter_as_insert _ l c1); [|apply lookup_insert_eq].
      by rewrite insert_insert_eq.
  - apply bind_Some. exists c2, w2. split; [|done].
    apply read_cell_Some. split; [|done]. apply lookup_insert_eq.
Qed.

Lemma Cell_recalculateFlowDirection_Some l w this :
  heap w !! l = Some this ->
  (forall l', l' ∈ neighbors_result w this 3 -> is_Some (heap w !! l')) ->
  let v := flow_of rt this (cells_of w (neighbors_result w this 3)) in
  Cell_recalculateFlowDirection rt l w =
  Some (tt, with_heap
              (<[l := Cell_with_flow v true (with_neighbors_result w this 3)]>
                 (heap w)) w).
Proof.
  intros Hl Hns v. unfold Cell_recalculateFlowDirection.
  set (c1 := Cell_with_flow v (Cell_flowDirectionCalculated this)
               (with_neighbors_result w this 3)).
  apply bind_Some. exists v, (with_heap (<[l := c1]> (heap w)) w). split.
  - by rewrite (Cell_calculateFlowDirection_Some l w this Hl Hns).
  - apply update_cell_Some. unfold with_heap.
    cbn [grid heap ents random_calls console]. f_equal.
    rewrite (alter_as_insert _ l c1); [|apply lookup_insert_eq].
    by rewrite insert_insert_eq.
Qed.

(** Without the object there is no call. *)
Lemma Cell_getNeighborsInRadius_None l r w :
  heap w !! l = None -> Cell_getNeighborsInRadius l r w = None.
Proof.
  intros Hl. unfold Cell_getNeighborsInRadius.
  destruct (bind _ _ w) as [[ns w']|] eqn:Hrun; [|done].
  apply bind_Some in Hrun as (u & w1 & Hu & Hrun).
  apply update_cell_Some in Hu. subst w1.
  apply bind_Some in Hrun as (this & w2 & Hr & _).
  apply read_cell_Some in Hr as [Hr _]. cbn in Hr.
  rewrite lookup_alter_eq, Hl in Hr. done.
Qed.

Lemma Cell_calculateFlowDirection_None l w :
  heap w !! l = None -> Cell_calculateFlowDirection rt l w = None.
Proof.
  intros Hl. unfold Cell_calculateFlowDirection, bind.
  by rewrite (Cell_getNeighborsInRadius_None l 3 w Hl).
Qed.

Lemma Cell_getFlowDirection_None l w :
  heap w !! l = None -> Cell_getFlowDirection rt l w = None.
Proof.
  intros Hl. unfold Cell_getFlowDirection.
  destruct (bind _ _ w) as [[v w']|] eqn:Hrun; [|done].
  apply bind_Some in Hrun as (this & w1 & Hr & _).
  apply read_cell_Some in Hr as [Hr _]. congruence.
Qed.

End Flow.

(** ** Runs keep the world well formed *)

Section Runs.
Variable rt : Runtime.

Lemma same_config_refl w : same_config w w.
Proof. done. Qed.

Lemma same_config_trans w1 w2 w3 :
  same_config w1 w2 -> same_config w2 w3 -> same_config w1 w3.
Proof. intros [? ?] [? ?]. split; congruence. Qed.

Lemma evolves_same_config D w w' : evolves D w w' -> same_config w w'.
Proof. intros H. split; [apply (ev_cellSize _ _ _ H)|apply (ev_frequencies _ _ _ H)]. Qed.

Lemma neighbors_result_in_heap w l this r l' :
  world_ok rt w -> heap w !! l = Some this ->
  l' ∈ neighbors_result w this r -> is_Some (heap w !! l').
Proof.
  intros Hok Hl. unfold neighbors_result.
  destruct (Cell_neighborsInRadius this) as [t|] eqn:Ht.
  - change (default ∅ (Some t)) with t.
    destruct (t !! r) as [cached|] eqn:Hr.
    + change (default _ (Some cached)) with cached.
      intros Hin. exact (ok_neighbors _ _ Hok l this t r cached l' Hl Ht Hr Hin).
    + change (default ?d None) with d. intros Hin.
      apply elem_of_neighbors_scan in Hin as (dx & dy & _ & _ & _ & Hk).
      destruct (ok_cells _ _ Hok _ _ Hk) as (c & Hc & _). by eexists.
  - change (default ∅ None) with (∅ : gmap Z (list loc)). rewrite lookup_empty.
    change (default ?d None) with d. intros Hin.
    apply elem_of_neighbors_scan in Hin as (dx & dy & _ & _ & _ & Hk).
    destruct (ok_cells _ _ Hok _ _ Hk) as (c & Hc & _). by eexists.
Qed.

(** A world whose cell [l] has its caches refreshed. *)
Lemma world_ok_caches w l this r v b :
  world_ok rt w -> heap w !! l = Some this ->
  world_ok rt
    (with_heap (<[l := Cell_with_flow v b (with_neighbors_result w this r)]> (heap w)) w).
Proof.
  intros Hok Hl.
  rewrite <- (alter_as_insert (heap w) l this
                (fun _ => Cell_with_flow v b (with_neighbors_result w this r)) Hl).
  apply world_ok_heap_alter; [done|]. intros c Hc.
  assert (c = this) as -> by congruence.
  split; [done|]. split; [done|]. split; [done|]. split; [by left|].
  cbn [Cell_neighborsInRadius Cell_with_flow with_neighbors_result
       Cell_with_neighborsInRadius].
  intros t r' ns l' Ht. apply (inj Some) in Ht. subst t.
  destruct (decide (r = r')) as [<-|Hne].
  - rewrite lookup_insert_eq. intros Heq. apply (inj Some) in Heq. subst ns.
    by apply (neighbors_result_in_heap w l this r).
  - rewrite lookup_insert_ne by done.
    destruct (Cell_neighborsInRadius this) as [t|] eqn:Ht.
    + change (default ∅ (Some t)) with t. intros Hr Hin.
      exact (ok_neighbors _ _ Hok l this t r' ns l' Hl Ht Hr Hin).
    + change (default ∅ None) with (∅ : gmap Z (list loc)). by rewrite lookup_empty.
Qed.

Lemma evolves_caches D w l this c' :
  heap w !! l = Some this ->
  Cell_x c' = Cell_x this -> Cell_y c' = Cell_y this ->
  Cell_entities c' = Cell_entities this ->
  evolves D w (with_heap (<[l := c']> (heap w)) w).
Proof.
  intros Hl Hx Hy He.
  rewrite <- (alter_as_insert (heap w) l this (fun _ => c') Hl).
  split; try done; cbn [heap with_heap].
  - intros l' c Hc. destruct (decide (l = l')) as [<-|Hne].
    + exists c'. rewrite lookup_alter_eq, Hl. assert (c = this) as -> by congruence.
      split; [done|]. split; [done|]. split; [done|]. by rewrite He.
    + exists c. by rewrite lookup_alter_ne.
  - intros l' c Hn. destruct (decide (l = l')) as [<-|Hne]; [congruence|].
    rewrite lookup_alter_ne by done. congruence.
Qed.

Lemma Grid_addEntity_ok fuel e u w w' :
  world_ok rt w -> Grid_addEntity rt fuel e w = Some (u, w') ->
  world_ok rt w' /\ same_config w w'.
Proof.
  intros Hok Hrun. unfold Grid_addEntity, Grid_addEntity_with in Hrun.
  apply bind_Some in Hrun as (E & w0 & HE & Hrun).
  apply read_entity_Some in HE as [HE ->].
  apply bind_Some in Hrun as (cell & w1 & Hg & Hrun).
  apply bind_Some in Hrun as (u2 & w2 & Hadd & Hrun).
  unfold Cell_addEntity in Hadd. apply update_cell_Some in Hadd.
  apply update_entity_Some in Hrun. subst w' w2.
  destruct (Grid_getCellAtWorldPos_with_spec rt _ (Grid_getCell_spec rt fuel)
              _ _ _ _ _ Hok Hg) as ([Hok1 Hev1 _] & _).
  split.
  - apply world_ok_ents_alter. apply world_ok_addEntity; [done|].
    apply (ev_entities_dom _ _ _ Hev1). by eexists.
  - by apply evolves_same_config in Hev1.
Qed.

Lemma Grid_updateEntity_ok fuel e u w w' :
  world_ok rt w -> Grid_updateEntity rt fuel e w = Some (u, w') ->
  world_ok rt w' /\ same_config w w'.
Proof.
  intros Hok Hrun. unfold Grid_updateEntity in Hrun.
  apply bind_Some in Hrun as (E & w0 & HE & Hrun).
  apply read_entity_Some in HE as [HE ->].
  apply bind_Some in Hrun as (newCell & w1 & Hg & Hrun).
  apply bind_Some in Hrun as (E1 & w1' & HE1 & Hrun).
  apply read_entity_Some in HE1 as [HE1 ->].
  destruct (Grid_getCellAtWorldPos_with_spec rt _ (Grid_getCell_spec rt fuel)
              _ _ _ _ _ Hok Hg) as ([Hok1 Hev1 _] & _).
  apply evolves_same_config in Hev1 as Hcfg.
  destruct (bool_decide _).
  { apply ret_Some in Hrun as [_ <-]. done. }
  apply bind_Some in Hrun as (u2 & w2 & Hrm & Hrun).
  apply bind_Some in Hrun as (u3 & w3 & Hadd & Hrun).
  unfold Cell_addEntity in Hadd. apply update_cell_Some in Hadd.
  apply update_entity_Some in Hrun. subst w' w3.
  assert (Hok2 : world_ok rt w2 /\ ents w2 = ents w1 /\ grid w2 = grid w1).
  { destruct (Entity_currentCell E1).
    - unfold Cell_removeEntity in Hrm. apply update_cell_Some in Hrm. subst w2.
      split; [by apply world_ok_removeEntity|done].
    - apply ret_Some in Hrm as [_ <-]. done. }
  destruct Hok2 as (Hok2 & Hents & Hgrid). split.
  - apply world_ok_ents_alter. apply world_ok_addEntity; [done|].
    rewrite Hents. by eexists.
  - destruct Hcfg as [H1 H2]. split; cbn [grid with_ents with_heap]; congruence.
Qed.

Lemma run_op_ok fuel op u w w' :
  world_ok rt w -> run_op rt fuel op w = Some (u, w') ->
  world_ok rt w' /\ same_config w w'.
Proof.
  intros Hok Hrun. destruct op; cbn [run_op] in Hrun.
  - (* getCell *)
    apply bind_Some in Hrun as (l & w1 & Hg & Hrun).
    apply ret_Some in Hrun as [_ <-].
    destruct (Grid_getCell_spec rt fuel _ _ _ _ _ Hok Hg) as ([Hok1 Hev1 _] & _).
    split; [done|]. by apply evolves_same_config in Hev1.
  - (* getCellAtWorldPos *)
    apply bind_Some in Hrun as (l & w1 & Hg & Hrun).
    apply ret_Some in Hrun as [_ <-].
    destruct (Grid_getCellAtWorldPos_with_spec rt _ (Grid_getCell_spec rt fuel)
                _ _ _ _ _ Hok Hg) as ([Hok1 Hev1 _] & _).
    split; [done|]. by apply evolves_same_config in Hev1.
  - (* new Entity *)
    apply bind_Some in Hrun as (e & w1 & Hc & Hrun).
    apply ret_Some in Hrun as [_ <-].
    destruct (Entity_constructor_spec rt _ (Grid_getCell_spec rt fuel)
                _ _ _ _ _ Hok Hc) as ([Hok1 Hev1 _] & _).
    split; [done|]. by apply evolves_same_config in Hev1.
  - (* setPosition *)
    apply Entity_setPosition_Some in Hrun as [_ ->].
    split; [by apply world_ok_ents_alter|done].
  - (* addEntity *)
    apply bind_Some in Hrun as (u1 & w1 & Hp & Hrun).
    apply Entity_setPosition_Some in Hp as [_ ->].
    eapply Grid_addEntity_ok in Hrun as [? ?]; [done|].
    by apply world_ok_ents_alter.
  - (* updateEntity *)
    apply bind_Some in Hrun as (u1 & w1 & Hp & Hrun).
    apply Entity_setPosition_Some in Hp as [_ ->].
    eapply Grid_updateEntity_ok in Hrun as [? ?]; [done|].
    by apply world_ok_ents_alter.
  - (* removeEntity *)
    destruct (Grid_removeEntity_spec rt _ _ _ _ Hok Hrun) as (Hok1 & Hev & _).
    split; [done|]. by apply evolves_same_config in Hev.
  - (* getEntitiesInRadius *)
    apply bind_Some in Hrun as (res & w1 & Hq & Hrun).
    apply ret_Some in Hrun as [_ <-].
    rewrite Grid_getEntitiesInRadius_sweep in Hq. apply sweep_frame in Hq as ->. done.
  - (* getEntitiesInArea *)
    apply bind_Some in Hrun as (res & w1 & Hq & Hrun).
    apply ret_Some in Hrun as [_ <-].
    rewrite Grid_getEntitiesInArea_sweep in Hq. apply sweep_frame in Hq as ->. done.
  - (* clear *)
    rewrite Grid_clear_Some in Hrun. apply (inj Some) in Hrun.
    apply (f_equal snd) in Hrun. cbn [snd] in Hrun. subst w'. split; [|done].
    apply (world_ok_cells rt
             (with_heap (cleared (map snd (map_to_list (Grid_cells (grid w))))
                           (heap w)) w) ∅); [by apply world_ok_cleared|].
    intros key l. by rewrite lookup_empty.
  - (* getNeighborsInRadius *)
    apply bind_Some in Hrun as (ns & w1 & Hn & Hrun).
    apply ret_Some in Hrun as [_ <-].
    destruct (heap w !! cell) as [this|] eqn:Hl.
    + rewrite (Cell_getNeighborsInRadius_Some _ _ _ _ Hl) in Hn.
      apply (inj Some) in Hn. apply (f_equal snd) in Hn. cbn [snd] in Hn. subst w1.
      split; [|done].
      apply (world_ok_caches w cell this radius (Cell_flowDirection this)
               (Cell_flowDirectionCalculated this) Hok Hl).
    + by rewrite (Cell_getNeighborsInRadius_None _ _ _ Hl) in Hn.
  - (* getFlowDirection *)
    apply bind_Some in Hrun as (v & w1 & Hf & Hrun).
    apply ret_Some in Hrun as [_ <-].
    destruct (heap w !! cell) as [this|] eqn:Hl.
    + destruct (Cell_flowDirectionCalculated this) eqn:Hc.
      * rewrite (Cell_getFlowDirection_cached rt _ _ _ Hl Hc) in Hf.
        apply (inj Some) in Hf. apply (f_equal snd) in Hf. cbn [snd] in Hf.
        by subst w1.
      * rewrite (Cell_getFlowDirection_first rt _ _ _ Hl Hc) in Hf.
        2:{ intros l'. by apply (neighbors_result_in_heap w cell this 3). }
        apply (inj Some) in Hf. apply (f_equal snd) in Hf. cbn [snd] in Hf. subst w1.
        split; [|done]. by apply world_ok_caches.
    + by rewrite (Cell_getFlowDirection_None rt _ _ Hl) in Hf.
  - (* recalculateFlowDirection *)
    destruct (heap w !! cell) as [this|] eqn:Hl.
    + rewrite (Cell_recalculateFlowDirection_Some rt _ _ _ Hl) in Hrun.
      2:{ intros l'. by apply (neighbors_result_in_heap w cell this 3). }
      apply (inj Some) in Hrun. apply (f_equal snd) in Hrun. cbn [snd] in Hrun.
      subst w'. split; [|done]. by apply world_ok_caches.
    + unfold Cell_recalculateFlowDirection, bind in Hrun.
      by rewrite (Cell_calculateFlowDirection_None rt _ _ Hl) in Hrun.
Qed.

Lemma run_ops_ok fuel ops u w w' :
  world_ok rt w -> run_ops rt fuel ops w = Some (u, w') ->
  world_ok rt w' /\ same_config w w'.
Proof.
  revert w. induction ops as [|op ops IH]; intros w Hok Hrun; cbn [run_ops] in Hrun.
  - apply ret_Some in Hrun as [_ <-]. done.
  - apply bind_Some in Hrun as (u1 & w1 & Hop & Hrun).
    destruct (run_op_ok _ _ _ _ _ Hok Hop) as [Hok1 Hc1].
    destruct (IH _ Hok1 Hrun) as [Hok2 Hc2].
    split; [done|]. by eapply same_config_trans.
Qed.

Lemma reachable_ok cellSize f w :
  reachable rt cellSize f w ->
  world_ok rt w /\ Grid_cellSize (grid w) = cellSize /\
  Grid_noiseFrequencies (grid w) = f.
Proof.
  intros (fuel & ops & Hrun).
  destruct (run_ops_ok _ _ _ _ _ (world_ok_new rt cellSize f) Hrun) as [Hok [H1 H2]].
  done.
Qed.

End Runs.

(** ** Runs keep the index *)

Lemma Cell_terrain_init c x y cs s h t :
  Cell_terrain c = Cell_terrain (Cell_init x y cs s h t) ->
  Cell_cellSize c = cs /\
  Cell_worldX c = Z2Qc x * cs /\ Cell_worldY c = Z2Qc y * cs /\
  Cell_soilFertility c = s /\ Cell_height c = h /\ Cell_temperature c = t /\
  Cell_water c = Qcltb h (Q2Qc 0.4) /\
  Cell_beach c = Qcltb (Q2Qc 0.4) h && Qcltb h (Q2Qc 0.45) /\
  Cell_frozen c = Qcltb t (Q2Qc 0.3) /\
  Cell_desert c = Qcltb (Q2Qc 0.7) t.
Proof.
  intros H. unfold Cell_terrain in H.
  cbn [Cell_init Cell_cellSize Cell_worldX Cell_worldY Cell_soilFertility
       Cell_height Cell_temperature Cell_z Cell_water Cell_beach Cell_frozen
       Cell_desert] in H.
  split; [exact (f_equal (fun p => p.1.1.1.1.1.1.1) H)|].
  split; [exact (f_equal (fun p => p.1.1.1.1.1.1.2) H)|].
  split; [exact (f_equal (fun p => p.1.1.1.1.1.2) H)|].
  split; [exact (f_equal (fun p => p.1.1.1.1.2) H)|].
  split; [exact (f_equal (fun p => p.1.1.1.2) H)|].
  split; [exact (f_equal (fun p => p.1.1.2) H)|].
  split; [exact (f_equal (fun p => p.2.1.1.1) H)|].
  split; [exact (f_equal (fun p => p.2.1.1.2) H)|].
  split; [exact (f_equal (fun p => p.2.1.2) H)|].
  exact (f_equal (fun p => p.2.2) H).
Qed.

Section IndexRuns.
Variable rt : Runtime.

Lemma index_inv_new cellSize f : index_inv (Game_new cellSize f).
Proof. intros e. by apply index_inv_at_absent. Qed.

Lemma index_inv_step w w' : index_inv w -> step_ok rt w w' -> index_inv w'.
Proof.
  intros Hinv [_ Hev Hf] e. destruct (decide (e ∈ dom (ents w))) as [Hin|Hnin].
  - eapply index_inv_at_evolves; [done|done|by apply elem_of_dom|done].
  - by apply Hf.
Qed.

(** A step that changes neither an entity nor a membership. *)
Lemma index_inv_caches w l this c' :
  heap w !! l = Some this ->
  Cell_x c' = Cell_x this -> Cell_y c' = Cell_y this ->
  Cell_entities c' = Cell_entities this ->
  index_inv w -> index_inv (with_heap (<[l := c']> (heap w)) w).
Proof.
  intros Hl Hx Hy He Hinv e.
  destruct (ents w !! e) as [E|] eqn:HE; [|by apply index_inv_at_absent].
  eapply (index_inv_at_evolves {[e]}); [by apply (evolves_caches _ w l this)| |by eexists|done].
  by apply elem_of_singleton.
Qed.

Lemma run_op_index fuel op u w w' :
  world_ok rt w -> index_inv w -> index_call w op = true ->
  run_op rt fuel op w = Some (u, w') -> index_inv w'.
Proof.
  intros Hok Hinv Hcall Hrun. destruct op; cbn [run_op index_call] in Hrun, Hcall;
    try discriminate.
  - (* getCell *)
    apply bind_Some in Hrun as (l & w1 & Hg & Hrun).
    apply ret_Some in Hrun as [_ <-].
    destruct (Grid_getCell_spec rt fuel _ _ _ _ _ Hok Hg) as (Hs & _).
    by eapply index_inv_step.
  - (* getCellAtWorldPos *)
    apply bind_Some in Hrun as (l & w1 & Hg & Hrun).
    apply ret_Some in Hrun as [_ <-].
    destruct (Grid_getCellAtWorldPos_with_spec rt _ (Grid_getCell_spec rt fuel)
                _ _ _ _ _ Hok Hg) as (Hs & _).
    by eapply index_inv_step.
  - (* new Entity *)
    apply bind_Some in Hrun as (e & w1 & Hc & Hrun).
    apply ret_Some in Hrun as [_ <-].
    destruct (Entity_constructor_spec rt _ (Grid_getCell_spec rt fuel)
                _ _ _ _ _ Hok Hc) as (Hs & _).
    by eapply index_inv_step.
  - (* addEntity, for an entity that is not tracked *)
    apply bind_Some in Hrun as (u1 & w1 & Hp & Hrun).
    apply Entity_setPosition_Some in Hp as [[E HE] ->].
    rewrite HE in Hcall. apply bool_decide_eq_true in Hcall.
    set (w1 := with_ents (alter (Entity_with_position (x, y)) entity (ents w)) w) in *.
    assert (Hok1 : world_ok rt w1) by by apply world_ok_ents_alter.
    assert (HE1 : ents w1 !! entity = Some (Entity_with_position (x, y) E)).
    { unfold w1. cbn [ents with_ents]. by rewrite lookup_alter_eq, HE. }
    assert (Hm1 : forall e', membership_ok w1 e').
    { intros e'. apply membership_ok_setPosition. apply Hinv. }
    assert (Hnone : forall l c, heap w1 !! l = Some c -> entity ∉ Cell_entities c).
    { intros l c Hl. specialize (Hm1 entity _ HE1). cbn in Hm1. rewrite Hcall in Hm1.
      by apply (Hm1 l c). }
    destruct (Grid_addEntity_with_spec rt _ (Grid_getCell_spec rt fuel)
                entity _ w1 u w' Hok1 HE1 Hcall Hnone Hrun) as (_ & Hev & Hf & He).
    intros e'. destruct (decide (e' = entity)) as [->|Hne]; [done|].
    destruct (decide (e' ∈ dom (ents w1))) as [Hin|Hnin].
    + eapply index_inv_at_evolves; [exact Hev|set_solver|by apply elem_of_dom|].
      split; [apply Hm1|]. apply position_ok_setPosition; [done|]. apply Hinv.
    + by apply Hf.
  - (* updateEntity *)
    apply bind_Some in Hrun as (u1 & w1 & Hp & Hrun).
    apply Entity_setPosition_Some in Hp as [[E HE] ->].
    set (w1 := with_ents (alter (Entity_with_position (x, y)) entity (ents w)) w) in *.
    assert (Hok1 : world_ok rt w1) by by apply world_ok_ents_alter.
    assert (HE1 : ents w1 !! entity = Some (Entity_with_position (x, y) E)).
    { unfold w1. cbn [ents with_ents]. by rewrite lookup_alter_eq, HE. }
    assert (Hm1 : forall e', membership_ok w1 e').
    { intros e'. apply membership_ok_setPosition. apply Hinv. }
    destruct (Grid_updateEntity_spec rt fuel entity _ u w1 w' Hok1 HE1 (Hm1 entity) Hrun)
      as (_ & Hev & Hf & He).
    intros e'. destruct (decide (e' = entity)) as [->|Hne]; [done|].
    destruct (decide (e' ∈ dom (ents w1))) as [Hin|Hnin].
    + eapply index_inv_at_evolves; [exact Hev|set_solver|by apply elem_of_dom|].
      split; [apply Hm1|]. apply position_ok_setPosition; [done|]. apply Hinv.
    + by apply Hf.
  - (* removeEntity *)
    destruct (Grid_removeEntity_spec rt _ _ _ _ Hok Hrun) as (_ & Hev & Hdom & He).
    intros e'. destruct (decide (e' = entity)) as [->|Hne].
    + apply He. apply Hinv.
    + destruct (ents w !! e') as [E'|] eqn:HE'.
      * eapply index_inv_at_evolves; [exact Hev| |by eexists|apply Hinv].
        apply elem_of_difference. split; [|set_solver].
        apply elem_of_dom. by eexists.
      * apply index_inv_at_absent. apply not_elem_of_dom. rewrite Hdom.
        by apply not_elem_of_dom.
  - (* getEntitiesInRadius *)
    apply bind_Some in Hrun as (res & w1 & Hq & Hrun).
    apply ret_Some in Hrun as [_ <-].
    rewrite Grid_getEntitiesInRadius_sweep in Hq. by apply sweep_frame in Hq as ->.
  - (* getEntitiesInArea *)
    apply bind_Some in Hrun as (res & w1 & Hq & Hrun).
    apply ret_Some in Hrun as [_ <-].
    rewrite Grid_getEntitiesInArea_sweep in Hq. by apply sweep_frame in Hq as ->.
  - (* getNeighborsInRadius *)
    apply bind_Some in Hrun as (ns & w1 & Hn & Hrun).
    apply ret_Some in Hrun as [_ <-].
    destruct (heap w !! cell) as [this|] eqn:Hl.
    + rewrite (Cell_getNeighborsInRadius_Some _ _ _ _ Hl) in Hn.
      apply (inj Some) in Hn. apply (f_equal snd) in Hn. cbn [snd] in Hn. subst w1.
      by apply (index_inv_caches w cell this).
    + by rewrite (Cell_getNeighborsInRadius_None _ _ _ Hl) in Hn.
  - (* getFlowDirection *)
    apply bind_Some in Hrun as (v & w1 & Hf & Hrun).
    apply ret_Some in Hrun as [_ <-].
    destruct (heap w !! cell) as [this|] eqn:Hl.
    + destruct (Cell_flowDirectionCalculated this) eqn:Hc.
      * rewrite (Cell_getFlowDirection_cached rt _ _ _ Hl Hc) in Hf.
        apply (inj Some) in Hf. apply (f_equal snd) in Hf. cbn [snd] in Hf.
        by subst w1.
      * rewrite (Cell_getFlowDirection_first rt _ _ _ Hl Hc) in Hf.
        2:{ intros l'. by apply (neighbors_result_in_heap rt w cell this 3). }
        apply (inj Some) in Hf. apply (f_equal snd) in Hf. cbn [snd] in Hf. subst w1.
        by apply (index_inv_caches w cell this).
    + by rewrite (Cell_getFlowDirection_None rt _ _ Hl) in Hf.
  - (* recalculateFlowDirection *)
    destruct (heap w !! cell) as [this|] eqn:Hl.
    + rewrite (Cell_recalculateFlowDirection_Some rt _ _ _ Hl) in Hrun.
      2:{ intros l'. by apply (neighbors_result_in_heap rt w cell this 3). }
      apply (inj Some) in Hrun. apply (f_equal snd) in Hrun. cbn [snd] in Hrun.
      subst w'. by apply (index_inv_caches w cell this).
    + unfold Cell_recalculateFlowDirection, bind in Hrun.
      by rewrite (Cell_calculateFlowDirection_None rt _ _ Hl) in Hrun.
Qed.

Lemma run_ops_index fuel ops u w w' :
  world_ok rt w -> index_inv w -> index_calls rt fuel ops w = true ->
  run_ops rt fuel ops w = Some (u, w') -> index_inv w'.
Proof.
  revert w. induction ops as [|op ops IH]; intros w Hok Hinv Hcalls Hrun;
    cbn [run_ops index_calls] in Hrun, Hcalls.
  - by apply ret_Some in Hrun as [_ <-].
  - apply bind_Some in Hrun as (u1 & w1 & Hop & Hrun).
    apply andb_true_iff in Hcalls as [Hcall Hcalls]. rewrite Hop in Hcalls.
    apply (IH w1); [|by eapply run_op_index|done|done].
    by destruct (run_op_ok rt _ _ _ _ _ Hok Hop).
Qed.

(** The cell of the coordinates of a position contains the position. *)
Lemma in_cell_range_worldToCell w c px py :
  world_ok rt w -> 0 < Grid_cellSize (grid w) ->
  (exists l, heap w !! l = Some c) ->
  (Cell_x c, Cell_y c) = Grid_worldToCell (grid w) px py ->
  in_cell_range c px py.
Proof.
  intros Hok Hcs [l Hl] Hxy.
  destruct (Cell_terrain_init _ _ _ _ _ _ _ (ok_terrain _ _ Hok l c Hl))
    as (Hsize & HwX & HwY & _).
  unfold Grid_worldToCell in Hxy.
  apply (f_equal fst) in Hxy as Hx. apply (f_equal snd) in Hxy as Hy.
  cbn [fst snd] in Hx, Hy.
  unfold in_cell_range. rewrite Hsize, HwX, HwY, Hx, Hy.
  destruct (floor_div_range px _ Hcs) as [? ?].
  destruct (floor_div_range py _ Hcs) as [? ?]. done.
Qed.

End IndexRuns.

(** ** Runs from a new game *)

Lemma cells_holding_spec w e l :
  l ∈ cells_holding w e <-> exists c, heap w !! l = Some c /\ e ∈ Cell_entities c.
Proof.
  unfold cells_holding. rewrite list_elem_of_fmap. split.
  - intros ([l' c] & -> & Hin). apply list_elem_of_filter in Hin as [He Hin].
    apply elem_of_map_to_list in Hin. by exists c.
  - intros (c & Hl & He). exists (l, c). split; [done|].
    apply list_elem_of_filter. split; [done|]. by apply elem_of_map_to_list.
Qed.

Lemma world_after_Some rt fuel ops cellSize f w :
  world_after rt fuel ops cellSize f = Some w ->
  run_ops rt fuel ops (Game_new cellSize f) = Some (tt, w).
Proof.
  unfold world_after. destruct (run_ops _ _ _ _) as [[[] w']|]; [|done].
  cbn. intros Heq. apply (inj Some) in Heq. by subst.
Qed.

Lemma world_after_reachable rt fuel ops cellSize f w :
  world_after rt fuel ops cellSize f = Some w -> reachable rt cellSize f w.
Proof. intros H. exists fuel, ops. by apply world_after_Some. Qed.

(** The flags of a cell of the heap are the strict thresholds on its own
    height and temperature. *)
Lemma Cell_flags_thresholds rt w l c :
  world_ok rt w -> heap w !! l = Some c ->
  Cell_water c = Qcltb (Cell_height c) (Q2Qc 0.4) /\
  Cell_beach c = Qcltb (Q2Qc 0.4) (Cell_height c) && Qcltb (Cell_height c) (Q2Qc 0.45) /\
  Cell_frozen c = Qcltb (Cell_temperature c) (Q2Qc 0.3) /\
  Cell_desert c = Qcltb (Q2Qc 0.7) (Cell_temperature c).
Proof.
  intros Hok Hl.
  destruct (Cell_terrain_init _ _ _ _ _ _ _ (ok_terrain _ _ Hok l c Hl))
    as (_ & _ & _ & _ & Hh & Ht & Hw & Hb & Hf & Hd).
  rewrite Hw, Hb, Hf, Hd, Hh, Ht. done.
Qed.

(** ** The scan of neighbours and flat neighbourhoods *)

(** In a well-formed world the scan meets every cell once. *)
Lemma cell_of_key rt w x y l :
  world_ok rt w -> Grid_cells (grid w) !! Grid_getCellKey x y = Some l ->
  exists c, heap w !! l = Some c /\ Cell_x c = x /\ Cell_y c = y.
Proof.
  intros Hok Hk. destruct (ok_cells _ _ Hok _ _ Hk) as (c & Hc & Hkey).
  apply Grid_getCellKey_inj in Hkey as [-> ->]. by exists c.
Qed.

Lemma neighbors_scan_NoDup rt w x y r :
  world_ok rt w -> NoDup (neighbors_scan (Grid_cells (grid w)) x y r).
Proof.
  intros Hok. unfold neighbors_scan.
  assert (Hcell : forall dx dy l,
    l ∈ (if bool_decide (dx = 0%Z) && bool_decide (dy = 0%Z) then []
         else match Grid_cells (grid w) !! Grid_getCellKey (x + dx) (y + dy) with
              | Some neighbor => [neighbor]
              | None => []
              end) ->
    exists c, heap w !! l = Some c /\ Cell_x c = (x + dx)%Z /\ Cell_y c = (y + dy)%Z).
  { intros dx dy l. destruct (_ && _); [by intros ?%elem_of_nil|].
    destruct (Grid_cells (grid w) !! _) as [l'|] eqn:Hk; [|by intros ?%elem_of_nil].
    intros ->%list_elem_of_singleton. by apply (cell_of_key rt). }
  apply NoDup_bind; [| |apply NoDup_seqZ].
  - intros dx1 dx2 l _ _ H1 H2.
    apply list_elem_of_bind in H1 as (dy1 & H1 & _).
    apply list_elem_of_bind in H2 as (dy2 & H2 & _).
    apply Hcell in H1 as (c1 & Hc1 & Hx1 & _).
    apply Hcell in H2 as (c2 & Hc2 & Hx2 & _).
    rewrite Hc1 in Hc2. apply (inj Some) in Hc2. subst c2. lia.
  - intros dx _. apply NoDup_bind; [| |apply NoDup_seqZ].
    + intros dy1 dy2 l _ _ H1 H2.
      apply Hcell in H1 as (c1 & Hc1 & _ & Hy1).
      apply Hcell in H2 as (c2 & Hc2 & _ & Hy2).
      rewrite Hc1 in Hc2. apply (inj Some) in Hc2. subst c2. lia.
    + intros dy _. destruct (_ && _); [apply NoDup_nil_2|].
      destruct (Grid_cells (grid w) !! _); [apply NoDup_singleton|apply NoDup_nil_2].
Qed.

Lemma flow_contribution_flat rt this n :
  Cell_height n = Cell_height this -> flow_contribution rt this n = (0, 0).
Proof.
  intros Hh. unfold flow_contribution, Victor_multiplyScalar. rewrite Hh.
  f_equal; ring.
Qed.

Lemma flow_sum_flat rt this ns :
  (forall n, n ∈ ns -> Cell_height n = Cell_height this) ->
  flow_sum rt this ns = (0, 0).
Proof.
  unfold flow_sum. induction ns as [|n ns IH]; intros Hflat; [done|].
  cbn [foldl]. rewrite (flow_contribution_flat rt this n) by (apply Hflat; by left).
  assert (Hadd : Victor_add (0, 0) (0, 0) = (0, 0)).
  { unfold Victor_add. cbn [fst snd]. f_equal; ring. }
  rewrite Hadd. apply IH. intros n' Hn'. apply Hflat. by right.
Qed.

Lemma flow_of_flat rt this ns :
  (forall n, n ∈ ns -> Cell_height n = Cell_height this) ->
  flow_of rt this ns = (0, 0).
Proof.
  intros Hflat. unfold flow_of. rewrite (flow_sum_flat rt this ns Hflat).
  assert (Hmag : Victor_magnitude_gt0 (0, 0) = false) by by vm_compute.
  by rewrite Hmag.
Qed.

(** ** The radius query *)

(** The circle lies in the square that the query enumerates. *)
Lemma circle_in_square dx dy r :
  0 <= r -> dx * dx + dy * dy <= r * r -> - r <= dx /\ dx <= r.
Proof.
  intros Hr Hle. apply Qcle_Rle in Hr, Hle.
  rewrite Q2R_this_0 in Hr.
  rewrite Q2R_this_plus, !Q2R_this_mult in Hle.
  rewrite !Qcle_Rle.
  assert (Hopp : Q2R (- r)%Qc = (- Q2R r)%R).
  { rewrite <- Q2R_opp. apply Qeq_eqR. apply this_opp. }
  rewrite Hopp. split; nra.
Qed.

Lemma squares_nonneg dx dy : 0 <= dx * dx + dy * dy.
Proof.
  apply Qcle_Rle. rewrite Q2R_this_0, Q2R_this_plus, !Q2R_this_mult. nra.
Qed.

Lemma radius_test_spec cx cy r E :
  radius_test cx cy r E = true <->
  within_distance cx cy r (Entity_position E).1 (Entity_position E).2.
Proof.
  unfold radius_test, within_distance.
  rewrite sqrt_leb_spec by apply squares_nonneg.
  by rewrite Q2R_this_plus, !Q2R_this_mult, !Q2R_this_minus.
Qed.

Lemma cell_in_sweep c cx r p :
  0 < c -> 0 <= r -> - r <= p - cx -> p - cx <= r ->
  Math_floor (p / c) ∈ range (Math_floor ((cx - r) / c)) (Math_floor ((cx + r) / c)).
Proof.
  intros Hc Hr Hlo Hhi. apply elem_of_range. split.
  - apply floor_mono, div_le_mono; [done|]. to_Q. lra.
  - apply floor_mono, div_le_mono; [done|]. to_Q. lra.
Qed.

Lemma index_consistentb_sound w : index_consistentb w = true -> index_consistent w.
Proof.
  unfold index_consistentb. rewrite andb_true_iff, !forallb_forall.
  intros [Hcells Hents]. split.
  - intros key l Hkey.
    specialize (Hcells (key, l)). cbn [snd] in Hcells.
    destruct (heap w !! l); [done|].
    discriminate Hcells. apply list_elem_of_In. by apply elem_of_map_to_list.
  - intros key l c e Hkey Hl He.
    specialize (Hcells (key, l)). cbn [snd] in Hcells. rewrite Hl in Hcells.
    rewrite forallb_forall in Hcells.
    assert (Hin : In (key, l) (map_to_list (Grid_cells (grid w)))).
    { apply list_elem_of_In. by apply elem_of_map_to_list. }
    specialize (Hcells Hin e). apply bool_decide_eq_true in Hcells; [done|].
    apply list_elem_of_In. by apply elem_of_elements.
  - intros e E HE Htracked.
    specialize (Hents (e, E)). cbn [fst snd] in Hents.
    assert (Hin : In (e, E) (map_to_list (ents w))).
    { apply list_elem_of_In. by apply elem_of_map_to_list. }
    specialize (Hents Hin).
    destruct (Entity_currentCell E); [|done].
    cbv zeta in Hents.
    destruct (Grid_cells (grid w) !! _) as [l|]; [|done].
    destruct (heap w !! l) as [c|] eqn:Hl; [|done].
    apply bool_decide_eq_true in Hents. by exists l, c.
Qed.

(** ** Terrain as a function of the configuration *)

Lemma noise_pure_same_trigonometry rt1 rt2 seed x y :
  same_trigonometry rt1 rt2 -> noise_pure rt1 seed x y = noise_pure rt2 seed x y.
Proof.
  intros (Hcos & Hsin & Hpi).
  unfold noise_pure, dot_pure, gradient_pure. by rewrite Hcos, Hsin, Hpi.
Qed.

Lemma Cell_at_same_trigonometry rt1 rt2 cellSize f x y :
  same_trigonometry rt1 rt2 -> Cell_at rt1 cellSize f x y = Cell_at rt2 cellSize f x y.
Proof.
  intros Htrig.
  unfold Cell_at, terrain_soilFertility, terrain_height, terrain_temperature.
  by rewrite !(noise_pure_same_trigonometry rt1 rt2 _ _ _ Htrig).
Qed.

(** A cell returned by [getCell(x, y)] has the terrain of [(x, y)]. *)
Lemma Grid_getCell_terrain rt cellSize f w fuel x y l w' :
  reachable rt cellSize f w -> Grid_getCell rt fuel x y w = Some (l, w') ->
  Grid_cells (grid w') !! Grid_getCellKey x y = Some l /\
  exists c, heap w' !! l = Some c /\
            Cell_terrain c = Cell_terrain (Cell_at rt cellSize f x y).
Proof.
  intros Hr Hrun. destruct (reachable_ok rt _ _ _ Hr) as (Hok & Hsize & Hfreq).
  destruct (Grid_getCell_spec rt fuel x y w l w' Hok Hrun)
    as (Hstep & Hkey & c & Hl & Hx & Hy).
  split; [done|]. exists c. split; [done|].
  rewrite (ok_terrain _ _ (step_world _ _ _ Hstep) l c Hl).
  rewrite (ev_cellSize _ _ _ (step_evolves _ _ _ Hstep)).
  rewrite (ev_frequencies _ _ _ (step_evolves _ _ _ Hstep)).
  by rewrite Hsize, Hfreq, Hx, Hy.
Qed.

Lemma Grid_getCell_hit rt fuel x y w l :
  Grid_cells (grid w) !! Grid_getCellKey x y = Some l ->
  Grid_getCell rt fuel x y w = Some (l, w).
Proof. intros Hkey. destruct fuel; cbn [Grid_getCell]; by rewrite Hkey. Qed.

(** ** The flora table *)

Lemma JS_max_Fin a b : JS.max (Fin a) (Fin b) = Fin (Math_max a b).
Proof. unfold JS.max, Math_max. cbn [JS.lt]. by destruct (Qcltb a b). Qed.

Lemma JS_sub_Fin a b : JS.sub (Fin a) (Fin b) = Fin (a - b).
Proof. reflexivity. Qed.

Lemma JS_div_Fin a b : Qceqb b 0 = false -> JS.div (Fin a) (Fin b) = Fin (a / b).
Proof. intros Hb. cbn [JS.div]. by rewrite Hb. Qed.

Lemma Math_max_ge_l a b : a <= Math_max a b.
Proof.
  unfold Math_max. destruct (Qcltb a b) eqn:Hlt.
  - apply Qcltb_true in Hlt. by apply Qclt_le_weak.
  - apply Qcle_refl.
Qed.

Lemma Math_max_ge_r a b : b <= Math_max a b.
Proof.
  unfold Math_max. destruct (Qcltb a b) eqn:Hlt.
  - apply Qcle_refl.
  - by apply Qcltb_false in Hlt.
Qed.

Lemma Math_max_0_nonneg x : 0 <= x -> Math_max 0 x = x.
Proof.
  intros Hx. unfold Math_max. destruct (Qcltb 0 x) eqn:Hlt; [done|].
  apply Qcltb_false in Hlt. by apply Qcle_antisym.
Qed.

Lemma Math_abs_le v lo hi : - lo <= v -> v <= hi -> Math_abs v <= Math_max lo hi.
Proof.
  intros Hlo Hhi. unfold Math_abs. destruct (Qcltb v 0) eqn:Hlt.
  - apply Qcle_trans with lo; [|apply Math_max_ge_l]. to_Q. lra.
  - apply Qcle_trans with hi; [done|apply Math_max_ge_r].
Qed.

Lemma distance_ratio_le_1 d m : 0 < m -> d <= m -> 0 <= 1 - d / m.
Proof.
  intros Hm Hd. pose proof (div_le_mono d m m Hm Hd) as Hle.
  assert (Hone : m / m = 1).
  { unfold Qcdiv. apply Qcmult_inv_r. by apply Qc_pos_neq0. }
  rewrite Hone in Hle. to_Q. change (this 1) with 1%Q in Hle. lra.
Qed.

Lemma proper_range_spec min max optimal :
  proper_range min max optimal = true ->
  min <= optimal /\ optimal <= max /\ 0 < Math_max (optimal - min) (max - optimal).
Proof.
  unfold proper_range. rewrite !andb_true_iff, !Qcleb_true, Qcltb_true.
  intros [[Hlo Hhi] Hlt]. split; [done|]. split; [done|].
  pose proof (Math_max_ge_l (optimal - min) (max - optimal)) as H1.
  pose proof (Math_max_ge_r (optimal - min) (max - optimal)) as H2.
  set (m := Math_max (optimal - min) (max - optimal)) in *.
  to_Q. change (this 0) with 0%Q. lra.
Qed.

Lemma Cell_calculatePropertyFitness_formula value min max optimal :
  proper_range min max optimal = true ->
  Cell_calculatePropertyFitness (Fin value) (Fin min) (Fin max) (Fin optimal) =
  Fin (fitness_formula value min max optimal).
Proof.
  intros Hp. apply proper_range_spec in Hp as (Hlo & Hhi & Hm).
  assert (Hd : Qceqb (Math_max (optimal - min) (max - optimal)) 0 = false).
  { unfold Qceqb. apply bool_decide_eq_false. by apply Qc_pos_neq0. }
  unfold Cell_calculatePropertyFitness, fitness_formula.
  cbn [JS.lt JS.gt].
  destruct (Qcltb value min) eqn:H1; [done|].
  destruct (Qcltb max value) eqn:H2; [done|].
  cbn [orb]. apply Qcltb_false in H1, H2.
  rewrite !JS_sub_Fin, JS_max_Fin. cbn [JS.abs].
  rewrite (JS_div_Fin _ _ Hd), JS_sub_Fin, JS_max_Fin. f_equal.
  apply Math_max_0_nonneg. apply distance_ratio_le_1; [done|].
  apply Math_abs_le; to_Q; lra.
Qed.

Lemma Cell_calculatePropertyFitness_NaN value :
  Cell_calculatePropertyFitness value NaN NaN NaN = NaN.
Proof. by destruct value. Qed.

Lemma treePreferences_proper treeType p :
  assoc treeType treePreferences = Some p -> proper_ranges p = true.
Proof.
  unfold treePreferences. cbn [assoc]. intros H.
  repeat (destruct (String.eqb treeType _);
          [apply (inj Some) in H; subst p; vm_compute; reflexivity|]).
  discriminate H.
Qed.

Lemma treePreferences_get_inherited treeType :
  treeType ∈ Object_prototype_keys -> treePreferences_get treeType = Inherited.
Proof.
  intros Hin. unfold treePreferences_get.
  assert (Hnone : assoc treeType treePreferences = None).
  { unfold Object_prototype_keys in Hin.
    repeat (apply elem_of_cons in Hin as [->|Hin]; [reflexivity|]).
    by apply elem_of_nil in Hin. }
  rewrite Hnone. by rewrite bool_decide_eq_true_2.
Qed.

Lemma Cell_calculateTreeSpawnChance_known height soilFertility temperature treeType p :
  assoc treeType treePreferences = Some p ->
  Cell_calculateTreeSpawnChance (Fin height) (Fin soilFertility) (Fin temperature)
    treeType
  = (Fin (chance_formula p height soilFertility temperature), None).
Proof.
  intros Hp. apply treePreferences_proper in Hp as Hproper.
  unfold proper_ranges in Hproper.
  apply andb_true_iff in Hproper as [Hproper Ht].
  apply andb_true_iff in Hproper as [Hh Hs].
  unfold Cell_calculateTreeSpawnChance, treePreferences_get. rewrite Hp.
  cbn [prefs_field].
  rewrite !Cell_calculatePropertyFitness_formula by done.
  reflexivity.
Qed.

(** ** Construction without trees *)

Lemma Math_abs_nonneg v : 0 <= Math_abs v.
Proof.
  unfold Math_abs. destruct (Qcltb v 0) eqn:Hlt.
  - apply Qcltb_true in Hlt. to_Q. change (this 0) with 0%Q in *. lra.
  - by apply Qcltb_false in Hlt.
Qed.

Lemma fitness_formula_range value min max optimal :
  proper_range min max optimal = true ->
  0 <= fitness_formula value min max optimal /\
  fitness_formula value min max optimal <= 1.
Proof.
  intros Hp. apply proper_range_spec in Hp as (Hlo & Hhi & Hm).
  unfold fitness_formula.
  destruct (Qcltb value min) eqn:H1; [by split|].
  destruct (Qcltb max value) eqn:H2; [by split|].
  cbn [orb]. apply Qcltb_false in H1, H2. split.
  - apply distance_ratio_le_1; [done|]. apply Math_abs_le; to_Q; lra.
  - pose proof (div_le_mono 0 (Math_abs (value - optimal)) _ Hm
                  (Math_abs_nonneg _)) as Hle.
    assert (Hz : 0 / Math_max (optimal - min) (max - optimal) = 0).
    { unfold Qcdiv. apply Qcmult_0_l. }
    rewrite Hz in Hle. to_Q. change (this 0) with 0%Q in *.
    change (this 1) with 1%Q in *. lra.
Qed.

Lemma chance_formula_bound p height soilFertility temperature :
  proper_ranges p = true ->
  chance_formula p height soilFertility temperature <= Q2Qc 0.3.
Proof.
  unfold proper_ranges. rewrite !andb_true_iff. intros [[Hh Hs] Ht].
  unfold chance_formula.
  destruct (fitness_formula_range height _ _ _ Hh) as [Hh0 Hh1].
  destruct (fitness_formula_range soilFertility _ _ _ Hs) as [Hs0 Hs1].
  destruct (fitness_formula_range temperature _ _ _ Ht) as [Ht0 Ht1].
  set (a := fitness_formula height _ _ _) in *.
  set (b := fitness_formula soilFertility _ _ _) in *.
  set (c := fitness_formula temperature _ _ _) in *.
  to_Q. change (this 0) with 0%Q in *. change (this 1) with 1%Q in *.
  assert (Hab : (0 <= this a * this b <= 1)%Q) by nra.
  nra.
Qed.

Lemma treeChances_of_known height soilFertility temperature treeTypes :
  Forall (fun treeType => is_Some (assoc treeType treePreferences)) treeTypes ->
  Forall (chance_at_most (Q2Qc 0.3))
         (treeChances_of height soilFertility temperature treeTypes).1 /\
  (treeChances_of height soilFertility temperature treeTypes).2 = [].
Proof.
  induction 1 as [|treeType rest [p Hp] _ [IH1 IH2]]; [by split|].
  cbn [treeChances_of].
  rewrite (Cell_calculateTreeSpawnChance_known _ _ _ _ _ Hp).
  destruct (treeChances_of height soilFertility temperature rest)
    as [chances warnings].
  cbn [fst snd] in *. split; [|done].
  destruct (JS.gt _ _); [|done].
  apply Forall_cons. split; [|done].
  eexists. split; [reflexivity|].
  apply chance_formula_bound. by apply (treePreferences_proper treeType).
Qed.

Lemma Tree_types_known :
  Forall (fun treeType => is_Some (assoc treeType treePreferences)) Tree_types.
Proof. unfold Tree_types. repeat (apply Forall_cons; split; [by eexists|]). done. Qed.

Lemma insert_by_chance_Forall (P : string * JSNumber -> Prop) a l :
  P a -> Forall P l -> Forall P (insert_by_chance a l).
Proof.
  intros Ha. induction 1 as [|b l Hb Hl IH]; cbn [insert_by_chance].
  - by apply Forall_cons.
  - destruct (JS.lt a.2 b.2).
    + by apply Forall_cons.
    + apply Forall_cons. split; [done|]. by apply Forall_cons.
Qed.

Lemma sort_by_chance_Forall (P : string * JSNumber -> Prop) l :
  Forall P l -> Forall P (sort_by_chance l).
Proof.
  unfold sort_by_chance. induction 1 as [|a l Ha Hl IH]; cbn [foldr]; [done|].
  by apply insert_by_chance_Forall.
Qed.

Section NoTrees.
Variable rt : Runtime.
Hypothesis no_roll : rolls_fail rt.

Lemma roll_fails treeData w :
  chance_at_most (Q2Qc 0.3) treeData ->
  JS.lt (Fin (Math_random rt (random_calls w))) (JS.mul treeData.2 (Fin 1)) = false.
Proof.
  intros (c & -> & Hc). cbn [JS.mul JS.lt]. apply Qcltb_false.
  rewrite Qcmult_1_r. apply Qcle_trans with (Q2Qc 0.3); [done|apply no_roll].
Qed.

Lemma spawn_loop_without_trees createTree this treeChances treesSpawned w :
  Forall (chance_at_most (Q2Qc 0.3)) treeChances ->
  exists w', spawn_loop rt createTree this treeChances treesSpawned w = Some (tt, w').
Proof.
  intros Hall. revert treesSpawned w.
  induction Hall as [|treeData rest Hd _ IH]; intros treesSpawned w.
  - by exists w.
  - cbn [spawn_loop]. destruct (2 <=? treesSpawned)%nat; [by exists w|].
    destruct (IH treesSpawned (with_random_calls (S (random_calls w)) w))
      as (w' & Hrun).
    exists w'. apply bind_Some. eexists _, _. split; [reflexivity|].
    by rewrite (roll_fails treeData w Hd).
Qed.

Lemma Cell_spawnTreesHere_without_trees createTree l this w :
  heap w !! l = Some this ->
  exists w', Cell_spawnTreesHere rt createTree l w = Some (tt, w').
Proof.
  intros Hl. unfold Cell_spawnTreesHere.
  destruct (Cell_water this) eqn:Hwater.
  - exists w. apply bind_Some. exists this, w.
    split; [by apply read_cell_Some|]. by rewrite Hwater.
  - destruct (treeChances_of_known (Cell_height this) (Cell_soilFertility this)
                (Cell_temperature this) Tree_types Tree_types_known)
      as [Hall Hwarn].
    destruct (treeChances_of (Cell_height this) (Cell_soilFertility this)
                (Cell_temperature this) Tree_types) as [treeChances warnings] eqn:Hc.
    cbn [fst snd] in Hall, Hwarn.
    destruct (spawn_loop_without_trees createTree this (sort_by_chance treeChances) 0
                (with_console (console w ++ warnings) w)
                (sort_by_chance_Forall _ _ Hall)) as (w' & Hrun).
    exists (match treeChances with
            | [] => with_console (console w ++ warnings) w
            | _ => w'
            end).
    apply bind_Some. exists this, w. split; [by apply read_cell_Some|].
    rewrite Hwater, Hc. apply bind_Some. eexists tt, _. split; [reflexivity|].
    by destruct treeChances.
Qed.

Lemma Cell_constructor_without_trees createTree x y cellSize w :
  exists l w', Cell_constructor rt createTree x y cellSize w = Some (l, w').
Proof.
  unfold Cell_constructor.
  set (f := Grid_noiseFrequencies (grid w)).
  destruct (noise rt (Grid_soilNoiseGenerator (grid w))
              (Z2Qc x * freq_soilFertility f) (Z2Qc y * freq_soilFertility f))
    as [soil sg] eqn:Hs.
  destruct (noise rt (Grid_heightNoiseGenerator (grid w))
              (Z2Qc x * freq_height f) (Z2Qc y * freq_height f))
    as [height hg] eqn:Hh.
  destruct (noise rt (Grid_temperatureNoiseGenerator (grid w))
              (Z2Qc x * freq_temperature f) (Z2Qc y * freq_temperature f))
    as [temperature tg] eqn:Ht.
  set (w1 := with_grid (Grid_with_generators sg hg tg (grid w)) w).
  set (l := fresh (dom (heap w1))).
  set (c := Cell_init x y cellSize soil height temperature).
  set (w2 := with_heap (<[l := c]> (heap w1)) w1).
  destruct (Cell_spawnTreesHere_without_trees createTree l c w2) as (w' & Hrun).
  { apply lookup_insert_eq. }
  exists l, w'. apply bind_Some. exists (grid w), w. split; [done|].
  cbv zeta. fold f. rewrite Hs, Hh, Ht.
  apply bind_Some. exists tt, w1. split; [done|].
  apply bind_Some. exists l, w2. split; [done|].
  apply bind_Some. exists tt, w'. split; [done|]. done.
Qed.

(** With a stream on which no roll succeeds, [getCell] returns without a
    nested construction. *)
Lemma Grid_getCell_without_trees x y w :
  exists l w', Grid_getCell rt 1 x y w = Some (l, w').
Proof.
  cbn [Grid_getCell].
  destruct (Grid_cells (grid w) !! Grid_getCellKey x y) as [cell|]; [by eexists _, _|].
  destruct (Cell_constructor_without_trees
              (Game_createTree_with (Grid_getCell rt 0)) x y
              (Grid_cellSize (grid w)) w) as (l & w' & Hrun).
  eexists l, _. apply bind_Some. exists l, w'. split; [done|].
  apply bind_Some. eexists tt, _. split; [reflexivity|]. reflexivity.
Qed.
End NoTrees.

(** ** The noise generator in use *)

Lemma Math_min_le_l a b : Math_min a b <= a.
Proof.
  unfold Math_min. destruct (Qcltb b a) eqn:Hlt.
  - apply Qcltb_true in Hlt. by apply Qclt_le_weak.
  - apply Qcle_refl.
Qed.

Lemma Math_max_lub a b c : a <= c -> b <= c -> Math_max a b <= c.
Proof. intros Ha Hb. unfold Math_max. by destruct (Qcltb a b). Qed.

Lemma noise_pure_range rt seed x y :
  0 <= noise_pure rt seed x y /\ noise_pure rt seed x y <= 1.
Proof.
  unfold noise_pure. cbv zeta. split.
  - apply Math_max_ge_l.
  - apply Math_max_lub; [done|apply Math_min_le_l].
Qed.

Lemma memo_ok_new rt seed : memo_ok rt (PerlinNoise_new seed).
Proof. split; intros *; cbn; by rewrite lookup_empty. Qed.

Lemma noise_history_ok rt pn qs :
  memo_ok rt pn ->
  memo_ok rt (noise_history rt pn qs) /\ seed (noise_history rt pn qs) = seed pn.
Proof.
  revert pn. induction qs as [|q qs IH]; intros pn Hok; [done|].
  cbn [noise_history].
  destruct (noise_ok rt pn q.1 q.2 Hok) as (_ & Hok' & Hseed).
  destruct (IH _ Hok') as [H1 H2]. split; [done|]. by rewrite H2.
Qed.

Lemma Math_floor_Z2Qc i : Math_floor (Z2Qc i) = i.
Proof.
  unfold Math_floor. rewrite (Qfloor_comp _ (inject_Z i)) by apply this_Z2Qc.
  apply Qfloor_Z.
Qed.

Lemma interpolate_0 a0 a1 : interpolate a0 a1 0 = a0.
Proof. unfold interpolate. ring. Qed.

Lemma interpolate_1 a0 a1 : interpolate a0 a1 1 = a1.
Proof.
  unfold interpolate.
  assert (H3 : Q2Qc 3 = 1 + 1 + 1) by (apply Qc_is_canon; reflexivity).
  assert (H2 : Q2Qc 2 = 1 + 1) by (apply Qc_is_canon; reflexivity).
  rewrite H3, H2. ring.
Qed.

Lemma noise_pure_lattice rt seed i j :
  noise_pure rt seed (Z2Qc i) (Z2Qc j) = Q2Qc (1 # 2).
Proof.
  unfold noise_pure. cbv zeta. rewrite !Math_floor_Z2Qc.
  assert (Hz : forall q : Qc, q - q = 0) by (intros; ring).
  rewrite !Hz, !interpolate_0. unfold dot_pure. cbv zeta. rewrite !Hz.
  assert (Hv : forall a b : Qc, 0 * a + 0 * b = 0) by (intros; ring).
  rewrite Hv. by vm_compute.
Qed.

Lemma noise_stored rt pn x y :
  memory (noise rt pn x y).2 !! (x, y) = Some (noise rt pn x y).1.
Proof.
  unfold noise. destruct (memory pn !! (x, y)) as [v|] eqn:E; [done|].
  destruct (dotGridGradient rt pn (Math_floor x) (Math_floor y) x y) as [n0 pn0].
  destruct (dotGridGradient rt pn0 (Math_floor x + 1) (Math_floor y) x y) as [n1 pn1].
  destruct (dotGridGradient rt pn1 (Math_floor x) (Math_floor y + 1) x y) as [n2 pn2].
  destruct (dotGridGradient rt pn2 (Math_floor x + 1) (Math_floor y + 1) x y)
    as [n3 pn3].
  cbn [fst snd memory]. apply lookup_insert_eq.
Qed.

Lemma noise_hit rt pn x y v :
  memory pn !! (x, y) = Some v -> noise rt pn x y = (v, pn).
Proof. intros H. unfold noise. by rewrite H. Qed.

Lemma noise_history_value rt s qs x y :
  (noise rt (noise_history rt (PerlinNoise_new s) qs) x y).1 = noise_pure rt s x y.
Proof.
  destruct (noise_history_ok rt (PerlinNoise_new s) qs (memo_ok_new rt s)) as [Hok Hs].
  destruct (noise_ok rt _ x y Hok) as (Hv & _ & _). by rewrite Hv, Hs.
Qed.

Lemma smoothstep_range w :
  0 <= w -> w <= 1 ->
  0 <= (Q2Qc 3 - w * Q2Qc 2) * w * w /\ (Q2Qc 3 - w * Q2Qc 2) * w * w <= 1.
Proof.
  intros H0 H1. apply Qcle_Rle in H0, H1. rewrite !Qcle_Rle.
  rewrite !Q2R_this_mult, Q2R_this_minus, Q2R_this_mult.
  rewrite Q2R_this_0 in *.
  assert (E1 : Q2R 1%Qc = 1%R) by (change (Q2R 1%Q = 1%R); unfold Q2R; simpl; lra).
  assert (E2 : Q2R (Q2Qc 2) = 2%R).
  { change (Q2R (this (Q2Qc 2))) with (Q2R (2 # 1)). unfold Q2R. simpl. lra. }
  assert (E3 : Q2R (Q2Qc 3) = 3%R).
  { change (Q2R (this (Q2Qc 3))) with (Q2R (3 # 1)). unfold Q2R. simpl. lra. }
  rewrite E1 in *. rewrite E2, E3.
  set (t := Q2R w) in *. split.
  - assert (0 <= 3 - t * 2)%R by lra. assert (0 <= t * t)%R by nra. nra.
  - assert (0 <= (1 - t) * (1 - t) * (1 + 2 * t))%R.
    { apply Rmult_le_pos; [nra|lra]. }
    nra.
Qed.

(** ** The fitness of a value and the order of the candidates *)

Lemma fitness_formula_one value min max optimal :
  min <= optimal -> optimal <= max -> min < max ->
  (fitness_formula value min max optimal = 1 <-> value = optimal).
Proof.
  intros Hlo Hhi Hlt.
  assert (Hp : proper_range min max optimal = true).
  { unfold proper_range. rewrite !andb_true_iff, !Qcleb_true, Qcltb_true. done. }
  apply proper_range_spec in Hp as (_ & _ & Hm).
  unfold fitness_formula. split.
  - destruct (Qcltb value min || Qcltb max value) eqn:Hout.
    { intros H01. exfalso. apply (f_equal this) in H01. discriminate H01. }
    intros Hone.
    set (d := Math_abs (value - optimal)
              / Math_max (optimal - min) (max - optimal)) in *.
    assert (Hd : d = 0).
    { replace d with (1 - (1 - d)) by ring. rewrite Hone. ring. }
    assert (Habs : Math_abs (value - optimal) = 0).
    { rewrite <- (div_mult_cancel (Math_abs (value - optimal))
                    (Math_max (optimal - min) (max - optimal))) by by apply Qc_pos_neq0.
      fold d. rewrite Hd. ring. }
    unfold Math_abs in Habs. destruct (Qcltb (value - optimal) 0).
    + replace value with (optimal - - (value - optimal)) by ring.
      rewrite Habs. ring.
    + replace value with (optimal + (value - optimal)) by ring.
      rewrite Habs. ring.
  - intros ->.
    assert (H1 : Qcltb optimal min = false) by by apply Qcltb_false.
    assert (H2 : Qcltb max optimal = false) by by apply Qcltb_false.
    rewrite H1, H2. cbn [orb].
    assert (Hz : optimal - optimal = 0) by ring. rewrite Hz.
    assert (Ha : Math_abs 0 = 0) by by vm_compute. rewrite Ha.
    unfold Qcdiv. ring.
Qed.

Lemma fitness_formula_outside value min max optimal :
  value < min \/ max < value -> fitness_formula value min max optimal = 0.
Proof.
  intros H. unfold fitness_formula.
  assert (Hb : Qcltb value min || Qcltb max value = true).
  { apply orb_true_iff. rewrite !Qcltb_true. done. }
  by rewrite Hb.
Qed.

Lemma chance_formula_nonneg p height soilFertility temperature :
  proper_ranges p = true ->
  0 <= chance_formula p height soilFertility temperature.
Proof.
  unfold proper_ranges. rewrite !andb_true_iff. intros [[Hh Hs] Ht].
  unfold chance_formula.
  destruct (fitness_formula_range height _ _ _ Hh) as [Hh0 _].
  destruct (fitness_formula_range soilFertility _ _ _ Hs) as [Hs0 _].
  destruct (fitness_formula_range temperature _ _ _ Ht) as [Ht0 _].
  set (a := fitness_formula height _ _ _) in *.
  set (b := fitness_formula soilFertility _ _ _) in *.
  set (c := fitness_formula temperature _ _ _) in *.
  to_Q. change (this 0) with 0%Q in *.
  assert (Hab : (0 <= this a * this b)%Q) by nra.
  nra.
Qed.

Lemma insert_by_chance_Permutation a l : insert_by_chance a l ≡ₚ a :: l.
Proof.
  induction l as [|b l IH]; cbn [insert_by_chance]; [done|].
  destruct (JS.lt a.2 b.2); [|done].
  rewrite IH. apply perm_swap.
Qed.

Lemma JS_lt_false_trans a b c qa qb qc :
  a = Fin qa -> b = Fin qb -> c = Fin qc ->
  JS.lt a b = false -> JS.lt b c = false -> JS.lt a c = false.
Proof.
  intros -> -> ->. cbn [JS.lt]. rewrite !Qcltb_false. intros H1 H2.
  by apply Qcle_trans with qb.
Qed.

Lemma insert_by_chance_sorted a l :
  (exists c, a.2 = Fin c) -> Forall (fun b => exists c, b.2 = Fin c) l ->
  StronglySorted (fun a b => JS.lt a.2 b.2 = false) l ->
  StronglySorted (fun a b => JS.lt a.2 b.2 = false) (insert_by_chance a l).
Proof.
  intros [qa Ha] Hfin Hs. induction Hs as [|b l Hs IH Hb]; cbn [insert_by_chance].
  - apply SSorted_cons; [apply SSorted_nil|apply Forall_nil_2].
  - apply Forall_cons in Hfin as [[qb Hqb] Hfin].
    destruct (JS.lt a.2 b.2) eqn:Hlt.
    + apply SSorted_cons; [by apply IH|].
      apply insert_by_chance_Forall; [|done].
      rewrite Ha, Hqb in *. cbn [JS.lt] in *. apply Qcltb_true in Hlt.
      apply Qcltb_false. by apply Qclt_le_weak.
    + apply SSorted_cons; [by apply SSorted_cons|].
      apply Forall_cons. split; [done|].
      rewrite Forall_forall in Hb, Hfin. apply Forall_forall. intros x Hx.
      destruct (Hfin x Hx) as [qx Hqx].
      exact (JS_lt_false_trans _ _ _ _ _ _ Ha Hqb Hqx Hlt (Hb x Hx)).
Qed.

(** ** What a construction keeps *)

Lemma same_but_members_refl c : same_but_members c c.
Proof. reflexivity. Qed.

Lemma same_but_members_trans c1 c2 c3 :
  same_but_members c1 c2 -> same_but_members c2 c3 -> same_but_members c1 c3.
Proof. unfold same_but_members. intros H1 H2. by rewrite H2. Qed.

Lemma same_but_members_with_entities c s :
  same_but_members c (Cell_with_entities s c).
Proof. reflexivity. Qed.

Lemma settled_refl w : settled w w.
Proof.
  split; [reflexivity|tauto|]. intros l c Hl. exists c. split; [exact Hl|reflexivity].
Qed.

Lemma settled_trans w1 w2 w3 : settled w1 w2 -> settled w2 w3 -> settled w1 w3.
Proof.
  intros [Hc1 Hm1 Hh1] [Hc2 Hm2 Hh2]. split.
  - by rewrite Hc2.
  - intros key l Hk. by apply Hm2, Hm1.
  - intros l c Hl. destruct (Hh1 l c Hl) as (c' & Hl' & Hs1).
    destruct (Hh2 l c' Hl') as (c'' & Hl'' & Hs2).
    exists c''. split; [exact Hl''|]. by apply same_but_members_trans with c'.
Qed.

Lemma settled_ents w es : settled w (with_ents es w).
Proof.
  split; [reflexivity|tauto|]. intros l c Hl. exists c. split; [exact Hl|reflexivity].
Qed.

Lemma settled_random_calls w n : settled w (with_random_calls n w).
Proof.
  split; [reflexivity|tauto|]. intros l c Hl. exists c. split; [exact Hl|reflexivity].
Qed.

Lemma settled_generators w s h t :
  settled w (with_grid (Grid_with_generators s h t (grid w)) w).
Proof.
  split; [reflexivity|tauto|]. intros l c Hl. exists c. split; [exact Hl|reflexivity].
Qed.

Lemma settled_map_insert w key l :
  Grid_cells (grid w) !! key = None ->
  settled w (with_grid (Grid_with_cells (<[key := l]> (Grid_cells (grid w))) (grid w)) w).
Proof.
  intros Hnone. split; [reflexivity| |].
  - intros key' l' Hk. cbn [grid with_grid Grid_cells Grid_with_cells].
    rewrite lookup_insert_ne; [exact Hk|]. intros ->. by rewrite Hnone in Hk.
  - intros l' c Hl. exists c. split; [exact Hl|reflexivity].
Qed.

Lemma settled_heap_insert w l c :
  heap w !! l = None -> settled w (with_heap (<[l := c]> (heap w)) w).
Proof.
  intros Hnone. split; [reflexivity|tauto|].
  intros l' c' Hl'. exists c'. split; [|reflexivity].
  cbn [heap with_heap]. rewrite lookup_insert_ne; [exact Hl'|].
  intros ->. by rewrite Hnone in Hl'.
Qed.

Lemma settled_members w l f :
  (forall c, same_but_members c (f c)) ->
  settled w (with_heap (alter f l (heap w)) w).
Proof.
  intros Hf. split; [reflexivity|tauto|].
  intros l' c Hl'. cbn [heap with_heap].
  destruct (decide (l = l')) as [->|Hne].
  - exists (f c). rewrite lookup_alter_eq, Hl'. split; [reflexivity|apply Hf].
  - exists c. rewrite lookup_alter_ne by exact Hne. split; [exact Hl'|reflexivity].
Qed.

Lemma settled_console_nil w : settled w (with_console (console w ++ []) w).
Proof.
  split; [apply app_nil_r|tauto|].
  intros l c Hl. exists c. split; [exact Hl|reflexivity].
Qed.

Lemma Cell_addEntity_settled l e w u w' :
  Cell_addEntity l e w = Some (u, w') -> settled w w'.
Proof.
  unfold Cell_addEntity. intros H. apply update_cell_Some in H. subst w'.
  apply settled_members. intros c. apply same_but_members_with_entities.
Qed.

Lemma Cell_removeEntity_settled l e w u w' :
  Cell_removeEntity l e w = Some (u, w') -> settled w w'.
Proof.
  unfold Cell_removeEntity. intros H. apply update_cell_Some in H. subst w'.
  apply settled_members. intros c. apply same_but_members_with_entities.
Qed.

Lemma update_entity_settled e f w u w' :
  update_entity e f w = Some (u, w') -> settled w w'.
Proof. intros H. apply update_entity_Some in H. subst w'. apply settled_ents. Qed.

Lemma alloc_entity_settled E e w w' :
  alloc_entity E w = Some (e, w') -> settled w w'.
Proof. intros H. apply alloc_entity_Some in H as [_ ->]. apply settled_ents. Qed.

Section Settled.
Variable rt : Runtime.

Section WithGetCell.
Variable getCell : Z -> Z -> M loc.
Hypothesis getCell_settled : settled_spec getCell.

Lemma Grid_getCellAtWorldPos_with_settled x y w l w' :
  Grid_getCellAtWorldPos_with getCell x y w = Some (l, w') -> settled w w'.
Proof.
  unfold Grid_getCellAtWorldPos_with. intros Hrun.
  apply bind_Some in Hrun as (g & w1 & Hg & Hrun).
  apply gets_Some in Hg as [-> ->].
  destruct (Grid_worldToCell (grid w) x y) as [cx cy].
  exact (getCell_settled cx cy w l w' Hrun).
Qed.

Lemma Grid_addEntity_with_settled e w u w' :
  Grid_addEntity_with getCell e w = Some (u, w') -> settled w w'.
Proof.
  unfold Grid_addEntity_with. intros Hrun.
  apply bind_Some in Hrun as (E & w1 & HE & Hrun).
  apply read_entity_Some in HE as [_ ->].
  apply bind_Some in Hrun as (cell & w2 & Hcell & Hrun).
  apply bind_Some in Hrun as (u1 & w3 & Hadd & Hrun).
  apply settled_trans with w2; [by eapply Grid_getCellAtWorldPos_with_settled|].
  apply settled_trans with w3; [by eapply Cell_addEntity_settled|].
  by eapply update_entity_settled.
Qed.

Lemma Entity_constructor_settled x y w e w' :
  Entity_constructor (Grid_addEntity_with getCell) x y w = Some (e, w') ->
  settled w w'.
Proof.
  unfold Entity_constructor. intros Hrun.
  apply bind_Some in Hrun as (this & w1 & Halloc & Hrun).
  apply bind_Some in Hrun as (u & w2 & Hadd & Hrun).
  apply ret_Some in Hrun as [_ <-].
  apply settled_trans with w1; [by eapply alloc_entity_settled|].
  by eapply Grid_addEntity_with_settled.
Qed.

Lemma Game_createTree_with_settled x y type w u w' :
  Game_createTree_with getCell x y type w = Some (u, w') -> settled w w'.
Proof.
  unfold Game_createTree_with, Tree_constructor. intros Hrun.
  apply bind_Some in Hrun as (this & w1 & Htree & Hrun).
  apply ret_Some in Hrun as [_ <-].
  apply bind_Some in Htree as (this' & w2 & Hent & Htree).
  apply bind_Some in Htree as (u1 & w3 & Hupd & Htree).
  apply ret_Some in Htree as [_ <-].
  apply settled_trans with w2; [by eapply Entity_constructor_settled|].
  by eapply update_entity_settled.
Qed.
End WithGetCell.

Section WithCreateTree.
Variable createTree : Qc -> Qc -> string -> M unit.
Hypothesis createTree_settled :
  forall x y type w u w', createTree x y type w = Some (u, w') -> settled w w'.

Lemma spawn_loop_settled this treeChances treesSpawned w u w' :
  spawn_loop rt createTree this treeChances treesSpawned w = Some (u, w') ->
  settled w w'.
Proof.
  revert treesSpawned w.
  induction treeChances as [|treeData rest IH]; intros treesSpawned w Hrun.
  - cbn [spawn_loop] in Hrun. apply ret_Some in Hrun as [_ <-]. apply settled_refl.
  - cbn [spawn_loop] in Hrun. destruct (2 <=? treesSpawned)%nat.
    { apply ret_Some in Hrun as [_ <-]. apply settled_refl. }
    apply bind_Some in Hrun as (r & w1 & Hr & Hrun).
    apply random_Some in Hr as [-> ->].
    apply settled_trans with (with_random_calls (S (random_calls w)) w);
      [apply settled_random_calls|].
    destruct (JS.lt _ _).
    + apply bind_Some in Hrun as (rx & w2 & Hrx & Hrun).
      apply random_Some in Hrx as [-> ->].
      apply bind_Some in Hrun as (ry & w3 & Hry & Hrun).
      apply random_Some in Hry as [-> ->].
      apply bind_Some in Hrun as (u1 & w4 & Hct & Hrun).
      eapply settled_trans; [apply settled_random_calls|].
      eapply settled_trans; [apply settled_random_calls|].
      eapply settled_trans; [by eapply createTree_settled|].
      by eapply IH.
    + by eapply IH.
Qed.

Lemma Cell_spawnTreesHere_settled l w u w' :
  Cell_spawnTreesHere rt createTree l w = Some (u, w') -> settled w w'.
Proof.
  unfold Cell_spawnTreesHere. intros Hrun.
  apply bind_Some in Hrun as (this & w1 & Hthis & Hrun).
  apply read_cell_Some in Hthis as [_ ->].
  destruct (Cell_water this).
  { apply ret_Some in Hrun as [_ <-]. apply settled_refl. }
  destruct (treeChances_of_known (Cell_height this) (Cell_soilFertility this)
              (Cell_temperature this) Tree_types Tree_types_known)
    as [_ Hwarn].
  destruct (treeChances_of (Cell_height this) (Cell_soilFertility this)
              (Cell_temperature this) Tree_types) as [treeChances warnings].
  cbn [snd] in Hwarn. subst warnings.
  apply bind_Some in Hrun as (u1 & w2 & Hmod & Hrun).
  apply modify_Some in Hmod. subst w2.
  apply settled_trans with (with_console (console w ++ []) w);
    [apply settled_console_nil|].
  destruct treeChances as [|treeData rest].
  - apply ret_Some in Hrun as [_ <-]. apply settled_refl.
  - by eapply spawn_loop_settled.
Qed.

Lemma Cell_constructor_settled x y cellSize w l w' :
  Cell_constructor rt createTree x y cellSize w = Some (l, w') -> settled w w'.
Proof.
  unfold Cell_constructor. intros Hrun.
  apply bind_Some in Hrun as (g & w0 & Hg & Hrun).
  apply gets_Some in Hg as [-> ->].
  cbv zeta in Hrun.
  destruct (noise rt (Grid_soilNoiseGenerator (grid w)) _ _) as [soil sg].
  destruct (noise rt (Grid_heightNoiseGenerator (grid w)) _ _) as [height hg].
  destruct (noise rt (Grid_temperatureNoiseGenerator (grid w)) _ _)
    as [temperature tg].
  apply bind_Some in Hrun as (u1 & w1 & Hmod & Hrun).
  apply modify_Some in Hmod. subst w1.
  apply bind_Some in Hrun as (this & w2 & Halloc & Hrun).
  apply alloc_cell_Some in Halloc as [-> ->].
  apply bind_Some in Hrun as (u2 & w3 & Hspawn & Hrun).
  apply ret_Some in Hrun as [_ <-].
  eapply settled_trans; [apply settled_generators|].
  eapply settled_trans; [|by eapply Cell_spawnTreesHere_settled].
  apply settled_heap_insert. apply not_elem_of_dom. apply is_fresh.
Qed.
End WithCreateTree.

Lemma Grid_getCell_settled fuel : settled_spec (Grid_getCell rt fuel).
Proof.
  induction fuel as [|fuel IH]; intros x y w l w' Hrun.
  - cbn [Grid_getCell] in Hrun.
    destruct (Grid_cells (grid w) !! Grid_getCellKey x y) as [cell|]; [|done].
    apply (inj Some) in Hrun. apply (f_equal snd) in Hrun. cbn [snd] in Hrun.
    subst w'. apply settled_refl.
  - cbn [Grid_getCell] in Hrun.
    destruct (Grid_cells (grid w) !! Grid_getCellKey x y) as [cell|] eqn:Hk.
    + apply (inj Some) in Hrun. apply (f_equal snd) in Hrun. cbn [snd] in Hrun.
      subst w'. apply settled_refl.
    + apply bind_Some in Hrun as (cell & w1 & Hc & Hrun).
      apply bind_Some in Hrun as (u & w2 & Hm & Hrun).
      apply modify_Some in Hm. apply ret_Some in Hrun as [_ <-]. subst w2.
      assert (Hs1 : settled w w1).
      { eapply Cell_constructor_settled; [|exact Hc].
        intros x' y' type w0 u0 w0'.
        by apply (Game_createTree_with_settled _ IH). }
      split.
      * exact (settled_console _ _ Hs1).
      * intros key l' Hkey. cbn [grid with_grid Grid_cells Grid_with_cells].
        rewrite lookup_insert_ne; [by apply (settled_map _ _ Hs1)|].
        intros <-. by rewrite Hk in Hkey.
      * exact (settled_cells _ _ Hs1).
Qed.
End Settled.

(** ** What every operation keeps *)

Lemma persists_refl w : persists w w.
Proof.
  split; [reflexivity|]. intros l c Hl. exists c. by repeat split.
Qed.

Lemma persists_trans w1 w2 w3 : persists w1 w2 -> persists w2 w3 -> persists w1 w3.
Proof.
  intros [Hc1 Hh1] [Hc2 Hh2]. split; [by rewrite Hc2|].
  intros l c Hl. destruct (Hh1 l c Hl) as (c' & Hl' & Hx1 & Hy1 & Ht1 & Hn1).
  destruct (Hh2 l c' Hl') as (c'' & Hl'' & Hx2 & Hy2 & Ht2 & Hn2).
  exists c''. split; [exact Hl''|]. split; [by rewrite Hx2|]. split; [by rewrite Hy2|].
  split; [by rewrite Ht2|]. intros r ns Hr. by apply Hn2, Hn1.
Qed.

Lemma same_but_members_fields c c' :
  same_but_members c c' ->
  Cell_x c' = Cell_x c /\ Cell_y c' = Cell_y c /\ Cell_terrain c' = Cell_terrain c /\
  Cell_neighborsInRadius c' = Cell_neighborsInRadius c /\
  Cell_flowDirection c' = Cell_flowDirection c /\
  Cell_flowDirectionCalculated c' = Cell_flowDirectionCalculated c.
Proof.
  unfold same_but_members. intros H.
  split; [exact (f_equal Cell_x H)|]. split; [exact (f_equal Cell_y H)|].
  split; [exact (f_equal Cell_terrain H)|].
  split; [exact (f_equal Cell_neighborsInRadius H)|].
  split; [exact (f_equal Cell_flowDirection H)|].
  exact (f_equal Cell_flowDirectionCalculated H).
Qed.

Lemma settled_persists w w' : settled w w' -> persists w w'.
Proof.
  intros [Hc _ Hh]. split; [exact Hc|].
  intros l c Hl. destruct (Hh l c Hl) as (c' & Hl' & Hs).
  destruct (same_but_members_fields c c' Hs) as (Hx & Hy & Ht & Hn & _).
  exists c'. split; [exact Hl'|]. split; [exact Hx|]. split; [exact Hy|].
  split; [exact Ht|]. intros r ns. by rewrite Hn.
Qed.

Lemma settled_map_grows w w' : settled w w' -> map_grows w w'.
Proof. intros [_ Hm _]. exact Hm. Qed.

Lemma map_grows_refl w : map_grows w w.
Proof. by intros key l. Qed.

Lemma map_grows_trans w1 w2 w3 : map_grows w1 w2 -> map_grows w2 w3 -> map_grows w1 w3.
Proof. intros H1 H2 key l Hk. by apply H2, H1. Qed.

(** An update of one cell that keeps its coordinates, its terrain and the
    lists it has cached. *)
Lemma persists_heap_alter w l f :
  (forall c, heap w !! l = Some c ->
     Cell_x (f c) = Cell_x c /\ Cell_y (f c) = Cell_y c /\
     Cell_terrain (f c) = Cell_terrain c /\
     forall r ns, default ∅ (Cell_neighborsInRadius c) !! r = Some ns ->
                  default ∅ (Cell_neighborsInRadius (f c)) !! r = Some ns) ->
  persists w (with_heap (alter f l (heap w)) w).
Proof.
  intros Hf. split; [reflexivity|]. intros l' c Hl'. cbn [heap with_heap].
  destruct (decide (l = l')) as [->|Hne].
  - exists (f c). rewrite lookup_alter_eq, Hl'. split; [reflexivity|]. by apply Hf.
  - exists c. rewrite lookup_alter_ne by exact Hne. by repeat split.
Qed.

Lemma Cell_getNeighborsInRadius_persists l r w ns w' :
  Cell_getNeighborsInRadius l r w = Some (ns, w') ->
  persists w w' /\ grid w' = grid w /\ ents w' = ents w.
Proof.
  intros Hrun. destruct (heap w !! l) as [this|] eqn:Hl.
  2:{ by rewrite (Cell_getNeighborsInRadius_None l r w Hl) in Hrun. }
  rewrite (Cell_getNeighborsInRadius_Some l r w this Hl) in Hrun.
  apply (inj Some) in Hrun. apply (f_equal snd) in Hrun. cbn [snd] in Hrun.
  subst w'. split; [|done].
  split; [reflexivity|]. intros l' c Hl'. cbn [heap with_heap].
  destruct (decide (l = l')) as [->|Hne].
  - rewrite lookup_insert_eq. eexists. split; [reflexivity|].
    rewrite Hl in Hl'. apply (inj Some) in Hl'. subst c.
    split; [reflexivity|]. split; [reflexivity|]. split; [reflexivity|].
    intros r' ns' Hr'.
    cbn [Cell_neighborsInRadius Cell_with_neighborsInRadius].
    change (default ∅ (Some ?t)) with t.
    destruct (decide (r = r')) as [->|Hr].
    + rewrite lookup_insert_eq, Hr'. reflexivity.
    + rewrite lookup_insert_ne by exact Hr. exact Hr'.
  - rewrite lookup_insert_ne by exact Hne. exists c. by repeat split.
Qed.

Lemma flow_step_frame rt this neighbor acc w a w' :
  flow_step rt this neighbor acc w = Some (a, w') -> w' = w.
Proof.
  unfold flow_step. intros Hrun.
  apply bind_Some in Hrun as (n & w1 & Hn & Hrun).
  apply read_cell_Some in Hn as [_ ->]. cbv zeta in Hrun.
  by apply ret_Some in Hrun as [_ <-].
Qed.

Lemma persists_with_flow w l v :
  persists w (with_heap (alter (fun this =>
     Cell_with_flow v (Cell_flowDirectionCalculated this) this) l (heap w)) w).
Proof. apply persists_heap_alter. intros c _. by repeat split. Qed.

Lemma Cell_calculateFlowDirection_persists rt l w v w' :
  Cell_calculateFlowDirection rt l w = Some (v, w') ->
  persists w w' /\ grid w' = grid w /\ ents w' = ents w.
Proof.
  unfold Cell_calculateFlowDirection. intros Hrun.
  apply bind_Some in Hrun as (ns & w1 & Hn & Hrun).
  apply Cell_getNeighborsInRadius_persists in Hn as (Hp1 & Hg1 & He1).
  apply bind_Some in Hrun as (this & w2 & Hthis & Hrun).
  apply read_cell_Some in Hthis as [_ ->].
  apply bind_Some in Hrun as (flowVector & w3 & Hfold & Hrun).
  apply (foldM_frame (flow_step rt this)) in Hfold;
    [|intros *; apply flow_step_frame].
  subst w3. cbv zeta in Hrun.
  apply bind_Some in Hrun as (u & w4 & Hupd & Hrun).
  apply ret_Some in Hrun as [_ <-]. apply update_cell_Some in Hupd. subst w4.
  split; [|by split].
  apply persists_trans with w1; [exact Hp1|]. apply persists_with_flow.
Qed.

Lemma persists_set_flow w l v :
  persists w (with_heap (alter (Cell_with_flow v true) l (heap w)) w).
Proof. apply persists_heap_alter. intros c _. by repeat split. Qed.

Lemma Cell_recalculateFlowDirection_persists rt l w u w' :
  Cell_recalculateFlowDirection rt l w = Some (u, w') ->
  persists w w' /\ grid w' = grid w /\ ents w' = ents w.
Proof.
  unfold Cell_recalculateFlowDirection. intros Hrun.
  apply bind_Some in Hrun as (v & w1 & Hc & Hrun).
  apply Cell_calculateFlowDirection_persists in Hc as (Hp & Hg & He).
  apply update_cell_Some in Hrun. subst w'. split; [|by split].
  apply persists_trans with w1; [exact Hp|]. apply persists_set_flow.
Qed.

Lemma Cell_getFlowDirection_persists rt l w v w' :
  Cell_getFlowDirection rt l w = Some (v, w') ->
  persists w w' /\ grid w' = grid w /\ ents w' = ents w.
Proof.
  unfold Cell_getFlowDirection. intros Hrun.
  apply bind_Some in Hrun as (this & w1 & Hthis & Hrun).
  apply read_cell_Some in Hthis as [_ ->].
  apply bind_Some in Hrun as (u & w2 & Hstep & Hrun).
  apply bind_Some in Hrun as (this' & w3 & Hthis' & Hrun).
  apply read_cell_Some in Hthis' as [_ ->].
  apply ret_Some in Hrun as [_ <-].
  destruct (Cell_flowDirectionCalculated this).
  - apply ret_Some in Hstep as [_ <-]. split; [apply persists_refl|by split].
  - apply bind_Some in Hstep as (v' & w4 & Hc & Hstep).
    apply Cell_calculateFlowDirection_persists in Hc as (Hp & Hg & He).
    apply update_cell_Some in Hstep. subst w2. split; [|by split].
    apply persists_trans with w4; [exact Hp|]. apply persists_set_flow.
Qed.

Lemma Grid_clear_persists w u w' :
  Grid_clear w = Some (u, w') -> persists w w'.
Proof.
  rewrite Grid_clear_Some. intros Hrun. apply (inj Some) in Hrun.
  apply (f_equal snd) in Hrun. cbn [snd] in Hrun. subst w'.
  split; [reflexivity|]. intros l c Hl. cbn [heap with_grid with_heap].
  rewrite lookup_cleared, Hl.
  destruct (decide (l ∈ _)); eexists; (split; [reflexivity|by repeat split]).
Qed.

Section Operations.
Variable rt : Runtime.

Lemma Entity_setPosition_settled e x y w u w' :
  Entity_setPosition e x y w = Some (u, w') -> settled w w'.
Proof. intros H. apply Entity_setPosition_Some in H as [_ ->]. apply settled_ents. Qed.

Lemma Grid_removeEntity_settled e w u w' :
  Grid_removeEntity e w = Some (u, w') -> settled w w'.
Proof.
  unfold Grid_removeEntity. intros Hrun.
  apply bind_Some in Hrun as (E & w1 & HE & Hrun).
  apply read_entity_Some in HE as [_ ->].
  destruct (Entity_currentCell E) as [cell|].
  - apply bind_Some in Hrun as (u1 & w1 & Hrm & Hrun).
    apply settled_trans with w1; [by eapply Cell_removeEntity_settled|].
    by eapply update_entity_settled.
  - apply ret_Some in Hrun as [_ <-]. apply settled_refl.
Qed.

Lemma Grid_updateEntity_settled fuel e w u w' :
  Grid_updateEntity rt fuel e w = Some (u, w') -> settled w w'.
Proof.
  unfold Grid_updateEntity. intros Hrun.
  apply bind_Some in Hrun as (E & w0 & HE & Hrun).
  apply read_entity_Some in HE as [_ ->].
  apply bind_Some in Hrun as (newCell & w1 & Hg & Hrun).
  apply bind_Some in Hrun as (E1 & w1' & HE1 & Hrun).
  apply read_entity_Some in HE1 as [_ ->].
  apply settled_trans with w1.
  { unfold Grid_getCellAtWorldPos in Hg.
    exact (Grid_getCellAtWorldPos_with_settled _ (Grid_getCell_settled rt fuel)
             _ _ _ _ _ Hg). }
  destruct (bool_decide _).
  - apply ret_Some in Hrun as [_ <-]. apply settled_refl.
  - apply bind_Some in Hrun as (u1 & w2 & Hrm & Hrun).
    apply bind_Some in Hrun as (u2 & w3 & Hadd & Hrun).
    apply settled_trans with w2.
    { destruct (Entity_currentCell E1).
      - by eapply Cell_removeEntity_settled.
      - apply ret_Some in Hrm as [_ <-]. apply settled_refl. }
    apply settled_trans with w3; [by eapply Cell_addEntity_settled|].
    by eapply update_entity_settled.
Qed.

Lemma run_op_persists fuel op w u w' :
  run_op rt fuel op w = Some (u, w') ->
  persists w w' /\ (op <> OpClear -> map_grows w w').
Proof.
  intros Hrun.
  assert (Hs : settled w w' -> persists w w' /\ (op <> OpClear -> map_grows w w')).
  { intros Hs. split; [by apply settled_persists|]. intros _.
    by apply settled_map_grows. }
  destruct op; cbn [run_op] in Hrun.
  - apply bind_Some in Hrun as (l & w1 & Hg & Hrun).
    apply ret_Some in Hrun as [_ <-]. apply Hs.
    exact (Grid_getCell_settled rt fuel _ _ _ _ _ Hg).
  - apply bind_Some in Hrun as (l & w1 & Hg & Hrun).
    apply ret_Some in Hrun as [_ <-]. apply Hs.
    exact (Grid_getCellAtWorldPos_with_settled _ (Grid_getCell_settled rt fuel)
             _ _ _ _ _ Hg).
  - apply bind_Some in Hrun as (e & w1 & Hc & Hrun).
    apply ret_Some in Hrun as [_ <-]. apply Hs.
    exact (Entity_constructor_settled _ (Grid_getCell_settled rt fuel) _ _ _ _ _ Hc).
  - apply Hs. by eapply Entity_setPosition_settled.
  - apply bind_Some in Hrun as (u1 & w1 & Hp & Hrun). apply Hs.
    apply settled_trans with w1; [by eapply Entity_setPosition_settled|].
    exact (Grid_addEntity_with_settled _ (Grid_getCell_settled rt fuel) _ _ _ _ Hrun).
  - apply bind_Some in Hrun as (u1 & w1 & Hp & Hrun). apply Hs.
    apply settled_trans with w1; [by eapply Entity_setPosition_settled|].
    by eapply Grid_updateEntity_settled.
  - apply Hs. by eapply Grid_removeEntity_settled.
  - apply bind_Some in Hrun as (res & w1 & Hq & Hrun).
    apply ret_Some in Hrun as [_ <-].
    rewrite Grid_getEntitiesInRadius_sweep in Hq. apply sweep_frame in Hq as ->.
    apply Hs, settled_refl.
  - apply bind_Some in Hrun as (res & w1 & Hq & Hrun).
    apply ret_Some in Hrun as [_ <-].
    rewrite Grid_getEntitiesInArea_sweep in Hq. apply sweep_frame in Hq as ->.
    apply Hs, settled_refl.
  - split; [by eapply Grid_clear_persists|]. by intros [].
  - apply bind_Some in Hrun as (ns & w1 & Hn & Hrun).
    apply ret_Some in Hrun as [_ <-].
    apply Cell_getNeighborsInRadius_persists in Hn as (Hp & Hg & _).
    split; [exact Hp|]. intros _ key l. by rewrite Hg.
  - apply bind_Some in Hrun as (v & w1 & Hf & Hrun).
    apply ret_Some in Hrun as [_ <-].
    apply Cell_getFlowDirection_persists in Hf as (Hp & Hg & _).
    split; [exact Hp|]. intros _ key l. by rewrite Hg.
  - apply Cell_recalculateFlowDirection_persists in Hrun as (Hp & Hg & _).
    split; [exact Hp|]. intros _ key l. by rewrite Hg.
Qed.

Lemma run_ops_persists fuel ops w u w' :
  run_ops rt fuel ops w = Some (u, w') ->
  persists w w' /\ (OpClear ∉ ops -> map_grows w w').
Proof.
  revert w. induction ops as [|op ops IH]; intros w Hrun; cbn [run_ops] in Hrun.
  - apply ret_Some in Hrun as [_ <-]. split; [apply persists_refl|].
    intros _. apply map_grows_refl.
  - apply bind_Some in Hrun as (u1 & w1 & Hop & Hrun).
    destruct (run_op_persists _ _ _ _ _ Hop) as [Hp1 Hm1].
    destruct (IH _ Hrun) as [Hp2 Hm2].
    split; [by apply persists_trans with w1|].
    intros Hnc. apply map_grows_trans with w1.
    + apply Hm1. intros ->. apply Hnc. by left.
    + apply Hm2. intros Hin. apply Hnc. by right.
Qed.
End Operations.

(** ** The area query *)

Lemma area_test_spec x y width height E :
  area_test x y width height E = true <->
  x <= (Entity_position E).1 /\ (Entity_position E).1 <= x + width /\
  y <= (Entity_position E).2 /\ (Entity_position E).2 <= y + height.
Proof. unfold area_test. rewrite !andb_true_iff, !Qcleb_true. tauto. Qed.

Lemma cell_in_span c lo hi p :
  0 < c -> lo <= p -> p <= hi ->
  Math_floor (p / c) ∈ range (Math_floor (lo / c)) (Math_floor (hi / c)).
Proof.
  intros Hc Hlo Hhi. apply elem_of_range.
  split; by apply floor_mono, div_le_mono.
Qed.

(** ** Leaving the index *)

Lemma Grid_removeEntity_Some e E w :
  ents w !! e = Some E ->
  Grid_removeEntity e w =
  Some (tt, match Entity_currentCell E with
            | Some cell =>
                with_ents (alter (Entity_with_currentCell None) e (ents w))
                  (with_heap (alter (fun c =>
                     Cell_with_entities (Cell_entities c ∖ {[e]}) c) cell (heap w)) w)
            | None => w
            end).
Proof.
  intros HE. unfold Grid_removeEntity. apply bind_Some. exists E, w.
  split; [by apply read_entity_Some|].
  destruct (Entity_currentCell E) as [cell|]; [|reflexivity].
  apply bind_Some. eexists tt, _. split; [reflexivity|]. reflexivity.
Qed.

(** ** Moving within the materialised map *)

Lemma Grid_getCellAtWorldPos_hit rt fuel x y w l :
  Grid_cells (grid w) !!
    Grid_getCellKey (Grid_worldToCell (grid w) x y).1 (Grid_worldToCell (grid w) x y).2
  = Some l ->
  Grid_getCellAtWorldPos rt fuel x y w = Some (l, w).
Proof.
  intros Hk. unfold Grid_getCellAtWorldPos, Grid_getCellAtWorldPos_with.
  apply bind_Some. exists (grid w), w. split; [reflexivity|].
  destruct (Grid_worldToCell (grid w) x y) as [cx cy]. cbn [fst snd] in Hk.
  by apply Grid_getCell_hit.
Qed.

(** ** The neighbours of an entity *)

Lemma Grid_getEntitiesInRadius_spec w cx cy r :
  0 < Grid_cellSize (grid w) -> 0 <= r -> index_consistent w ->
  exists res,
    Grid_getEntitiesInRadius cx cy r w = Some (res, w) /\
    (forall e, e ∈ res -> exists E, ents w !! e = Some E /\
       within_distance cx cy r (Entity_position E).1 (Entity_position E).2) /\
    (forall e E, ents w !! e = Some E -> Entity_currentCell E <> None ->
       (e ∈ res <->
        within_distance cx cy r (Entity_position E).1 (Entity_position E).2)).
Proof.
  intros Hsize Hr [Hcells Hmembers Htracked].
  rewrite Grid_getEntitiesInRadius_sweep.
  destruct (sweep_spec (radius_test cx cy r) w Hcells Hmembers
              (range (Math_floor ((cx - r) / Grid_cellSize (grid w)))
                     (Math_floor ((cx + r) / Grid_cellSize (grid w))))
              (range (Math_floor ((cy - r) / Grid_cellSize (grid w)))
                     (Math_floor ((cy + r) / Grid_cellSize (grid w)))) ∅)
    as (res & Hrun & Hspec).
  exists res. split; [exact Hrun|].
  assert (Hsound : forall e, e ∈ res -> exists E, ents w !! e = Some E /\
            within_distance cx cy r (Entity_position E).1 (Entity_position E).2).
  { intros e He. apply Hspec in He as [He|(cellX & cellY & _ & _ & Hf)].
    - by apply not_elem_of_empty in He.
    - destruct Hf as (l & c & E & _ & _ & _ & HE & Htest).
      exists E. split; [exact HE|]. by apply radius_test_spec. }
  split; [exact Hsound|].
  intros e E HE Ht. split.
  - intros He. destruct (Hsound e He) as (E' & HE' & Hd).
    rewrite HE in HE'. apply (inj Some) in HE'. by subst E'.
  - intros Hd. apply radius_test_spec in Hd as Htest.
    destruct (Htracked e E HE Ht) as (l & c & Hkey & Hl & Hin).
    apply Hspec. right.
    unfold Grid_worldToCell in Hkey. cbn [fst snd] in Hkey.
    exists (Math_floor ((Entity_position E).1 / Grid_cellSize (grid w))),
           (Math_floor ((Entity_position E).2 / Grid_cellSize (grid w))).
    unfold radius_test, sqrt_leb in Htest.
    apply andb_true_iff in Htest as [_ Hle]. apply Qcleb_true in Hle.
    destruct (circle_in_square _ _ r Hr Hle) as [Hx1 Hx2].
    assert (Hle' : ((Entity_position E).2 - cy) * ((Entity_position E).2 - cy)
                   + ((Entity_position E).1 - cx) * ((Entity_position E).1 - cx)
                   <= r * r).
    { by rewrite Qcplus_comm. }
    destruct (circle_in_square _ _ r Hr Hle') as [Hy1 Hy2].
    split; [by apply cell_in_sweep|]. split; [by apply cell_in_sweep|].
    exists l, c, E. repeat (split; [done|]). by apply radius_test_spec.
Qed.

(** ** Destroying entities *)

Lemma Entity_destroy_spec e E w :
  ents w !! e = Some E ->
  exists w',
    Entity_destroy e w = Some (tt, w') /\
    grid w' = grid w /\
    ents w' = <[e := Entity_with_currentCell None E]> (ents w) /\
    (forall l c, heap w !! l = Some c ->
       exists c', heap w' !! l = Some c' /\
         Cell_entities c' ⊆ Cell_entities c /\
         (forall e', e' <> e -> e' ∈ Cell_entities c -> e' ∈ Cell_entities c') /\
         (membership_ok w e -> e ∉ Cell_entities c')) /\
    (forall l, heap w !! l = None -> heap w' !! l = None).
Proof.
  intros HE.
  assert (Hents :
    alter (Entity_with_currentCell None) e
      (alter (Entity_with_currentCell None) e (ents w))
    = <[e := Entity_with_currentCell None E]> (ents w)).
  { apply map_eq. intros e'. destruct (decide (e = e')) as [<-|Hne].
    - by rewrite !lookup_alter_eq, lookup_insert_eq, HE.
    - by rewrite !lookup_alter_ne, lookup_insert_ne. }
  destruct (Entity_currentCell E) as [cell|] eqn:Hcur.
  - exists (with_ents (<[e := Entity_with_currentCell None E]> (ents w))
              (with_heap (alter (fun c =>
                 Cell_with_entities (Cell_entities c ∖ {[e]}) c) cell (heap w)) w)).
    split; [|split; [reflexivity|split; [reflexivity|split]]].
    3:{ intros l Hl. cbn [heap with_ents with_heap].
        destruct (decide (cell = l)) as [->|Hne].
        - by rewrite lookup_alter_eq, Hl.
        - by rewrite lookup_alter_ne. }
    + unfold Entity_destroy. apply bind_Some. eexists tt, _.
      split; [exact (Grid_removeEntity_Some e E w HE)|].
      rewrite Hcur. apply update_entity_Some.
      cbn [ents with_ents with_heap]. by rewrite Hents.
    + intros l c Hl. cbn [heap with_ents with_heap].
      destruct (decide (cell = l)) as [->|Hne].
      * rewrite lookup_alter_eq, Hl. eexists. split; [reflexivity|].
        cbn [Cell_entities Cell_with_entities]. split; [set_solver|].
        split; [set_solver|]. intros _. set_solver.
      * rewrite lookup_alter_ne by exact Hne. exists c. split; [exact Hl|].
        split; [done|]. split; [done|].
        intros Hm Hin. specialize (Hm E HE). rewrite Hcur in Hm.
        destruct Hm as [_ Huniq]. apply Hne. symmetry. by apply (Huniq l c).
  - exists (with_ents (<[e := Entity_with_currentCell None E]> (ents w)) w).
    split; [|split; [reflexivity|split; [reflexivity|split; [|done]]]].
    + unfold Entity_destroy. apply bind_Some. exists tt, w.
      split; [by rewrite (Grid_removeEntity_Some e E w HE), Hcur|].
      apply update_entity_Some. f_equal. apply map_eq. intros e'.
      destruct (decide (e = e')) as [<-|Hne].
      * by rewrite lookup_alter_eq, lookup_insert_eq, HE.
      * by rewrite lookup_alter_ne, lookup_insert_ne.
    + intros l c Hl. exists c. split; [exact Hl|]. split; [done|]. split; [done|].
      intros Hm. specialize (Hm E HE). rewrite Hcur in Hm. by apply (Hm l c).
Qed.

Lemma membership_ok_shrink w w' e :
  ents w' !! e = ents w !! e ->
  (forall l c, heap w !! l = Some c ->
     exists c', heap w' !! l = Some c' /\ Cell_entities c' ⊆ Cell_entities c /\
                (e ∈ Cell_entities c -> e ∈ Cell_entities c')) ->
  (forall l, heap w !! l = None -> heap w' !! l = None) ->
  membership_ok w e -> membership_ok w' e.
Proof.
  intros HE Hcells Hnone Hm E HE'. rewrite HE in HE'. specialize (Hm E HE').
  assert (Hback : forall l c', heap w' !! l = Some c' ->
            exists c, heap w !! l = Some c /\ Cell_entities c' ⊆ Cell_entities c).
  { intros l c' Hl'. destruct (heap w !! l) as [c|] eqn:Hl.
    - destruct (Hcells l c Hl) as (c0 & Hc0 & Hs & _).
      rewrite Hl' in Hc0. apply (inj Some) in Hc0. subst c0. by exists c.
    - by rewrite (Hnone l Hl) in Hl'. }
  destruct (Entity_currentCell E) as [l|].
  - destruct Hm as [(c & Hc & Hin) Huniq]. split.
    + destruct (Hcells l c Hc) as (c' & Hc' & _ & Hkeep). exists c'. split; [done|].
      by apply Hkeep.
    + intros l' c' Hl' Hin'. destruct (Hback l' c' Hl') as (c0 & Hc0 & Hs).
      apply (Huniq l' c0 Hc0). by apply Hs.
  - intros l' c' Hl' Hin'. destruct (Hback l' c' Hl') as (c0 & Hc0 & Hs).
    apply (Hm l' c0 Hc0). by apply Hs.
Qed.

Lemma destroy_all es w :
  (forall e, e ∈ es -> is_Some (ents w !! e)) ->
  exists w',
    foldM (fun entity (_ : unit) => Entity_destroy entity) es tt w = Some (tt, w') /\
    grid w' = grid w /\
    (forall e, ents w' !! e =
       if bool_decide (e ∈ es) then Entity_with_currentCell None <$> ents w !! e
       else ents w !! e) /\
    (forall l c, heap w !! l = Some c ->
       exists c', heap w' !! l = Some c' /\
         Cell_entities c' ⊆ Cell_entities c /\
         (forall e', e' ∉ es -> e' ∈ Cell_entities c -> e' ∈ Cell_entities c') /\
         (forall e', e' ∈ es -> membership_ok w e' -> e' ∉ Cell_entities c')) /\
    (forall l, heap w !! l = None -> heap w' !! l = None).
Proof.
  revert w. induction es as [|e0 es IH]; intros w Hes.
  - exists w. split; [reflexivity|]. split; [reflexivity|]. split; [done|].
    split; [|done]. intros l c Hl. exists c. split; [exact Hl|]. split; [done|].
    split; [done|]. intros e' He'. by apply elem_of_nil in He'.
  - destruct (Hes e0) as [E0 HE0]; [by left|].
    destruct (Entity_destroy_spec e0 E0 w HE0)
      as (w0 & Hrun0 & Hg0 & He0 & Hh0 & Hn0).
    assert (Hes0 : forall e, e ∈ es -> is_Some (ents w0 !! e)).
    { intros e He. rewrite He0. destruct (decide (e0 = e)) as [<-|Hne].
      - rewrite lookup_insert_eq. by eexists.
      - rewrite lookup_insert_ne by exact Hne. apply Hes. by right. }
    destruct (IH w0 Hes0) as (w1 & Hrun1 & Hg1 & He1 & Hh1 & Hn1).
    exists w1. split; [|split; [by rewrite Hg1|split; [|split]]].
    + cbn [foldM]. apply bind_Some. exists tt, w0. by split.
    + intros e. rewrite He1, He0. destruct (decide (e0 = e)) as [<-|Hne].
      * rewrite lookup_insert_eq, HE0.
        rewrite (bool_decide_eq_true_2 (e0 ∈ e0 :: es)) by by left.
        by destruct (bool_decide (e0 ∈ es)).
      * rewrite lookup_insert_ne by exact Hne.
        destruct (decide (e ∈ es)) as [Hin|Hnin].
        -- rewrite !bool_decide_eq_true_2; [done|by right|done].
        -- rewrite !bool_decide_eq_false_2; [done| |done].
           intros [->|Hin]%elem_of_cons; [by apply Hne|by apply Hnin].
    + intros l c Hl. destruct (Hh0 l c Hl) as (c0 & Hc0 & Hs0 & Hk0 & Hm0).
      destruct (Hh1 l c0 Hc0) as (c1 & Hc1 & Hs1 & Hk1 & Hm1).
      exists c1. split; [exact Hc1|]. split; [set_solver|]. split.
      * intros e' Hnin Hin. apply Hk1; [|apply Hk0; [|done]].
        -- intros Hin'. apply Hnin. by right.
        -- intros ->. apply Hnin. by left.
      * intros e' Hin Hm. destruct (decide (e' = e0)) as [->|Hne].
        -- intros Hin1. apply (Hm0 Hm). by apply Hs1.
        -- apply elem_of_cons in Hin as [->|Hin]; [done|].
           apply Hm1; [exact Hin|].
           apply (membership_ok_shrink w w0 e'); [| |exact Hn0|exact Hm].
           ++ rewrite He0. by rewrite lookup_insert_ne by (intros ->; by apply Hne).
           ++ intros l' c' Hl'. destruct (Hh0 l' c' Hl') as (c'' & Hc'' & Hs'' & Hk'' & _).
              exists c''. split; [exact Hc''|]. split; [exact Hs''|].
              by apply Hk''.
    + intros l Hl. by apply Hn1, Hn0.
Qed.

(** ** What runs keep *)

Lemma Cell_terrain_height c c' :
  Cell_terrain c' = Cell_terrain c -> Cell_height c' = Cell_height c.
Proof.
  unfold Cell_terrain. intros H.
  exact (f_equal (fun t : _ * _ * _ * _ * Qc * _ * _ * _ => t.1.1.1.2) H).
Qed.

Lemma persists_geo w w' l c :
  persists w w' -> heap w !! l = Some c ->
  exists c', heap w' !! l = Some c' /\ geo c' = geo c /\
    forall r ns, default ∅ (Cell_neighborsInRadius c) !! r = Some ns ->
                 default ∅ (Cell_neighborsInRadius c') !! r = Some ns.
Proof.
  intros [_ Hh] Hl. destruct (Hh l c Hl) as (c' & Hl' & Hx & Hy & Ht & Hn).
  exists c'. split; [exact Hl'|]. split; [|exact Hn].
  unfold geo. by rewrite Hx, Hy, (Cell_terrain_height c c' Ht).
Qed.

Lemma Grid_getCell_stored rt fuel x y w l w' :
  Grid_getCell rt fuel x y w = Some (l, w') ->
  Grid_cells (grid w') !! Grid_getCellKey x y = Some l.
Proof.
  destruct fuel as [|fuel]; cbn [Grid_getCell];
    destruct (Grid_cells (grid w) !! Grid_getCellKey x y) as [cell|] eqn:Hk;
    intros Hrun; try discriminate Hrun.
  - apply (inj Some) in Hrun.
    apply (f_equal fst) in Hrun as H1. apply (f_equal snd) in Hrun as H2.
    cbn [fst snd] in H1, H2. by subst.
  - apply (inj Some) in Hrun.
    apply (f_equal fst) in Hrun as H1. apply (f_equal snd) in Hrun as H2.
    cbn [fst snd] in H1, H2. by subst.
  - apply bind_Some in Hrun as (cell & w1 & Hc & Hrun).
    apply bind_Some in Hrun as (u & w2 & Hm & Hrun).
    apply modify_Some in Hm. apply ret_Some in Hrun as [<- <-]. subst w2.
    cbn [grid with_grid Grid_cells Grid_with_cells]. apply lookup_insert_eq.
Qed.

(** The cell a construction returns is a new object. *)
Lemma Cell_constructor_fresh rt createTree x y cellSize w l w' :
  Cell_constructor rt createTree x y cellSize w = Some (l, w') ->
  l ∉ dom (heap w).
Proof.
  unfold Cell_constructor. intros Hrun.
  apply bind_Some in Hrun as (g & w0 & Hg & Hrun).
  apply gets_Some in Hg as [-> ->]. cbv zeta in Hrun.
  destruct (noise rt (Grid_soilNoiseGenerator (grid w)) _ _) as [soil sg].
  destruct (noise rt (Grid_heightNoiseGenerator (grid w)) _ _) as [height hg].
  destruct (noise rt (Grid_temperatureNoiseGenerator (grid w)) _ _)
    as [temperature tg].
  apply bind_Some in Hrun as (u1 & w1 & Hmod & Hrun).
  apply modify_Some in Hmod. subst w1.
  apply bind_Some in Hrun as (this & w2 & Halloc & Hrun).
  apply alloc_cell_Some in Halloc as [-> ->].
  apply bind_Some in Hrun as (u2 & w3 & Hspawn & Hrun).
  apply ret_Some in Hrun as [<- _]. apply is_fresh.
Qed.

Lemma Grid_getCell_miss_fresh rt fuel x y w l w' :
  Grid_cells (grid w) !! Grid_getCellKey x y = None ->
  Grid_getCell rt fuel x y w = Some (l, w') -> l ∉ dom (heap w).
Proof.
  intros Hk. destruct fuel as [|fuel]; cbn [Grid_getCell]; rewrite Hk;
    intros Hrun; [discriminate Hrun|].
  apply bind_Some in Hrun as (cell & w1 & Hc & Hrun).
  apply bind_Some in Hrun as (u & w2 & Hm & Hrun).
  apply ret_Some in Hrun as [<- _]. by eapply Cell_constructor_fresh.
Qed.

(** ** Recalculating the flow *)

Lemma neighbors_result_cached w this r ns :
  default ∅ (Cell_neighborsInRadius this) !! r = Some ns ->
  neighbors_result w this r = ns.
Proof. intros H. unfold neighbors_result. by rewrite H. Qed.

(** ** Water *)

Lemma Cell_constructor_water rt createTree x y cellSize w :
  world_ok rt w ->
  terrain_height rt (Grid_noiseFrequencies (grid w)) x y < Q2Qc 0.4 ->
  exists g,
    Cell_constructor rt createTree x y cellSize w =
    Some (fresh (dom (heap w)),
          with_heap (<[fresh (dom (heap w)) :=
                         Cell_at rt cellSize (Grid_noiseFrequencies (grid w)) x y]>
                       (heap w))
            (with_grid g w)) /\
    Grid_cells g = Grid_cells (grid w).
Proof.
  intros Hok Hwater. unfold Cell_constructor.
  set (f := Grid_noiseFrequencies (grid w)) in *.
  destruct (ok_soil _ _ Hok) as [Hms Hss].
  destruct (ok_height _ _ Hok) as [Hmh Hsh].
  destruct (ok_temperature _ _ Hok) as [Hmt Hst].
  destruct (noise_ok rt _ (Z2Qc x * freq_soilFertility f)
              (Z2Qc y * freq_soilFertility f) Hms) as (Vs & _).
  destruct (noise_ok rt _ (Z2Qc x * freq_height f)
              (Z2Qc y * freq_height f) Hmh) as (Vh & _).
  destruct (noise_ok rt _ (Z2Qc x * freq_temperature f)
              (Z2Qc y * freq_temperature f) Hmt) as (Vt & _).
  rewrite Hss in Vs. rewrite Hsh in Vh. rewrite Hst in Vt.
  destruct (noise rt (Grid_soilNoiseGenerator (grid w))
              (Z2Qc x * freq_soilFertility f) (Z2Qc y * freq_soilFertility f))
    as [soil sg] eqn:Hs.
  destruct (noise rt (Grid_heightNoiseGenerator (grid w))
              (Z2Qc x * freq_height f) (Z2Qc y * freq_height f))
    as [height hg] eqn:Hh.
  destruct (noise rt (Grid_temperatureNoiseGenerator (grid w))
              (Z2Qc x * freq_temperature f) (Z2Qc y * freq_temperature f))
    as [temperature tg] eqn:Ht.
  cbn [fst] in Vs, Vh, Vt.
  exists (Grid_with_generators sg hg tg (grid w)). split; [|reflexivity].
  set (w1 := with_grid (Grid_with_generators sg hg tg (grid w)) w).
  set (l := fresh (dom (heap w))).
  assert (Hcell : Cell_init x y cellSize soil height temperature
                  = Cell_at rt cellSize f x y).
  { unfold Cell_at, terrain_soilFertility, terrain_height, terrain_temperature.
    by rewrite Vs, Vh, Vt. }
  set (w2 := with_heap (<[l := Cell_at rt cellSize f x y]> (heap w)) w1).
  apply bind_Some. exists (grid w), w. split; [done|].
  cbv zeta. fold f. rewrite Hs, Hh, Ht.
  apply bind_Some. exists tt, w1. split; [done|].
  apply bind_Some. exists l, w2. split.
  { unfold alloc_cell. by rewrite Hcell. }
  apply bind_Some. exists tt, w2. split; [|done].
  unfold Cell_spawnTreesHere. apply bind_Some.
  exists (Cell_at rt cellSize f x y), w2. split.
  { apply read_cell_Some. split; [apply lookup_insert_eq|done]. }
  assert (Hw : Cell_water (Cell_at rt cellSize f x y) = true).
  { unfold Cell_at. cbn [Cell_init Cell_water]. by apply Qcltb_true. }
  by rewrite Hw.
Qed.

(** ** The number of neighbours *)

Lemma bind_length_le {A B} (f : A -> list B) (N : nat) (l : list A) :
  (forall x, x ∈ l -> (length (f x) <= N)%nat) ->
  (length (l ≫= f) <= N * length l)%nat.
Proof.
  induction l as [|x l IH]; intros Hf; [cbn; lia|].
  rewrite bind_cons, length_app. cbn [length].
  pose proof (Hf x (list_elem_of_here _ _)).
  pose proof (IH (fun y Hy => Hf y (list_elem_of_further _ _ _ Hy))). lia.
Qed.

Lemma bind_length_lt {A B} (f : A -> list B) (N : nat) (l : list A) x0 :
  x0 ∈ l -> (forall x, x ∈ l -> (length (f x) <= N)%nat) ->
  (length (f x0) < N)%nat ->
  (length (l ≫= f) < N * length l)%nat.
Proof.
  induction l as [|x l IH]; intros Hin Hf H0; [by apply elem_of_nil in Hin|].
  rewrite bind_cons, length_app. cbn [length].
  pose proof (Hf x (list_elem_of_here _ _)).
  pose proof (bind_length_le f N l (fun y Hy => Hf y (list_elem_of_further _ _ _ Hy))).
  apply elem_of_cons in Hin as [<-|Hin]; [lia|].
  pose proof (IH Hin (fun y Hy => Hf y (list_elem_of_further _ _ _ Hy)) H0). lia.
Qed.

Lemma range_length lo hi : length (range lo hi) = Z.to_nat (hi - lo + 1).
Proof. unfold range. apply length_seqZ. Qed.

Lemma neighbors_scan_length cells x y r :
  (length (neighbors_scan cells x y r) <= Z.to_nat ((2 * r + 1) * (2 * r + 1) - 1))%nat.
Proof.
  unfold neighbors_scan.
  set (cell := fun dx dy : Z =>
    if bool_decide (dx = 0%Z) && bool_decide (dy = 0%Z) then []
    else match cells !! Grid_getCellKey (x + dx) (y + dy) with
         | Some neighbor => [neighbor]
         | None => []
         end).
  assert (Hcell : forall dx dy, (length (cell dx dy) <= 1)%nat).
  { intros dx dy. unfold cell. destruct (_ && _); [cbn; lia|].
    destruct (cells !! _); cbn; lia. }
  assert (Hrow : forall dx,
            (length (range (- r) r ≫= cell dx) <= Z.to_nat (2 * r + 1))%nat).
  { intros dx.
    pose proof (bind_length_le (cell dx) 1 (range (- r) r) (fun dy _ => Hcell dx dy)) as H.
    rewrite range_length in H. lia. }
  destruct (decide (0 <= r)%Z) as [Hr|Hr].
  - assert (H0 : (0:Z) ∈ range (- r) r) by (apply elem_of_range; lia).
    assert (Hmid : (length (range (- r) r ≫= cell 0%Z) < Z.to_nat (2 * r + 1))%nat).
    { pose proof (bind_length_lt (cell 0%Z) 1 (range (- r) r) 0%Z H0
                    (fun dy _ => Hcell 0%Z dy)) as H.
      rewrite range_length in H. unfold cell at 1 in H.
      rewrite !bool_decide_eq_true_2 in H by done. cbn [andb length] in H.
      specialize (H ltac:(lia)). lia. }
    pose proof (bind_length_lt (fun dx => range (- r) r ≫= cell dx)
                  (Z.to_nat (2 * r + 1)) (range (- r) r) 0%Z H0
                  (fun dx _ => Hrow dx) Hmid) as H.
    rewrite range_length in H.
    replace (r - - r + 1)%Z with (2 * r + 1)%Z in H by lia.
    rewrite <- Z2Nat.inj_mul in H by lia.
    replace (Z.to_nat ((2 * r + 1) * (2 * r + 1) - 1))
      with (Z.to_nat ((2 * r + 1) * (2 * r + 1)) - 1)%nat by lia.
    unfold cell in H. lia.
  - unfold range. rewrite seqZ_nil by lia. cbn. lia.
Qed.

(** ** The colour of a cell *)

Lemma floor_byte (t : Qc) :
  0 <= t -> t <= 1 -> (0 <= Math_floor (t * Z2Qc 255) <= 255)%Z.
Proof.
  intros H0 H1. unfold Math_floor.
  assert (Hlo : (0 <= this (t * Z2Qc 255))%Q).
  { rewrite this_mult, this_Z2Qc. apply Qmult_le_0_compat; [exact H0|done]. }
  assert (Hhi : (this (t * Z2Qc 255) <= inject_Z 255)%Q).
  { rewrite this_mult, this_Z2Qc.
    assert (H1' : (this t <= 1)%Q) by exact H1.
    assert (H0' : (0 <= this t)%Q) by exact H0.
    change (inject_Z 255) with (255 # 1)%Q. nra. }
  split.
  - change 0%Z with (Qfloor 0). by apply Qfloor_resp_le.
  - rewrite <- (Qfloor_Z 255). by apply Qfloor_resp_le.
Qed.

Lemma Cell_getColor_bytes c :
  0 <= Cell_temperature c /\ Cell_temperature c <= 1 ->
  0 <= Cell_soilFertility c /\ Cell_soilFertility c <= 1 ->
  0 <= Cell_height c /\ Cell_height c <= 1 ->
  (0 <= Color_r (Cell_getColor c) <= 255)%Z /\
  (0 <= Color_g (Cell_getColor c) <= 255)%Z /\
  (0 <= Color_b (Cell_getColor c) <= 255)%Z.
Proof.
  intros [] [] []. unfold Cell_getColor.
  destruct (Cell_water c); [cbn; lia|].
  destruct (Cell_beach c); [cbn; lia|].
  destruct (Cell_frozen c); [cbn; lia|].
  destruct (Cell_desert c); [cbn; lia|].
  cbn [Color_r Color_g Color_b]. split_and!; by apply floor_byte.
Qed.

Lemma world_ok_terrain_range rt w l c :
  world_ok rt w -> heap w !! l = Some c ->
  (0 <= Cell_temperature c /\ Cell_temperature c <= 1) /\
  (0 <= Cell_soilFertility c /\ Cell_soilFertility c <= 1) /\
  (0 <= Cell_height c /\ Cell_height c <= 1).
Proof.
  intros Hok Hl.
  destruct (Cell_terrain_init _ _ _ _ _ _ _ (ok_terrain _ _ Hok l c Hl))
    as (_ & _ & _ & Hs & Hh & Ht & _).
  rewrite Hs, Hh, Ht. split_and!; apply noise_pure_range.
Qed.

Lemma string_length_append s1 s2 :
  String.length (s1 +:+ s2) = (String.length s1 + String.length s2)%nat.
Proof.
  induction s1 as [|a s1 IH]; [done|].
  change (S (String.length (s1 +:+ s2)) = S (String.length s1 + String.length s2)).
  by rewrite IH.
Qed.

(** The two digits of a byte. *)
Lemma toHex_byte n :
  (0 <= n <= 255)%Z ->
  String.length (String_padStart (Number_toString_16 n) 2 "0") = 2%nat /\
  parseInt_16 (String_padStart (Number_toString_16 n) 2 "0") = n.
Proof.
  intros Hn.
  assert (Hall : forallb (fun n =>
            (String.length (String_padStart (Number_toString_16 n) 2 "0") =? 2)%nat
            && (parseInt_16 (String_padStart (Number_toString_16 n) 2 "0") =? n)%Z)
            (seqZ 0 256) = true) by (vm_compute; reflexivity).
  rewrite forallb_forall in Hall. specialize (Hall n).
  destruct (andb_prop _ _ (Hall ltac:(apply list_elem_of_In, elem_of_seqZ; lia)))
    as [H1 H2].
  split; [by apply Nat.eqb_eq|by apply Z.eqb_eq].
Qed.

Lemma not_digit_paren : not_digit ")"%char.
Proof. intros x. apply pretty_N_char_not; discriminate. Qed.

Lemma append_end_inj c s1 s2 :
  no_char c s1 -> no_char c s2 ->
  s1 +:+ String c EmptyString = s2 +:+ String c EmptyString -> s1 = s2.
Proof. intros H1 H2 H. by destruct (append_sep_inj c s1 s2 _ _ H1 H2 H). Qed.

(** ** Harvesting a tree *)

Lemma Z2Qc_lt a b : (a < b)%Z -> Z2Qc a < Z2Qc b.
Proof.
  intros H. unfold Qclt. rewrite !this_Z2Qc. by rewrite <- Zlt_Qlt.
Qed.

Lemma floor_yield (r : Qc) :
  0 <= r -> r < 1 -> (3 <= Math_floor (r * Z2Qc 5) + 3 <= 7)%Z.
Proof.
  intros H0 H1. unfold Math_floor.
  assert (Hlo : (0 <= this (r * Z2Qc 5))%Q).
  { rewrite this_mult, this_Z2Qc. apply Qmult_le_0_compat; [exact H0|done]. }
  assert (Hhi : (this (r * Z2Qc 5) < inject_Z 5)%Q).
  { rewrite this_mult, this_Z2Qc.
    assert (H1' : (this r < 1)%Q) by exact H1.
    assert (H0' : (0 <= this r)%Q) by exact H0.
    change (inject_Z 5) with (5 # 1)%Q. nra. }
  assert (0 <= Qfloor (this (r * Z2Qc 5)))%Z.
  { change 0%Z with (Qfloor 0). by apply Qfloor_resp_le. }
  assert (Qfloor (this (r * Z2Qc 5)) < 5)%Z.
  { apply Z.lt_nge. intros Hge.
    apply (Qlt_not_le _ _ Hhi). eapply Qle_trans; [|apply Qfloor_le].
    by rewrite <- Zle_Qle. }
  lia.
Qed.

Lemma Tree_harvest_spent rt this w :
  Tree_canHarvest this = false ->
  Tree_harvest rt this w =
  Some (({| Harvest_wood := 0; Harvest_seeds := 0; Harvest_treeType := None |},
         this), w).
Proof. intros H. unfold Tree_harvest. by rewrite H. Qed.

Lemma Tree_harvests_spent rt n this w :
  Tree_canHarvest this = false ->
  Tree_harvests rt n this w =
  Some ((replicate n {| Harvest_wood := 0; Harvest_seeds := 0;
                        Harvest_treeType := None |}, this), w).
Proof.
  intros H. induction n as [|n IH]; [done|].
  cbn [Tree_harvests replicate]. unfold bind at 1.
  rewrite (Tree_harvest_spent rt this w H). cbn [fst snd].
  unfold bind. by rewrite IH.
Qed.

(** ** The counts of the debug information *)

Lemma count_fold ls acc w :
  (forall l, l ∈ ls -> is_Some (heap w !! l)) ->
  foldM (fun cell sum => n <- Cell_getEntityCount cell ;; ret (sum + n)%nat) ls acc w
  = Some ((acc + sum_list (map (fun l => size (members_at w l)) ls))%nat, w).
Proof.
  revert acc. induction ls as [|l ls IH]; intros acc Hls.
  - cbn. unfold ret. by rewrite Nat.add_0_r.
  - destruct (Hls l (list_elem_of_here _ _)) as [c Hc].
    assert (Hstep : (n <- Cell_getEntityCount l ;; ret (acc + n)%nat) w
                    = Some ((acc + size (Cell_entities c))%nat, w)).
    { unfold Cell_getEntityCount, read_cell, gets, lift_option, bind, ret.
      by rewrite Hc. }
    cbn [foldM map sum_list]. unfold bind at 1. rewrite Hstep.
    rewrite IH by (intros l' Hl'; apply Hls; by apply list_elem_of_further).
    unfold members_at at 2. rewrite Hc. cbn [fmap option_fmap option_map default].
    by rewrite Nat.add_assoc.
Qed.

Lemma sum_disjoint w ls :
  NoDup ls ->
  (forall l l' e, l ∈ ls -> l' ∈ ls -> e ∈ members_at w l -> e ∈ members_at w l' ->
     l = l') ->
  sum_list (map (fun l => size (members_at w l)) ls)
  = size (⋃ (members_at w <$> ls)).
Proof.
  induction 1 as [|l ls Hl Hnd IH]; intros Hdis.
  - cbn. by rewrite size_empty.
  - cbn [map sum_list].
    change (⋃ (members_at w <$> l :: ls))
      with (members_at w l ∪ ⋃ (members_at w <$> ls)).
    rewrite size_union.
    + rewrite IH; [done|]. intros l1 l2 e H1 H2.
      apply Hdis; by apply list_elem_of_further.
    + intros e He Hu. apply elem_of_union_list in Hu as (X & HX & HeX).
      apply list_elem_of_fmap in HX as (l' & -> & Hl').
      apply Hl.
      rewrite (Hdis l l' e (list_elem_of_here _ _) (list_elem_of_further _ _ _ Hl') He HeX).
      exact Hl'.
Qed.

Lemma elem_of_members_at w l e :
  e ∈ members_at w l <-> exists c, heap w !! l = Some c /\ e ∈ Cell_entities c.
Proof.
  unfold members_at. destruct (heap w !! l) as [c|]; cbn.
  - split; [by exists c|]. intros (c' & Hc' & He). apply (inj Some) in Hc'. by subst.
  - split; [set_solver|]. by intros (c' & Hc' & _).
Qed.

Lemma map_cells_NoDup rt w :
  world_ok rt w -> NoDup (map snd (map_to_list (Grid_cells (grid w)))).
Proof.
  intros Hok. apply NoDup_fmap_2_strong; [|apply NoDup_map_to_list].
  intros [k1 l1] [k2 l2] H1 H2 Heq. cbn in Heq. subst l2.
  apply elem_of_map_to_list in H1, H2.
  destruct (ok_cells _ _ Hok _ _ H1) as (c1 & Hc1 & ->).
  destruct (ok_cells _ _ Hok _ _ H2) as (c2 & Hc2 & ->).
  rewrite Hc1 in Hc2. apply (inj Some) in Hc2. by subst.
Qed.

Lemma elem_of_map_cells w l :
  l ∈ map snd (map_to_list (Grid_cells (grid w))) <->
  exists key, Grid_cells (grid w) !! key = Some l.
Proof.
  rewrite list_elem_of_fmap. split.
  - intros ([k l'] & -> & Hin). apply elem_of_map_to_list in Hin. by exists k.
  - intros (k & Hk). exists (k, l). split; [done|]. by apply elem_of_map_to_list.
Qed.

Lemma in_map_cell_spec w e :
  in_map_cell w e = true <->
  exists E l, ents w !! e = Some E /\ Entity_currentCell E = Some l /\
              (l ∈ map snd (map_to_list (Grid_cells (grid w)))).
Proof.
  unfold in_map_cell. destruct (ents w !! e) as [E|]; [|split; [done|by intros (? & ? & ? & _)]].
  destruct (Entity_currentCell E) as [l|] eqn:Hcur.
  - rewrite bool_decide_eq_true. split.
    + intros Hl. by exists E, l.
    + intros (E' & l' & HE' & Hcur' & Hl'). apply (inj Some) in HE'. subst E'.
      rewrite Hcur in Hcur'. apply (inj Some) in Hcur'. by subst.
  - split; [done|]. intros (E' & l' & HE' & Hcur' & _).
    apply (inj Some) in HE'. subst E'. by rewrite Hcur in Hcur'.
Qed.

Lemma Grid_getDebugInfo_spec rt w :
  world_ok rt w -> index_inv w ->
  exists info,
    Grid_getDebugInfo w = Some (info, w) /\
    debug_totalCells info = size (Grid_cells (grid w)) /\
    debug_totalEntities info
    = size (filter (fun e => in_map_cell w e = true) (dom (ents w))) /\
    debug_cellSize info = Grid_cellSize (grid w) /\
    debug_cells info = Grid_cells (grid w).
Proof.
  intros Hok Hinv. unfold Grid_getDebugInfo, bind at 1, gets. unfold bind at 1.
  rewrite count_fold.
  2:{ intros l Hl. apply elem_of_map_cells in Hl as (key & Hkey).
      destruct (ok_cells _ _ Hok _ _ Hkey) as (c & Hc & _). by exists c. }
  unfold ret. cbn [fst snd]. eexists. split; [reflexivity|].
  cbn [debug_totalCells debug_totalEntities debug_cellSize debug_cells].
  split; [by rewrite length_map, length_map_to_list|].
  split; [|done].
  assert (Huniq : forall l l' e, e ∈ members_at w l -> e ∈ members_at w l' -> l = l').
  { intros l l' e Hl Hl'.
    apply elem_of_members_at in Hl as (c & Hc & He).
    apply elem_of_members_at in Hl' as (c' & Hc' & He').
    destruct (ok_members _ _ Hok _ _ _ Hc He) as [E HE].
    destruct (Hinv e) as [Hm _]. specialize (Hm E HE).
    destruct (Entity_currentCell E) as [l0|].
    - destruct Hm as [_ Hu]. by rewrite (Hu l c Hc He), (Hu l' c' Hc' He').
    - destruct (Hm l c Hc He). }
  rewrite Nat.add_0_l, sum_disjoint;
    [|by eapply map_cells_NoDup|by intros l l' e _ _; apply Huniq].
  f_equal. apply set_eq. intros e.
  rewrite elem_of_union_list, elem_of_filter, in_map_cell_spec, elem_of_dom. split.
  - intros (X & HX & He). apply list_elem_of_fmap in HX as (l & -> & Hl).
    apply elem_of_members_at in He as Hmem. destruct Hmem as (c & Hc & Hec).
    destruct (ok_members _ _ Hok _ _ _ Hc Hec) as [E HE].
    split; [|by exists E]. exists E.
    destruct (Hinv e) as [Hm _]. specialize (Hm E HE).
    destruct (Entity_currentCell E) as [l0|].
    + destruct Hm as [_ Hu]. exists l0. split; [done|]. split; [done|].
      by rewrite <- (Hu l c Hc Hec).
    + destruct (Hm l c Hc Hec).
  - intros [(E & l & HE & Hcur & Hl) _].
    exists (members_at w l). split; [apply list_elem_of_fmap; by exists l|].
    destruct (Hinv e) as [Hm _]. specialize (Hm E HE). rewrite Hcur in Hm.
    destruct Hm as [(c & Hc & Hec) _]. apply elem_of_members_at. by exists c.
Qed.

(** ** The visualisation materialises its window *)

Section Visualisation.
Variable rt : Runtime.
Variable fuel : nat.

Lemma render_one x y w u w' :
  world_ok rt w ->
  (cell <- Grid_getCell rt fuel x y ;; Game_renderCell cell) w = Some (u, w') ->
  world_ok rt w' /\ same_config w w' /\ settled w w' /\
  is_Some (Grid_cells (grid w') !! Grid_getCellKey x y).
Proof.
  intros Hok Hrun.
  apply bind_Some in Hrun as (cell & w1 & Hget & Hrun).
  unfold Game_renderCell in Hrun.
  apply bind_Some in Hrun as (c & w2 & Hread & Hrun).
  apply read_cell_Some in Hread as [_ ->]. apply ret_Some in Hrun as [_ <-].
  destruct (Grid_getCell_spec rt fuel _ _ _ _ _ Hok Hget) as ([Hok1 Hev1 _] & Hk & _).
  split; [exact Hok1|]. split; [by eapply evolves_same_config|].
  split; [by eapply Grid_getCell_settled|]. by exists cell.
Qed.

Lemma render_row xs y w u w' :
  world_ok rt w ->
  foldM (fun cellX (_ : unit) =>
    cell <- Grid_getCell rt fuel cellX y ;; Game_renderCell cell) xs tt w
  = Some (u, w') ->
  world_ok rt w' /\ same_config w w' /\ settled w w' /\
  forall x, x ∈ xs -> is_Some (Grid_cells (grid w') !! Grid_getCellKey x y).
Proof.
  revert w. induction xs as [|x xs IH]; intros w Hok Hrun.
  - apply ret_Some in Hrun as [_ <-].
    split; [exact Hok|]. split; [apply same_config_refl|].
    split; [apply settled_refl|]. intros x Hx. by apply elem_of_nil in Hx.
  - cbn [foldM] in Hrun. apply bind_Some in Hrun as ([] & w1 & Hone & Hrun).
    destruct (render_one _ _ _ _ _ Hok Hone) as (Hok1 & Hc1 & Hs1 & Hk1).
    destruct (IH _ Hok1 Hrun) as (Hok2 & Hc2 & Hs2 & Hk2).
    split; [exact Hok2|]. split; [by eapply same_config_trans|].
    split; [by eapply settled_trans|].
    intros x' Hx'. apply elem_of_cons in Hx' as [->|Hx']; [|by apply Hk2].
    destruct Hk1 as [l Hl]. exists l. by apply (settled_map _ _ Hs2).
Qed.

Lemma render_rows xs ys w u w' :
  world_ok rt w ->
  foldM (fun cellY (_ : unit) =>
    foldM (fun cellX (_ : unit) =>
      cell <- Grid_getCell rt fuel cellX cellY ;; Game_renderCell cell) xs tt)
    ys tt w = Some (u, w') ->
  world_ok rt w' /\ same_config w w' /\ settled w w' /\
  forall x y, x ∈ xs -> y ∈ ys ->
    is_Some (Grid_cells (grid w') !! Grid_getCellKey x y).
Proof.
  revert w. induction ys as [|y ys IH]; intros w Hok Hrun.
  - apply ret_Some in Hrun as [_ <-].
    split; [exact Hok|]. split; [apply same_config_refl|].
    split; [apply settled_refl|]. intros x y _ Hy. by apply elem_of_nil in Hy.
  - cbn [foldM] in Hrun. apply bind_Some in Hrun as ([] & w1 & Hone & Hrun).
    destruct (render_row _ _ _ _ _ Hok Hone) as (Hok1 & Hc1 & Hs1 & Hk1).
    destruct (IH _ Hok1 Hrun) as (Hok2 & Hc2 & Hs2 & Hk2).
    split; [exact Hok2|]. split; [by eapply same_config_trans|].
    split; [by eapply settled_trans|].
    intros x' y' Hx' Hy'. apply elem_of_cons in Hy' as [->|Hy']; [|by apply Hk2].
    destruct (Hk1 x' Hx') as [l Hl]. exists l. by apply (settled_map _ _ Hs2).
Qed.

End Visualisation.

(** * The claims of the specification *)

(** ** C1: the index of entities *)




(** ** C2: the terrain flags *)

(** C2, as stated, fails on the beach flag: [this.height > 0.4] is strict, so
    a cell whose height is exactly 0.4 is neither water nor beach. *)
Lemma C2_beach_threshold_counterexample :
  ~ (forall x y cellSize soilFertility height temperature,
       Cell_beach (Cell_init x y cellSize soilFertility height temperature) = true
       <-> Q2Qc 0.4 <= height /\ height < Q2Qc 0.45).
Proof.
  intros H.
  destruct (H 0%Z 0%Z (Q2Qc 50) (Q2Qc 0.5) (Q2Qc 0.4) (Q2Qc 0.5)) as [_ Hb].
  assert (Hfalse : Cell_beach (Cell_init 0 0 (Q2Qc 50) (Q2Qc 0.5) (Q2Qc 0.4) (Q2Qc 0.5))
                   = false) by (vm_compute; reflexivity).
  rewrite Hb in Hfalse; [discriminate|].
  split; [apply Qcle_refl|reflexivity].
Qed.

(** C2, amended: in every cell the grid constructs, water is [height < 0.4],
    beach is [0.4 < height < 0.45], frozen is [temperature < 0.3], desert is
    [temperature > 0.7]; water and beach exclude each other, and a cell of
    height exactly 0.4 is neither. *)
Theorem C2_terrain_flags rt cellSize f w l c :
  reachable rt cellSize f w -> heap w !! l = Some c -> flags_claim c.
Proof.
  intros Hr Hl. destruct (reachable_ok rt _ _ _ Hr) as (Hok & _).
  destruct (Cell_flags_thresholds rt w l c Hok Hl) as (Hw & Hb & Hf & Hd).
  unfold flags_claim. rewrite Hw, Hb, Hf, Hd.
  rewrite andb_true_iff, !Qcltb_true. repeat split; try tauto.
  - intros [H1 [H2 _]].
    exact (Qclt_not_le _ _ (Qclt_trans _ _ _ H2 H1) (Qcle_refl _)).
  - apply andb_false_iff. left. apply Qcltb_false. rewrite H. apply Qcle_refl.
  - apply Qcltb_false. rewrite H. apply Qcle_refl.
Qed.

Lemma C2_terrain_flags_witness :
  exists w c,
    reachable (demo_runtime no_tree_tape) (Q2Qc 50) sloped_frequencies w /\
    heap w !! 1%nat = Some c /\ flags_claim c.
Proof.
  destruct (world_after (demo_runtime no_tree_tape) 1 [OpGetCell 0 0; OpGetCell 1 0]
              (Q2Qc 50) sloped_frequencies) as [w|] eqn:Hw;
    [|by vm_compute in Hw].
  assert (Hc : is_Some (heap w !! 1%nat)).
  { assert (Hall : (fun w => bool_decide (is_Some (heap w !! 1%nat))) <$>
                   world_after (demo_runtime no_tree_tape) 1
                     [OpGetCell 0 0; OpGetCell 1 0] (Q2Qc 50) sloped_frequencies
                   = Some true) by (vm_compute; reflexivity).
    rewrite Hw in Hall. cbn in Hall. apply (inj Some) in Hall.
    by apply bool_decide_eq_true in Hall. }
  destruct Hc as [c Hc]. apply world_after_reachable in Hw.
  exists w, c. split; [exact Hw|]. split; [exact Hc|].
  exact (C2_terrain_flags _ _ _ w 1%nat c Hw Hc).
Defined.

(** ** C3: from world coordinates to cells *)



(** ** C4: the flow direction *)

(** C4, as stated, fails when the list of neighbours of the cell was cached
    before its neighbourhood was materialised.  Cell (0, 0) is asked for its
    neighbours within radius 3 while it is alone; cell (1, 0), which is
    higher, is then materialised; the first [getFlowDirection] of cell (0, 0)
    returns the zero vector, not the normalised pull of that neighbour. *)
Lemma C4_stale_neighbors_counterexample :
  exists w this v w',
    reachable (demo_runtime no_tree_tape) (Q2Qc 50) sloped_frequencies w /\
    heap w !! 0%nat = Some this /\
    Cell_flowDirectionCalculated this = false /\
    Cell_getFlowDirection (demo_runtime no_tree_tape) 0%nat w = Some (v, w') /\
    (forall l', l' ∈ [1%nat] <-> present_neighbor w this 3 l') /\
    v <> flow_of (demo_runtime no_tree_tape) this (cells_of w [1%nat]).
Proof.
  destruct (world_after (demo_runtime no_tree_tape) 1
              [OpGetCell 0 0; OpGetNeighborsInRadius 0 3; OpGetCell 1 0]
              (Q2Qc 50) sloped_frequencies) as [w|] eqn:Hw;
    [|by vm_compute in Hw].
  assert (Hsum :
    (fun w =>
       match heap w !! 0%nat with
       | Some this =>
           Some (Cell_flowDirectionCalculated this,
                 neighbors_scan (Grid_cells (grid w)) (Cell_x this) (Cell_y this) 3,
                 (fun r => bool_decide
                             (r.1 = flow_of (demo_runtime no_tree_tape) this
                                      (cells_of w [1%nat]))) <$>
                 Cell_getFlowDirection (demo_runtime no_tree_tape) 0%nat w)
       | None => None
       end) <$>
    world_after (demo_runtime no_tree_tape) 1
      [OpGetCell 0 0; OpGetNeighborsInRadius 0 3; OpGetCell 1 0]
      (Q2Qc 50) sloped_frequencies
    = Some (Some (false, [1%nat], Some false))) by (vm_compute; reflexivity).
  rewrite Hw in Hsum. cbn [fmap option_fmap option_map] in Hsum.
  apply (inj Some) in Hsum.
  destruct (heap w !! 0%nat) as [this|] eqn:Hthis; [|done].
  apply (inj Some) in Hsum.
  apply (f_equal snd) in Hsum as Hneq. cbn [snd] in Hneq.
  apply (f_equal fst) in Hsum. cbn [fst] in Hsum.
  apply (f_equal snd) in Hsum as Hscan. apply (f_equal fst) in Hsum as Hcalc.
  cbn [fst snd] in Hscan, Hcalc.
  destruct (Cell_getFlowDirection (demo_runtime no_tree_tape) 0%nat w)
    as [[v w']|] eqn:Hrun; [|done].
  cbn in Hneq. apply (inj Some) in Hneq. apply bool_decide_eq_false in Hneq.
  exists w, this, v, w'.
  split; [by apply world_after_reachable in Hw|]. split; [done|]. split; [done|].
  split; [done|]. split; [|done].
  intros l'. rewrite <- Hscan. apply neighbors_scan_present.
Qed.

(** C4, amended: the first [getFlowDirection] of a cell returns the
    normalisation of the sum, over the cells that [getNeighborsInRadius(3)]
    returns, of the unit direction to the neighbour scaled by the difference
    of heights, or the zero vector when that sum has no magnitude, as it has
    when these neighbours all have the height of the cell.  The list is the
    neighbourhood present in the map, each cell once, if no list was cached
    for radius 3.  The
    result is stored: a cell whose flow is calculated returns the stored
    vector. *)
Theorem C4_flow_direction rt cellSize f w l this :
  reachable rt cellSize f w -> heap w !! l = Some this ->
  Cell_flowDirectionCalculated this = false ->
  exists ns w1 v w',
    Cell_getNeighborsInRadius l 3 w = Some (ns, w1) /\
    Cell_getFlowDirection rt l w = Some (v, w') /\
    v = flow_of rt this (cells_of w ns) /\
    (default ∅ (Cell_neighborsInRadius this) !! 3%Z = None ->
     NoDup ns /\ forall l', l' ∈ ns <-> present_neighbor w this 3 l') /\
    ((forall n, n ∈ cells_of w ns -> Cell_height n = Cell_height this) ->
     v = (0, 0)) /\
    Cell_getFlowDirection rt l w' = Some (v, w') /\
    (forall w'' this'', heap w'' !! l = Some this'' ->
       Cell_flowDirectionCalculated this'' = true ->
       Cell_getFlowDirection rt l w'' = Some (Cell_flowDirection this'', w'')).
Proof.
  intros Hr Hl Hc. destruct (reachable_ok rt _ _ _ Hr) as (Hok & _).
  assert (Hns : forall l', l' ∈ neighbors_result w this 3 -> is_Some (heap w !! l')).
  { intros l'. by apply (neighbors_result_in_heap rt w l this 3). }
  eexists _, _, _, _.
  split; [exact (Cell_getNeighborsInRadius_Some l 3 w this Hl)|].
  split; [exact (Cell_getFlowDirection_first rt l w this Hl Hc Hns)|].
  cbv zeta. fold (neighbors_result w this 3).
  split; [done|]. split; [|split; [|split]].
  - intros Hnone. unfold neighbors_result. rewrite Hnone.
    change (default ?d None) with d.
    split; [by apply (neighbors_scan_NoDup rt)|].
    intros l'. apply neighbors_scan_present.
  - apply flow_of_flat.
  - exact (Cell_getFlowDirection_cached rt l _
             (Cell_with_flow _ true (with_neighbors_result w this 3))
             (lookup_insert_eq _ _ _) eq_refl).
  - intros w'' this'' Hl'' Hc''. by apply Cell_getFlowDirection_cached.
Qed.

Lemma C4_flow_direction_witness :
  exists w this ns w1 v w',
    reachable (demo_runtime no_tree_tape) (Q2Qc 50) sloped_frequencies w /\
    heap w !! 0%nat = Some this /\
    Cell_getNeighborsInRadius 0%nat 3 w = Some (ns, w1) /\
    Cell_getFlowDirection (demo_runtime no_tree_tape) 0%nat w = Some (v, w') /\
    v = flow_of (demo_runtime no_tree_tape) this (cells_of w ns) /\
    (forall l', l' ∈ ns <-> present_neighbor w this 3 l').
Proof.
  destruct (world_after (demo_runtime no_tree_tape) 1
              [OpGetCell 0 0; OpGetCell 1 0; OpGetCell 0 2; OpGetCell (-4) 0]
              (Q2Qc 50) sloped_frequencies) as [w|] eqn:Hw;
    [|by vm_compute in Hw].
  assert (Hsum :
    (fun w => (fun this => (Cell_flowDirectionCalculated this,
                            Cell_neighborsInRadius this)) <$> heap w !! 0%nat) <$>
    world_after (demo_runtime no_tree_tape) 1
      [OpGetCell 0 0; OpGetCell 1 0; OpGetCell 0 2; OpGetCell (-4) 0]
      (Q2Qc 50) sloped_frequencies
    = Some (Some (false, None))) by (vm_compute; reflexivity).
  rewrite Hw in Hsum. cbn [fmap option_fmap option_map] in Hsum.
  apply (inj Some) in Hsum.
  destruct (heap w !! 0%nat) as [this|] eqn:Hthis; [|done].
  cbn in Hsum. apply (inj Some) in Hsum.
  apply (f_equal fst) in Hsum as Hcalc. apply (f_equal snd) in Hsum as Hcache.
  cbn [fst snd] in Hcalc, Hcache.
  apply world_after_reachable in Hw.
  destruct (C4_flow_direction _ _ _ w 0%nat this Hw Hthis Hcalc)
    as (ns & w1 & v & w' & Hn & Hrun & Hv & Hfirst & _).
  exists w, this, ns, w1, v, w'. repeat (split; [done|]).
  apply Hfirst. by rewrite Hcache.
Defined.

(** ** C5: the radius query *)



(** ** C6: the cache of neighbours *)

(** C6, as stated, fails: the list cached for a radius is never invalidated.
    Cell (0, 0) is asked for its neighbours within radius 1 while it is alone;
    cell (1, 0) is then materialised; the second call still returns the
    empty list. *)
Lemma C6_stale_cache_counterexample :
  exists w this ns w' l',
    reachable (demo_runtime no_tree_tape) (Q2Qc 50) lattice_frequencies w /\
    heap w !! 0%nat = Some this /\
    Cell_getNeighborsInRadius 0%nat 1 w = Some (ns, w') /\
    present_neighbor w this 1 l' /\ l' ∉ ns.
Proof.
  destruct (world_after (demo_runtime no_tree_tape) 1
              [OpGetCell 0 0; OpGetNeighborsInRadius 0 1; OpGetCell 1 0]
              (Q2Qc 50) lattice_frequencies) as [w|] eqn:Hw;
    [|by vm_compute in Hw].
  assert (Hsum :
    (fun w => (Cell_x <$> heap w !! 0%nat, Cell_y <$> heap w !! 0%nat,
               fst <$> Cell_getNeighborsInRadius 0%nat 1 w,
               Grid_cells (grid w) !! Grid_getCellKey 1 0)) <$>
    world_after (demo_runtime no_tree_tape) 1
      [OpGetCell 0 0; OpGetNeighborsInRadius 0 1; OpGetCell 1 0]
      (Q2Qc 50) lattice_frequencies
    = Some (Some 0%Z, Some 0%Z, Some [], Some 1%nat)) by (vm_compute; reflexivity).
  rewrite Hw in Hsum. cbn [fmap option_fmap option_map] in Hsum.
  apply (inj Some) in Hsum.
  apply (f_equal snd) in Hsum as Hkey. cbn [snd] in Hkey.
  apply (f_equal fst) in Hsum. cbn [fst] in Hsum.
  apply (f_equal snd) in Hsum as Hns. cbn [snd] in Hns.
  apply (f_equal fst) in Hsum. cbn [fst] in Hsum.
  apply (f_equal snd) in Hsum as Hy. apply (f_equal fst) in Hsum as Hx.
  cbn [fst snd] in Hx, Hy.
  destruct (heap w !! 0%nat) as [this|] eqn:Hthis; [|done].
  cbn in Hx, Hy. apply (inj Some) in Hx. apply (inj Some) in Hy.
  destruct (Cell_getNeighborsInRadius 0%nat 1 w) as [[ns w']|] eqn:Hrun; [|done].
  cbn in Hns. apply (inj Some) in Hns. subst ns.
  exists w, this, [], w', 1%nat.
  split; [by apply world_after_reachable in Hw|]. split; [done|]. split; [done|].
  split; [|apply not_elem_of_nil].
  exists 1%Z, 0%Z. split; [done|]. rewrite Hx, Hy. split; [done|]. discriminate.
Qed.

(** C6, amended: the first call for a radius returns exactly the cells of the
    grid's map within that Chebyshev distance, the cell at the coordinates of
    [this] excluded, each of them once if the world is well formed, and
    stores the list; once a list is stored for the
    radius, a call returns it whatever the map has become.  The map is not
    changed. *)
Theorem C6_neighbors_cached_per_radius w l this r :
  heap w !! l = Some this ->
  exists ns w',
    Cell_getNeighborsInRadius l r w = Some (ns, w') /\
    (default ∅ (Cell_neighborsInRadius this) !! r = None ->
     forall l', l' ∈ ns <-> present_neighbor w this r l') /\
    (forall rt, world_ok rt w ->
       default ∅ (Cell_neighborsInRadius this) !! r = None -> NoDup ns) /\
    (forall cached, default ∅ (Cell_neighborsInRadius this) !! r = Some cached ->
                    ns = cached) /\
    (exists this', heap w' !! l = Some this' /\
                   default ∅ (Cell_neighborsInRadius this') !! r = Some ns) /\
    Grid_cells (grid w') = Grid_cells (grid w).
Proof.
  intros Hl. eexists _, _. split; [exact (Cell_getNeighborsInRadius_Some l r w this Hl)|].
  cbv zeta. split; [|split; [|split; [|split]]].
  - intros Hnone l'. rewrite Hnone. change (default ?d None) with d.
    apply neighbors_scan_present.
  - intros rt Hok Hnone. rewrite Hnone. change (default ?d None) with d.
    by apply (neighbors_scan_NoDup rt).
  - intros cached Hc. by rewrite Hc.
  - eexists. split; [apply lookup_insert_eq|].
    cbn [Cell_neighborsInRadius Cell_with_neighborsInRadius].
    change (default ∅ (Some ?t)) with t. apply lookup_insert_eq.
  - done.
Qed.

Lemma C6_neighbors_cached_per_radius_witness :
  exists w this ns w',
    reachable (demo_runtime no_tree_tape) (Q2Qc 50) lattice_frequencies w /\
    heap w !! 0%nat = Some this /\
    Cell_getNeighborsInRadius 0%nat 1 w = Some (ns, w') /\
    forall l', l' ∈ ns <-> present_neighbor w this 1 l'.
Proof.
  destruct (world_after (demo_runtime no_tree_tape) 1
              [OpGetCell 0 0; OpGetCell 1 0; OpGetCell 1 1; OpGetCell 5 5]
              (Q2Qc 50) lattice_frequencies) as [w|] eqn:Hw;
    [|by vm_compute in Hw].
  assert (Hsum :
    (fun w => (Cell_neighborsInRadius <$> heap w !! 0%nat)) <$>
    world_after (demo_runtime no_tree_tape) 1
      [OpGetCell 0 0; OpGetCell 1 0; OpGetCell 1 1; OpGetCell 5 5]
      (Q2Qc 50) lattice_frequencies
    = Some (Some None)) by (vm_compute; reflexivity).
  rewrite Hw in Hsum. cbn [fmap option_fmap option_map] in Hsum.
  apply (inj Some) in Hsum.
  destruct (heap w !! 0%nat) as [this|] eqn:Hthis; [|done].
  cbn in Hsum. apply (inj Some) in Hsum.
  destruct (C6_neighbors_cached_per_radius w 0%nat this 1 Hthis)
    as (ns & w' & Hrun & Hfirst & _).
  exists w, this, ns, w'.
  split; [by apply world_after_reachable in Hw|]. split; [done|]. split; [done|].
  apply Hfirst. by rewrite Hsum.
Defined.

(** ** C7: terrain is a function of the configuration *)

(** C7: two grids constructed with the same cell size and the same noise
    frequencies, in runtimes with the same trigonometry, whatever was done
    with each of them since: the cells that [getCell(x, y)] returns on the
    one and on the other have the same soil fertility, height, temperature
    and flags, which are those of the terrain of [(x, y)] as a function of
    the configuration; a second [getCell(x, y)] on one instance returns the
    same cell and changes nothing.  The calls do return, without a nested
    construction, in a runtime on whose stream no roll succeeds. *)
Theorem C7_terrain_deterministic rt1 rt2 cellSize f w1 w2 fuel1 fuel2 x y
    l1 w1' l2 w2' :
  same_trigonometry rt1 rt2 ->
  reachable rt1 cellSize f w1 -> reachable rt2 cellSize f w2 ->
  Grid_getCell rt1 fuel1 x y w1 = Some (l1, w1') ->
  Grid_getCell rt2 fuel2 x y w2 = Some (l2, w2') ->
  exists c1 c2,
    heap w1' !! l1 = Some c1 /\ heap w2' !! l2 = Some c2 /\
    Cell_soilFertility c1 = Cell_soilFertility c2 /\
    Cell_height c1 = Cell_height c2 /\
    Cell_temperature c1 = Cell_temperature c2 /\
    Cell_water c1 = Cell_water c2 /\ Cell_beach c1 = Cell_beach c2 /\
    Cell_frozen c1 = Cell_frozen c2 /\ Cell_desert c1 = Cell_desert c2 /\
    Cell_soilFertility c1 = terrain_soilFertility rt1 f x y /\
    Cell_height c1 = terrain_height rt1 f x y /\
    Cell_temperature c1 = terrain_temperature rt1 f x y /\
    (forall fuel, Grid_getCell rt1 fuel x y w1' = Some (l1, w1')) /\
    (forall rt x' y' w, rolls_fail rt ->
       exists l w', Grid_getCell rt 1 x' y' w = Some (l, w')).
Proof.
  intros Htrig Hr1 Hr2 Hrun1 Hrun2.
  destruct (Grid_getCell_terrain _ _ _ _ _ _ _ _ _ Hr1 Hrun1) as (Hkey1 & c1 & Hl1 & Ht1).
  destruct (Grid_getCell_terrain _ _ _ _ _ _ _ _ _ Hr2 Hrun2) as (_ & c2 & Hl2 & Ht2).
  rewrite <- (Cell_at_same_trigonometry rt1 rt2 _ _ _ _ Htrig) in Ht2.
  unfold Cell_at in Ht1, Ht2.
  apply Cell_terrain_init in Ht1 as (_ & _ & _ & Hs1 & Hh1 & Hte1 & Hw1 & Hb1 & Hf1 & Hd1).
  apply Cell_terrain_init in Ht2 as (_ & _ & _ & Hs2 & Hh2 & Hte2 & Hw2 & Hb2 & Hf2 & Hd2).
  exists c1, c2.
  split; [exact Hl1|]. split; [exact Hl2|].
  split; [by rewrite Hs1, Hs2|]. split; [by rewrite Hh1, Hh2|].
  split; [by rewrite Hte1, Hte2|]. split; [by rewrite Hw1, Hw2|].
  split; [by rewrite Hb1, Hb2|]. split; [by rewrite Hf1, Hf2|].
  split; [by rewrite Hd1, Hd2|]. split; [exact Hs1|]. split; [exact Hh1|].
  split; [exact Hte1|]. split.
  - intros fuel. by apply Grid_getCell_hit.
  - intros rt x' y' w Hrolls. by apply Grid_getCell_without_trees.
Qed.

Lemma C7_terrain_deterministic_witness :
  exists w1 w2 l1 w1' l2 w2' c1 c2,
    reachable (demo_runtime no_tree_tape) (Q2Qc 50) sloped_frequencies w1 /\
    reachable (demo_runtime one_tree_tape) (Q2Qc 50) sloped_frequencies w2 /\
    Grid_getCell (demo_runtime no_tree_tape) 1 3 (-2) w1 = Some (l1, w1') /\
    Grid_getCell (demo_runtime one_tree_tape) 2 3 (-2) w2 = Some (l2, w2') /\
    heap w1' !! l1 = Some c1 /\ heap w2' !! l2 = Some c2 /\
    Cell_soilFertility c1 = Cell_soilFertility c2 /\
    Cell_height c1 = Cell_height c2 /\
    Cell_temperature c1 = Cell_temperature c2.
Proof.
  destruct (world_after (demo_runtime no_tree_tape) 1 [OpGetCell 0 0]
              (Q2Qc 50) sloped_frequencies) as [w1|] eqn:Hw1;
    [|by vm_compute in Hw1].
  destruct (world_after (demo_runtime one_tree_tape) 2
              [OpGetCell 1 1; OpNewEntity (Q2Qc 10) (Q2Qc 10)]
              (Q2Qc 50) sloped_frequencies) as [w2|] eqn:Hw2;
    [|by vm_compute in Hw2].
  destruct (Grid_getCell (demo_runtime no_tree_tape) 1 3 (-2) w1)
    as [[l1 w1']|] eqn:Hrun1.
  2:{ assert (Hsome :
        (fun w => bool_decide
           (is_Some (Grid_getCell (demo_runtime no_tree_tape) 1 3 (-2) w))) <$>
        world_after (demo_runtime no_tree_tape) 1 [OpGetCell 0 0]
          (Q2Qc 50) sloped_frequencies = Some true) by (vm_compute; reflexivity).
      rewrite Hw1 in Hsome. cbn [fmap option_fmap option_map] in Hsome.
      apply (inj Some) in Hsome. apply bool_decide_eq_true in Hsome.
      rewrite Hrun1 in Hsome. by destruct Hsome. }
  destruct (Grid_getCell (demo_runtime one_tree_tape) 2 3 (-2) w2)
    as [[l2 w2']|] eqn:Hrun2.
  2:{ assert (Hsome :
        (fun w => bool_decide
           (is_Some (Grid_getCell (demo_runtime one_tree_tape) 2 3 (-2) w))) <$>
        world_after (demo_runtime one_tree_tape) 2
          [OpGetCell 1 1; OpNewEntity (Q2Qc 10) (Q2Qc 10)]
          (Q2Qc 50) sloped_frequencies = Some true) by (vm_compute; reflexivity).
      rewrite Hw2 in Hsome. cbn [fmap option_fmap option_map] in Hsome.
      apply (inj Some) in Hsome. apply bool_decide_eq_true in Hsome.
      rewrite Hrun2 in Hsome. by destruct Hsome. }
  apply world_after_reachable in Hw1, Hw2.
  assert (Htrig : same_trigonometry (demo_runtime no_tree_tape)
                                    (demo_runtime one_tree_tape)).
  { split; [reflexivity|]. split; reflexivity. }
  destruct (C7_terrain_deterministic _ _ _ _ _ _ _ _ _ _ _ _ _ _
              Htrig Hw1 Hw2 Hrun1 Hrun2)
    as (c1 & c2 & Hl1 & Hl2 & Hs & Hh & Ht & _).
  exists w1, w2, l1, w1', l2, w2', c1, c2.
  split; [exact Hw1|]. split; [exact Hw2|]. split; [exact Hrun1|].
  split; [exact Hrun2|]. split; [exact Hl1|]. split; [exact Hl2|].
  split; [exact Hs|]. split; [exact Hh|exact Ht].
Defined.

(** ** C8: queries create no cell *)

(** C8: in a world reached from a new game, [getEntitiesInRadius] and
    [getEntitiesInArea] return and leave the world as it is;
    [getNeighborsInRadius] on a cell returns and changes nothing but the
    cache of that cell: the map of the grid, the set of cell objects and the
    entities are the same before and after. *)
Theorem C8_queries_create_no_cell rt cellSize f w :
  reachable rt cellSize f w ->
  (forall cx cy r, exists res, Grid_getEntitiesInRadius cx cy r w = Some (res, w)) /\
  (forall x y width height,
     exists res, Grid_getEntitiesInArea x y width height w = Some (res, w)) /\
  (forall l this radius, heap w !! l = Some this ->
     exists ns w',
       Cell_getNeighborsInRadius l radius w = Some (ns, w') /\
       Grid_cells (grid w') = Grid_cells (grid w) /\
       dom (heap w') = dom (heap w) /\
       ents w' = ents w /\
       (forall l', l' <> l -> heap w' !! l' = heap w !! l') /\
       (forall l', l' ∈ ns -> is_Some (heap w !! l'))).
Proof.
  intros Hr. destruct (reachable_ok rt _ _ _ Hr) as (Hok & _).
  assert (Hcells : forall key l, Grid_cells (grid w) !! key = Some l ->
                                 is_Some (heap w !! l)).
  { intros key l Hk. destruct (ok_cells _ _ Hok key l Hk) as (c & Hc & _). by exists c. }
  assert (Hmembers : forall key l c e, Grid_cells (grid w) !! key = Some l ->
            heap w !! l = Some c -> e ∈ Cell_entities c -> is_Some (ents w !! e)).
  { intros key l c e _ Hl He. exact (ok_members _ _ Hok l c e Hl He). }
  split; [|split].
  - intros cx cy r. rewrite Grid_getEntitiesInRadius_sweep.
    destruct (sweep_spec (radius_test cx cy r) w Hcells Hmembers
                (range (Math_floor ((cx - r) / Grid_cellSize (grid w)))
                       (Math_floor ((cx + r) / Grid_cellSize (grid w))))
                (range (Math_floor ((cy - r) / Grid_cellSize (grid w)))
                       (Math_floor ((cy + r) / Grid_cellSize (grid w)))) ∅)
      as (res & Hrun & _).
    by exists res.
  - intros x y width height. rewrite Grid_getEntitiesInArea_sweep.
    match goal with |- exists res, sweep ?t ?xs ?ys ?a w = _ =>
      destruct (sweep_spec t w Hcells Hmembers xs ys a) as (res & Hrun & _)
    end.
    by exists res.
  - intros l this radius Hl. eexists _, _.
    split; [exact (Cell_getNeighborsInRadius_Some l radius w this Hl)|].
    cbv zeta. split; [reflexivity|]. split; [|split; [reflexivity|split]].
    + change (dom (<[l := Cell_with_neighborsInRadius
                             (Some (<[radius := neighbors_result w this radius]>
                                      (default ∅ (Cell_neighborsInRadius this)))) this]>
                     (heap w)) = dom (heap w)).
      rewrite dom_insert_L. apply elem_of_dom_2 in Hl. set_solver.
    + intros l' Hne.
      change ((<[l := Cell_with_neighborsInRadius
                        (Some (<[radius := neighbors_result w this radius]>
                                 (default ∅ (Cell_neighborsInRadius this)))) this]>
                 (heap w)) !! l' = heap w !! l').
      by rewrite lookup_insert_ne.
    + intros l' Hin.
      by apply (neighbors_result_in_heap rt w l this radius).
Qed.

Lemma C8_queries_create_no_cell_witness :
  exists w res ns w',
    reachable (demo_runtime one_tree_tape) (Q2Qc 50) lattice_frequencies w /\
    Grid_getEntitiesInRadius 0 0 (Q2Qc 500) w = Some (res, w) /\
    Cell_getNeighborsInRadius 0%nat 2 w = Some (ns, w') /\
    Grid_cells (grid w') = Grid_cells (grid w) /\
    dom (heap w') = dom (heap w).
Proof.
  destruct (world_after (demo_runtime one_tree_tape) 2
              [OpGetCell 0 0; OpGetCell 1 0; OpNewEntity (Q2Qc 70) (Q2Qc 10)]
              (Q2Qc 50) lattice_frequencies) as [w|] eqn:Hw;
    [|by vm_compute in Hw].
  assert (Hsum :
    (fun w => bool_decide (is_Some (heap w !! 0%nat))) <$>
    world_after (demo_runtime one_tree_tape) 2
      [OpGetCell 0 0; OpGetCell 1 0; OpNewEntity (Q2Qc 70) (Q2Qc 10)]
      (Q2Qc 50) lattice_frequencies = Some true) by (vm_compute; reflexivity).
  rewrite Hw in Hsum. cbn [fmap option_fmap option_map] in Hsum.
  apply (inj Some) in Hsum. apply bool_decide_eq_true in Hsum as [this Hthis].
  apply world_after_reachable in Hw.
  destruct (C8_queries_create_no_cell _ _ _ w Hw) as (Hradius & _ & Hneighbors).
  destruct (Hradius 0 0 (Q2Qc 500)) as (res & Hres).
  destruct (Hneighbors 0%nat this 2%Z Hthis) as (ns & w' & Hrun & Hmap & Hdom & _).
  exists w, res, ns, w'.
  split; [exact Hw|]. split; [exact Hres|]. split; [exact Hrun|].
  split; [exact Hmap|exact Hdom].
Defined.

(** ** C9: the chance of a key of the flora table *)

(** C9: what [calculateTreeSpawnChance] does with a key.  A key that is a
    member of [Object.prototype], such as [toString], is not in the table,
    yet the call writes no warning and returns [NaN], not 0.  A key that is
    neither in the table nor inherited gives the warning and the chance 0,
    and the first loop of [spawnTreesHere] goes on with the other types.  A
    type of the table gives, without a warning, the product of the three
    fitness values and 0.3, a fitness being 0 outside the range and
    [1 - |value - optimal| / max (optimal - min) (max - optimal)] inside. *)
Theorem C9_spawn_chance_by_key :
  (forall height soilFertility temperature treeType,
     treeType ∈ Object_prototype_keys ->
     assoc treeType treePreferences = None /\
     Cell_calculateTreeSpawnChance height soilFertility temperature treeType
     = (NaN, None)) /\
  (forall height soilFertility temperature,
     Cell_calculateTreeSpawnChance height soilFertility temperature "toString"
     = (NaN, None)) /\
  (forall height soilFertility temperature treeType,
     treePreferences_get treeType = Undefined ->
     Cell_calculateTreeSpawnChance height soilFertility temperature treeType
     = (Fin 0, Some ("Unknown tree type: " +:+ treeType))) /\
  (forall height soilFertility temperature treeType rest,
     treePreferences_get treeType = Undefined ->
     treeChances_of height soilFertility temperature (treeType :: rest)
     = ((treeChances_of height soilFertility temperature rest).1,
        ("Unknown tree type: " +:+ treeType)
          :: (treeChances_of height soilFertility temperature rest).2)) /\
  (forall height soilFertility temperature treeType p,
     assoc treeType treePreferences = Some p ->
     Cell_calculateTreeSpawnChance (Fin height) (Fin soilFertility) (Fin temperature)
       treeType
     = (Fin (chance_formula p height soilFertility temperature), None)).
Proof.
  assert (Hinh : forall height soilFertility temperature treeType,
     treeType ∈ Object_prototype_keys ->
     assoc treeType treePreferences = None /\
     Cell_calculateTreeSpawnChance height soilFertility temperature treeType
     = (NaN, None)).
  { intros h s t treeType Hin. split.
    - unfold Object_prototype_keys in Hin.
      repeat (apply elem_of_cons in Hin as [->|Hin]; [reflexivity|]).
      by apply elem_of_nil in Hin.
    - unfold Cell_calculateTreeSpawnChance.
      rewrite (treePreferences_get_inherited _ Hin). cbn [prefs_field].
      by rewrite !Cell_calculatePropertyFitness_NaN. }
  assert (Hund : forall height soilFertility temperature treeType,
     treePreferences_get treeType = Undefined ->
     Cell_calculateTreeSpawnChance height soilFertility temperature treeType
     = (Fin 0, Some ("Unknown tree type: " +:+ treeType))).
  { intros h s t treeType Hu. unfold Cell_calculateTreeSpawnChance. by rewrite Hu. }
  split; [exact Hinh|]. split; [|split; [exact Hund|split]].
  - intros h s t. apply Hinh. unfold Object_prototype_keys.
    do 8 apply list_elem_of_further. apply list_elem_of_here.
  - intros h s t treeType rest Hu. cbn [treeChances_of].
    rewrite (Hund _ _ _ _ Hu).
    destruct (treeChances_of h s t rest) as [chances warnings].
    cbn [fst snd JS.gt JS.lt]. by rewrite (proj2 (Qcltb_false 0 0) (Qcle_refl 0)).
  - intros h s t treeType p. apply Cell_calculateTreeSpawnChance_known.
Qed.

Lemma C9_spawn_chance_by_key_witness :
  Cell_calculateTreeSpawnChance (Fin (Q2Qc 0.5)) (Fin (Q2Qc 0.5)) (Fin (Q2Qc 0.5)) "elm"
  = (Fin 0, Some "Unknown tree type: elm") /\
  Cell_calculateTreeSpawnChance (Fin (Q2Qc 0.5)) (Fin (Q2Qc 0.5)) (Fin (Q2Qc 0.5))
    "valueOf" = (NaN, None) /\
  exists p, assoc "oak" treePreferences = Some p /\
    Cell_calculateTreeSpawnChance (Fin (Q2Qc 0.5)) (Fin (Q2Qc 0.5)) (Fin (Q2Qc 0.5))
      "oak"
    = (Fin (chance_formula p (Q2Qc 0.5) (Q2Qc 0.5) (Q2Qc 0.5)), None).
Proof.
  destruct C9_spawn_chance_by_key as (Hinh & _ & Hund & _ & Hknown).
  split; [|split].
  - apply (Hund (Fin (Q2Qc 0.5)) (Fin (Q2Qc 0.5)) (Fin (Q2Qc 0.5)) "elm").
    reflexivity.
  - apply (Hinh (Fin (Q2Qc 0.5)) (Fin (Q2Qc 0.5)) (Fin (Q2Qc 0.5)) "valueOf").
    unfold Object_prototype_keys.
    do 9 apply list_elem_of_further. apply list_elem_of_here.
  - eexists. split; [reflexivity|].
    apply (Hknown (Q2Qc 0.5) (Q2Qc 0.5) (Q2Qc 0.5) "oak"). reflexivity.
Defined.

(** ** C10: what [clear] leaves *)




(** * Further properties of the code *)

(** ** The noise generator *)


(** X2: The memo tables are transparent: after any samples, the value at a point
    is the function [noise_pure] of the seed and the point; a second call at
    the point returns the value without changing the generator; and the
    value is returned again whatever is sampled in between. *)
Theorem noise_memo_transparent rt s qs x y :
  (noise rt (noise_history rt (PerlinNoise_new s) qs) x y).1 = noise_pure rt s x y /\
  noise rt (noise rt (noise_history rt (PerlinNoise_new s) qs) x y).2 x y
  = noise rt (noise_history rt (PerlinNoise_new s) qs) x y /\
  forall qs',
    (noise rt (noise_history rt (PerlinNoise_new s) (qs ++ (x, y) :: qs')) x y).1
    = (noise rt (noise_history rt (PerlinNoise_new s) qs) x y).1.
Proof.
  split; [apply noise_history_value|]. split.
  - rewrite (noise_hit rt _ x y _ (noise_stored rt _ x y)).
    by destruct (noise rt _ x y).
  - intros qs'. by rewrite !noise_history_value.
Qed.




(** ** The flora table *)



(** X6: Two inputs on which [calculatePropertyFitness] returns [NaN], not a
    fitness: a range reduced to one point, at that point (the quotient is
    [0 / 0]); and a value that is [NaN], which no comparison rejects. *)
Theorem Cell_calculatePropertyFitness_not_a_number :
  (forall v, Cell_calculatePropertyFitness (Fin v) (Fin v) (Fin v) (Fin v) = NaN) /\
  (forall min max optimal,
     Cell_calculatePropertyFitness NaN min max optimal = NaN).
Proof.
  split.
  - intros v. unfold Cell_calculatePropertyFitness. cbn [JS.lt JS.gt].
    assert (Hirr : Qcltb v v = false) by (apply Qcltb_false, Qcle_refl).
    rewrite Hirr. cbn [orb]. rewrite !JS_sub_Fin.
    assert (Hz : v - v = 0) by ring. rewrite Hz. reflexivity.
  - intros min max optimal. unfold Cell_calculatePropertyFitness.
    assert (H1 : JS.lt NaN min = false) by by destruct min.
    assert (H2 : JS.gt NaN max = false) by by destruct max.
    rewrite H1, H2. cbn [orb].
    assert (H3 : JS.sub NaN optimal = NaN) by by destruct optimal.
    rewrite H3. cbn [JS.abs].
    assert (H4 : forall d, JS.div NaN d = NaN) by (intros d; by destruct d).
    by rewrite H4.
Qed.

(** X7: For every type of [Tree.types] and finite terrain values,
    [calculateTreeSpawnChance] writes no warning and returns a number
    between 0 and the base rate 0.3. *)
Theorem Cell_calculateTreeSpawnChance_bounds height soilFertility temperature treeType :
  treeType ∈ Tree_types ->
  exists c,
    Cell_calculateTreeSpawnChance (Fin height) (Fin soilFertility) (Fin temperature)
      treeType = (Fin c, None) /\
    0 <= c /\ c <= Q2Qc 0.3.
Proof.
  intros Hin.
  pose proof Tree_types_known as Hknown. rewrite Forall_forall in Hknown.
  destruct (Hknown treeType Hin) as [p Hp].
  exists (chance_formula p height soilFertility temperature).
  split; [by apply Cell_calculateTreeSpawnChance_known|].
  pose proof (treePreferences_proper treeType p Hp) as Hproper.
  split; [by apply chance_formula_nonneg|by apply chance_formula_bound].
Qed.

Lemma Cell_calculateTreeSpawnChance_bounds_witness :
  exists c,
    Cell_calculateTreeSpawnChance (Fin (Q2Qc 0.5)) (Fin (Q2Qc 0.5)) (Fin (Q2Qc 0.5))
      "palm" = (Fin c, None) /\ 0 <= c /\ c <= Q2Qc 0.3.
Proof.
  apply (Cell_calculateTreeSpawnChance_bounds (Q2Qc 0.5) (Q2Qc 0.5) (Q2Qc 0.5) "palm").
  unfold Tree_types. do 3 apply list_elem_of_further. apply list_elem_of_here.
Defined.

(** X8: The candidates are tried from the highest chance down: the sort of
    [spawnTreesHere] returns the same candidates, and, their chances being
    numbers, none is followed by a candidate of a higher chance. *)
Theorem sort_by_chance_descending l :
  sort_by_chance l ≡ₚ l /\
  (Forall (fun a => exists c, a.2 = Fin c) l ->
   StronglySorted (fun a b => JS.lt a.2 b.2 = false) (sort_by_chance l)).
Proof.
  split.
  - unfold sort_by_chance. induction l as [|a l IH]; cbn [foldr]; [done|].
    rewrite insert_by_chance_Permutation. by rewrite IH.
  - unfold sort_by_chance. induction 1 as [|a l Ha Hl IH]; cbn [foldr].
    + apply SSorted_nil.
    + apply insert_by_chance_sorted; [done| |done].
      by apply (sort_by_chance_Forall (fun a => exists c, a.2 = Fin c)).
Qed.

Lemma sort_by_chance_descending_witness :
  StronglySorted (fun a b => JS.lt a.2 b.2 = false)
    (sort_by_chance [("palm", Fin (Q2Qc 0.01)); ("oak", Fin (Q2Qc 0.08))]).
Proof.
  apply (sort_by_chance_descending
           [("palm", Fin (Q2Qc 0.01)); ("oak", Fin (Q2Qc 0.08))]).
  repeat (apply Forall_cons; split; [by eexists|]). apply Forall_nil_2.
Defined.

(** ** The entity index and the queries *)



(** X10: [removeEntity] returns for every entity; it takes the entity out of the
    set of its current cell and of no other set, makes it untracked, and
    changes nothing else; on an untracked entity it changes nothing at all,
    so a second call is without effect.  If the entity was a member of its
    current cell only, no set contains it afterwards. *)
Theorem Grid_removeEntity_untracks w e E :
  ents w !! e = Some E ->
  exists w',
    Grid_removeEntity e w = Some (tt, w') /\
    ents w' = <[e := Entity_with_currentCell None E]> (ents w) /\
    grid w' = grid w /\
    (forall l c, heap w !! l = Some c ->
       heap w' !! l =
       Some (if bool_decide (Entity_currentCell E = Some l)
             then Cell_with_entities (Cell_entities c ∖ {[e]}) c else c)) /\
    (Entity_currentCell E = None -> w' = w) /\
    Grid_removeEntity e w' = Some (tt, w') /\
    (membership_ok w e ->
     forall l c, heap w' !! l = Some c -> e ∉ Cell_entities c).
Proof.
  intros HE. eexists. split; [exact (Grid_removeEntity_Some e E w HE)|].
  destruct (Entity_currentCell E) as [cell|] eqn:Hcur.
  - split; [|split; [reflexivity|split; [|split; [discriminate|split]]]].
    + cbn [ents with_ents]. apply map_eq. intros e'.
      destruct (decide (e = e')) as [<-|Hne].
      * by rewrite lookup_alter_eq, lookup_insert_eq, HE.
      * by rewrite lookup_alter_ne, lookup_insert_ne.
    + intros l c Hl. cbn [heap with_ents with_heap].
      destruct (decide (cell = l)) as [->|Hne].
      * rewrite lookup_alter_eq, Hl. by rewrite bool_decide_eq_true_2.
      * rewrite lookup_alter_ne by exact Hne. rewrite Hl.
        rewrite bool_decide_eq_false_2; [done|]. intros Heq.
        apply (inj Some) in Heq. by destruct Hne.
    + rewrite (Grid_removeEntity_Some e (Entity_with_currentCell None E)).
      * cbn [Entity_currentCell Entity_with_currentCell]. reflexivity.
      * cbn [ents with_ents]. by rewrite lookup_alter_eq, HE.
    + intros Hm l c. specialize (Hm E HE). rewrite Hcur in Hm.
      destruct Hm as [_ Huniq]. cbn [heap with_ents with_heap].
      destruct (decide (cell = l)) as [->|Hne].
      * rewrite lookup_alter_eq. destruct (heap w !! l) as [c0|]; [|done].
        cbn. intros Heq. apply (inj Some) in Heq. subst c.
        cbn [Cell_entities Cell_with_entities]. set_solver.
      * rewrite lookup_alter_ne by exact Hne. intros Hl Hin.
        apply Hne. symmetry. by apply (Huniq l c).
  - split; [|split; [reflexivity|split; [|split; [done|split]]]].
    + apply map_eq. intros e'. destruct (decide (e = e')) as [<-|Hne].
      * rewrite lookup_insert_eq, HE. f_equal.
        destruct E as [p c t]. cbn in Hcur. by subst c.
      * by rewrite lookup_insert_ne.
    + intros l c Hl. rewrite Hl. by rewrite bool_decide_eq_false_2.
    + rewrite (Grid_removeEntity_Some e E w HE). by rewrite Hcur.
    + intros Hm l c. specialize (Hm E HE). rewrite Hcur in Hm. apply Hm.
Qed.

Lemma Grid_removeEntity_untracks_witness :
  exists w E w',
    ents w !! 0%nat = Some E /\
    Grid_removeEntity 0%nat w = Some (tt, w') /\
    Grid_removeEntity 0%nat w' = Some (tt, w').
Proof.
  destruct (world_after (demo_runtime no_tree_tape) 1
              [OpNewEntity (Q2Qc 10) (Q2Qc 10)]
              (Q2Qc 50) lattice_frequencies) as [w|] eqn:Hw;
    [|by vm_compute in Hw].
  assert (Hsum :
    (fun w => bool_decide (is_Some (ents w !! 0%nat))) <$>
    world_after (demo_runtime no_tree_tape) 1 [OpNewEntity (Q2Qc 10) (Q2Qc 10)]
      (Q2Qc 50) lattice_frequencies = Some true) by (vm_compute; reflexivity).
  rewrite Hw in Hsum. cbn [fmap option_fmap option_map] in Hsum.
  apply (inj Some) in Hsum. apply bool_decide_eq_true in Hsum as [E HE].
  destruct (Grid_removeEntity_untracks w 0%nat E HE)
    as (w' & Hrun & _ & _ & _ & _ & Hagain & _).
  exists w, E, w'. split; [exact HE|]. split; [exact Hrun|exact Hagain].
Defined.

(** X11: [updateEntity] of an entity whose position lies in a cell of the map: if
    that cell is the current cell of the entity nothing changes; otherwise
    the entity leaves the set of its current cell, if it has one, enters the
    set of the cell of its position, which becomes its current cell, and
    nothing else changes.  No cell is constructed. *)
Theorem Grid_updateEntity_in_map rt fuel w e E l' :
  ents w !! e = Some E ->
  Grid_cells (grid w) !!
    Grid_getCellKey
      (Grid_worldToCell (grid w) (Entity_position E).1 (Entity_position E).2).1
      (Grid_worldToCell (grid w) (Entity_position E).1 (Entity_position E).2).2
  = Some l' ->
  exists w',
    Grid_updateEntity rt fuel e w = Some (tt, w') /\
    (Entity_currentCell E = Some l' -> w' = w) /\
    (Entity_currentCell E <> Some l' ->
     ents w' = <[e := Entity_with_currentCell (Some l') E]> (ents w) /\
     grid w' = grid w /\
     forall l c, heap w !! l = Some c ->
       heap w' !! l =
       Some (if bool_decide (l = l')
             then Cell_with_entities (Cell_entities c ∪ {[e]}) c
             else if bool_decide (Entity_currentCell E = Some l)
                  then Cell_with_entities (Cell_entities c ∖ {[e]}) c
                  else c)).
Proof.
  intros HE Hk.
  destruct (decide (Entity_currentCell E = Some l')) as [Hcur|Hcur].
  - exists w. split; [|split; [done|done]].
    unfold Grid_updateEntity. apply bind_Some. exists E, w.
    split; [by apply read_entity_Some|].
    apply bind_Some. exists l', w. split; [by apply Grid_getCellAtWorldPos_hit|].
    apply bind_Some. exists E, w. split; [by apply read_entity_Some|].
    by rewrite bool_decide_eq_true_2.
  - set (h1 := match Entity_currentCell E with
               | Some cell => alter (fun c =>
                   Cell_with_entities (Cell_entities c ∖ {[e]}) c) cell (heap w)
               | None => heap w
               end).
    set (h2 := alter (fun c => Cell_with_entities (Cell_entities c ∪ {[e]}) c) l' h1).
    exists (with_ents (alter (Entity_with_currentCell (Some l')) e (ents w))
              (with_heap h2 w)).
    split; [|split; [done|]].
    + unfold Grid_updateEntity. apply bind_Some. exists E, w.
      split; [by apply read_entity_Some|].
      apply bind_Some. exists l', w. split; [by apply Grid_getCellAtWorldPos_hit|].
      apply bind_Some. exists E, w. split; [by apply read_entity_Some|].
      rewrite bool_decide_eq_false_2 by exact Hcur.
      apply bind_Some. exists tt, (with_heap h1 w). split.
      { subst h1. destruct (Entity_currentCell E); [reflexivity|].
        by destruct w. }
      apply bind_Some. exists tt, (with_heap h2 w). split; [reflexivity|].
      reflexivity.
    + intros _. split; [|split; [reflexivity|]].
      * cbn [ents with_ents with_heap]. apply map_eq. intros e'.
        destruct (decide (e = e')) as [<-|Hne].
        -- by rewrite lookup_alter_eq, lookup_insert_eq, HE.
        -- by rewrite lookup_alter_ne, lookup_insert_ne.
      * intros l c Hl. cbn [heap with_ents with_heap]. subst h2 h1.
        destruct (decide (l = l')) as [->|Hne].
        -- rewrite lookup_alter_eq, bool_decide_eq_true_2 by reflexivity.
           destruct (Entity_currentCell E) as [cell|].
           ++ rewrite lookup_alter_ne, Hl; [reflexivity|].
              intros ->. by apply Hcur.
           ++ by rewrite Hl.
        -- rewrite lookup_alter_ne by (intros ->; by apply Hne).
           rewrite (bool_decide_eq_false_2 (l = l')) by exact Hne.
           destruct (Entity_currentCell E) as [cell|].
           ++ destruct (decide (cell = l)) as [->|Hne'].
              ** by rewrite lookup_alter_eq, Hl, bool_decide_eq_true_2.
              ** rewrite lookup_alter_ne, Hl by exact Hne'.
                 rewrite bool_decide_eq_false_2; [done|].
                 intros Heq. apply (inj Some) in Heq. by apply Hne'.
           ++ rewrite Hl. by rewrite bool_decide_eq_false_2.
Qed.

Lemma Grid_updateEntity_in_map_witness :
  exists w E l' w',
    ents w !! 0%nat = Some E /\
    Entity_currentCell E <> Some l' /\
    Grid_updateEntity (demo_runtime no_tree_tape) 0 0%nat w = Some (tt, w') /\
    ents w' = <[0%nat := Entity_with_currentCell (Some l') E]> (ents w).
Proof.
  destruct (world_after (demo_runtime no_tree_tape) 1
              [OpNewEntity (Q2Qc 10) (Q2Qc 10); OpGetCell 1 0;
               OpSetPosition 0 (Q2Qc 70) (Q2Qc 10)]
              (Q2Qc 50) lattice_frequencies) as [w|] eqn:Hw;
    [|by vm_compute in Hw].
  assert (Hsum :
    (fun w =>
       match ents w !! 0%nat with
       | Some E =>
           Some (Entity_currentCell E,
                 Grid_cells (grid w) !!
                   Grid_getCellKey
                     (Grid_worldToCell (grid w) (Entity_position E).1
                        (Entity_position E).2).1
                     (Grid_worldToCell (grid w) (Entity_position E).1
                        (Entity_position E).2).2)
       | None => None
       end) <$>
    world_after (demo_runtime no_tree_tape) 1
      [OpNewEntity (Q2Qc 10) (Q2Qc 10); OpGetCell 1 0;
       OpSetPosition 0 (Q2Qc 70) (Q2Qc 10)]
      (Q2Qc 50) lattice_frequencies
    = Some (Some (Some 0%nat, Some 1%nat))) by (vm_compute; reflexivity).
  rewrite Hw in Hsum. cbn [fmap option_fmap option_map] in Hsum.
  apply (inj Some) in Hsum.
  destruct (ents w !! 0%nat) as [E|] eqn:HE; [|discriminate Hsum].
  apply (inj Some) in Hsum.
  apply (f_equal fst) in Hsum as Hcur. apply (f_equal snd) in Hsum as Hk.
  cbn [fst snd] in Hcur, Hk.
  assert (Hne : Entity_currentCell E <> Some 1%nat).
  { rewrite Hcur. discriminate. }
  destruct (Grid_updateEntity_in_map (demo_runtime no_tree_tape) 0 w 0%nat E 1%nat
              HE Hk) as (w' & Hrun & _ & Hmove).
  destruct (Hmove Hne) as (Hents & _).
  exists w, E, 1%nat, w'.
  split; [exact HE|]. split; [exact Hne|]. split; [exact Hrun|exact Hents].
Defined.



(** X13: [game.clearEntities()], the entities of the game being objects: it
    returns; the map of the grid is empty afterwards; every entity of the
    game is untracked, the others are as they were; and, unlike after
    [grid.clear()] alone, an entity of the game that was a member of its
    current cell only is a member of no cell object, in the map or not. *)
Theorem Game_clearEntities_untracks entities w :
  (forall e, e ∈ entities -> is_Some (ents w !! e)) ->
  exists w',
    Game_clearEntities entities w = Some (tt, w') /\
    Grid_cells (grid w') = ∅ /\
    (forall e E, e ∈ entities -> ents w' !! e = Some E ->
       Entity_currentCell E = None) /\
    (forall e, e ∉ entities -> ents w' !! e = ents w !! e) /\
    (forall e l c, e ∈ entities -> membership_ok w e ->
       heap w' !! l = Some c -> e ∉ Cell_entities c).
Proof.
  intros Hes. destruct (destroy_all entities w Hes)
    as (w1 & Hrun1 & Hg1 & He1 & Hh1 & Hn1).
  eexists. split.
  { unfold Game_clearEntities. apply bind_Some. exists tt, w1.
    split; [exact Hrun1|apply Grid_clear_Some]. }
  split; [reflexivity|]. cbn [ents heap with_grid with_heap]. split; [|split].
  - intros e E Hin HE. rewrite He1, bool_decide_eq_true_2 in HE by exact Hin.
    destruct (ents w !! e) as [E0|]; [|done]. cbn in HE.
    apply (inj Some) in HE. by subst E.
  - intros e Hnin. by rewrite He1, bool_decide_eq_false_2.
  - intros e l c Hin Hm. rewrite lookup_cleared.
    destruct (heap w !! l) as [c0|] eqn:Hl.
    + destruct (Hh1 l c0 Hl) as (c1 & Hc1 & _ & _ & Hout). rewrite Hc1.
      destruct (decide (l ∈ _)).
      * cbn. intros Heq. apply (inj Some) in Heq. subst c.
        apply not_elem_of_empty.
      * intros Heq. apply (inj Some) in Heq. subst c. by apply Hout.
    + rewrite (Hn1 l Hl). by destruct (decide (l ∈ _)).
Qed.

Lemma Game_clearEntities_untracks_witness :
  exists w w',
    reachable (demo_runtime one_tree_tape) (Q2Qc 50) lattice_frequencies w /\
    Game_clearEntities [0%nat; 1%nat] w = Some (tt, w') /\
    Grid_cells (grid w') = ∅ /\
    forall e E, e ∈ [0%nat; 1%nat] -> ents w' !! e = Some E ->
      Entity_currentCell E = None.
Proof.
  destruct (world_after (demo_runtime one_tree_tape) 2
              [OpGetCell 0 0; OpNewEntity (Q2Qc 70) (Q2Qc 10)]
              (Q2Qc 50) lattice_frequencies) as [w|] eqn:Hw;
    [|by vm_compute in Hw].
  assert (Hsum :
    (fun w => forallb (fun e => bool_decide (is_Some (ents w !! e))) [0%nat; 1%nat]) <$>
    world_after (demo_runtime one_tree_tape) 2
      [OpGetCell 0 0; OpNewEntity (Q2Qc 70) (Q2Qc 10)]
      (Q2Qc 50) lattice_frequencies = Some true) by (vm_compute; reflexivity).
  rewrite Hw in Hsum. cbn [fmap option_fmap option_map] in Hsum.
  apply (inj Some) in Hsum. rewrite forallb_forall in Hsum.
  assert (Hes : forall e, e ∈ [0%nat; 1%nat] -> is_Some (ents w !! e)).
  { intros e He. apply list_elem_of_In in He. apply Hsum in He.
    by apply bool_decide_eq_true in He. }
  destruct (Game_clearEntities_untracks [0%nat; 1%nat] w Hes)
    as (w' & Hrun & Hmap & Hcur & _).
  exists w, w'. split; [by apply world_after_reachable in Hw|].
  split; [exact Hrun|]. split; [exact Hmap|exact Hcur].
Defined.

(** ** What runs keep *)

(** X14: A cell object is never destroyed and its terrain never changes: whatever
    operations run, [clear] included, the object is still there with its
    coordinates, its cell size and origin, its soil fertility, height and
    temperature, and its four flags. *)
Theorem Cell_terrain_is_permanent rt fuel ops w w' l c :
  run_ops rt fuel ops w = Some (tt, w') -> heap w !! l = Some c ->
  exists c',
    heap w' !! l = Some c' /\
    Cell_x c' = Cell_x c /\ Cell_y c' = Cell_y c /\
    Cell_cellSize c' = Cell_cellSize c /\
    Cell_worldX c' = Cell_worldX c /\ Cell_worldY c' = Cell_worldY c /\
    Cell_soilFertility c' = Cell_soilFertility c /\
    Cell_height c' = Cell_height c /\
    Cell_temperature c' = Cell_temperature c /\
    Cell_water c' = Cell_water c /\ Cell_beach c' = Cell_beach c /\
    Cell_frozen c' = Cell_frozen c /\ Cell_desert c' = Cell_desert c.
Proof.
  intros Hrun Hl. destruct (run_ops_persists rt fuel ops w tt w' Hrun) as [[_ Hh] _].
  destruct (Hh l c Hl) as (c' & Hl' & Hx & Hy & Ht & _).
  exists c'. split; [exact Hl'|]. split; [exact Hx|]. split; [exact Hy|].
  unfold Cell_terrain in Ht.
  split; [exact (f_equal (fun t : Qc * Qc * Qc * Qc * Qc * Qc * Qc
                              * (bool * bool * bool * bool) =>
                            t.1.1.1.1.1.1.1) Ht)|].
  split; [exact (f_equal (fun t : Qc * Qc * Qc * Qc * Qc * Qc * Qc
                              * (bool * bool * bool * bool) =>
                            t.1.1.1.1.1.1.2) Ht)|].
  split; [exact (f_equal (fun t : Qc * Qc * Qc * Qc * Qc * Qc * Qc
                              * (bool * bool * bool * bool) =>
                            t.1.1.1.1.1.2) Ht)|].
  split; [exact (f_equal (fun t : Qc * Qc * Qc * Qc * Qc * Qc * Qc
                              * (bool * bool * bool * bool) =>
                            t.1.1.1.1.2) Ht)|].
  split; [exact (f_equal (fun t : Qc * Qc * Qc * Qc * Qc * Qc * Qc
                              * (bool * bool * bool * bool) =>
                            t.1.1.1.2) Ht)|].
  split; [exact (f_equal (fun t : Qc * Qc * Qc * Qc * Qc * Qc * Qc
                              * (bool * bool * bool * bool) =>
                            t.1.1.2) Ht)|].
  split; [exact (f_equal (fun t : Qc * Qc * Qc * Qc * Qc * Qc * Qc
                              * (bool * bool * bool * bool) =>
                            t.2.1.1.1) Ht)|].
  split; [exact (f_equal (fun t : Qc * Qc * Qc * Qc * Qc * Qc * Qc
                              * (bool * bool * bool * bool) =>
                            t.2.1.1.2) Ht)|].
  split; [exact (f_equal (fun t : Qc * Qc * Qc * Qc * Qc * Qc * Qc
                              * (bool * bool * bool * bool) =>
                            t.2.1.2) Ht)|].
  exact (f_equal (fun t : Qc * Qc * Qc * Qc * Qc * Qc * Qc
                              * (bool * bool * bool * bool) =>
                            t.2.2) Ht).
Qed.

Lemma Cell_terrain_is_permanent_witness :
  exists w w' c c',
    run_ops (demo_runtime no_tree_tape) 1
      [OpNewEntity (Q2Qc 10) (Q2Qc 10); OpGetFlowDirection 0; OpClear; OpGetCell 0 0]
      w = Some (tt, w') /\
    heap w !! 0%nat = Some c /\ heap w' !! 0%nat = Some c' /\
    Cell_height c' = Cell_height c.
Proof.
  destruct (world_after (demo_runtime no_tree_tape) 1 [OpGetCell 0 0]
              (Q2Qc 50) sloped_frequencies) as [w|] eqn:Hw;
    [|by vm_compute in Hw].
  assert (Hsum :
    (fun w => (bool_decide (is_Some (heap w !! 0%nat)),
               bool_decide (is_Some (run_ops (demo_runtime no_tree_tape) 1
                 [OpNewEntity (Q2Qc 10) (Q2Qc 10); OpGetFlowDirection 0; OpClear;
                  OpGetCell 0 0] w)))) <$>
    world_after (demo_runtime no_tree_tape) 1 [OpGetCell 0 0]
      (Q2Qc 50) sloped_frequencies = Some (true, true)) by (vm_compute; reflexivity).
  rewrite Hw in Hsum. cbn [fmap option_fmap option_map] in Hsum.
  apply (inj Some) in Hsum.
  apply (f_equal fst) in Hsum as Hc. apply (f_equal snd) in Hsum as Hr.
  cbn [fst snd] in Hc, Hr.
  apply bool_decide_eq_true in Hc as [c Hc].
  apply bool_decide_eq_true in Hr as [[[] w'] Hr].
  destruct (Cell_terrain_is_permanent _ _ _ _ _ _ _ Hr Hc)
    as (c' & Hc' & _ & _ & _ & _ & _ & _ & Hh & _).
  exists w, w', c, c'. split; [exact Hr|]. split; [exact Hc|].
  split; [exact Hc'|exact Hh].
Defined.



(** X16: The program never writes the warning of [calculateTreeSpawnChance]: the
    console of every world reached from a new game is empty, every type of
    [Tree.types] being in the table. *)
Theorem console_stays_empty rt cellSize f w :
  reachable rt cellSize f w -> console w = [].
Proof.
  intros (fuel & ops & Hrun).
  destruct (run_ops_persists rt fuel ops _ tt w Hrun) as [[Hc _] _]. exact Hc.
Qed.

Lemma console_stays_empty_witness :
  exists w,
    reachable (demo_runtime one_tree_tape) (Q2Qc 50) lattice_frequencies w /\
    console w = [].
Proof.
  destruct (world_after (demo_runtime one_tree_tape) 2
              [OpGetCell 0 0; OpNewEntity (Q2Qc 70) (Q2Qc 10); OpClear; OpGetCell 0 0]
              (Q2Qc 50) lattice_frequencies) as [w|] eqn:Hw;
    [|by vm_compute in Hw].
  apply world_after_reachable in Hw. exists w. split; [exact Hw|].
  exact (console_stays_empty _ _ _ w Hw).
Defined.

(** X17: [recalculateFlowDirection] cannot change a flow direction: once the
    first [getFlowDirection] of a cell has returned a vector, whatever
    operations run afterwards, a recalculation returns; it reads the list of
    neighbours cached for radius 3 and heights that have not changed, and
    stores the same vector again. *)
Theorem Cell_recalculateFlowDirection_same_vector rt cellSize f w l this v w1
    fuel ops w2 :
  reachable rt cellSize f w -> heap w !! l = Some this ->
  Cell_flowDirectionCalculated this = false ->
  Cell_getFlowDirection rt l w = Some (v, w1) ->
  run_ops rt fuel ops w1 = Some (tt, w2) ->
  exists w3,
    Cell_recalculateFlowDirection rt l w2 = Some (tt, w3) /\
    Cell_getFlowDirection rt l w3 = Some (v, w3).
Proof.
  intros Hr Hl Hcalc Hget Hops.
  destruct (reachable_ok rt _ _ _ Hr) as (Hok & _).
  assert (Hns : forall l', l' ∈ neighbors_result w this 3 -> is_Some (heap w !! l')).
  { intros l'. by apply (neighbors_result_in_heap rt w l this 3). }
  rewrite (Cell_getFlowDirection_first rt l w this Hl Hcalc Hns) in Hget.
  cbv zeta in Hget. apply (inj Some) in Hget.
  apply (f_equal fst) in Hget as Hv. apply (f_equal snd) in Hget as Hw1.
  cbn [fst snd] in Hv, Hw1.
  set (ns := neighbors_result w this 3) in *.
  set (this1 := Cell_with_flow (flow_of rt this (cells_of w ns)) true
                  (with_neighbors_result w this 3)) in *.
  assert (Hl1 : heap w1 !! l = Some this1).
  { rewrite <- Hw1. cbn [heap with_heap]. apply lookup_insert_eq. }
  assert (Hcache1 : default ∅ (Cell_neighborsInRadius this1) !! 3%Z = Some ns).
  { subst this1. unfold with_neighbors_result.
    cbn [Cell_neighborsInRadius Cell_with_flow Cell_with_neighborsInRadius].
    change (default ∅ (Some ?t)) with t. apply lookup_insert_eq. }
  assert (Hgeo1 : forall l' c, heap w !! l' = Some c ->
            exists c1, heap w1 !! l' = Some c1 /\ geo c1 = geo c).
  { intros l' c Hl'. rewrite <- Hw1. cbn [heap with_heap].
    destruct (decide (l = l')) as [<-|Hne].
    - rewrite lookup_insert_eq. exists this1. split; [reflexivity|].
      rewrite Hl in Hl'. apply (inj Some) in Hl'. by subst c.
    - rewrite lookup_insert_ne by exact Hne. by exists c. }
  destruct (run_ops_persists rt fuel ops w1 tt w2 Hops) as [Hp _].
  destruct (persists_geo w1 w2 l this1 Hp Hl1) as (this2 & Hl2 & Hg2 & Hn2).
  pose proof (Hn2 3%Z ns Hcache1) as Hcache2.
  assert (Hgeo2 : forall l', l' ∈ ns ->
            geo <$> heap w2 !! l' = geo <$> heap w !! l').
  { intros l' Hin. destruct (Hns l' Hin) as [c Hc].
    destruct (Hgeo1 l' c Hc) as (c1 & Hc1 & Hg1).
    destruct (persists_geo w1 w2 l' c1 Hp Hc1) as (c2 & Hc2 & Hg & _).
    rewrite Hc2, Hc. cbn. f_equal. by rewrite Hg, Hg1. }
  assert (Hns2 : forall l', l' ∈ neighbors_result w2 this2 3 ->
            is_Some (heap w2 !! l')).
  { rewrite (neighbors_result_cached w2 this2 3 ns Hcache2). intros l' Hin.
    specialize (Hgeo2 l' Hin). destruct (Hns l' Hin) as [c Hc].
    rewrite Hc in Hgeo2. destruct (heap w2 !! l') as [c2|]; [by eexists|done]. }
  eexists. split; [exact (Cell_recalculateFlowDirection_Some rt l w2 this2 Hl2 Hns2)|].
  cbv zeta. rewrite (neighbors_result_cached w2 this2 3 ns Hcache2).
  assert (Hsame : flow_of rt this2 (cells_of w2 ns) = v).
  { rewrite <- Hv. apply flow_of_geo.
    - rewrite Hg2. reflexivity.
    - by apply cells_of_geo. }
  rewrite Hsame.
  exact (Cell_getFlowDirection_cached rt l _
           (Cell_with_flow v true (with_neighbors_result w2 this2 3))
           (lookup_insert_eq _ _ _) eq_refl).
Qed.

Lemma Cell_recalculateFlowDirection_same_vector_witness :
  exists w v w1 w2 w3,
    reachable (demo_runtime no_tree_tape) (Q2Qc 50) sloped_frequencies w /\
    Cell_getFlowDirection (demo_runtime no_tree_tape) 0%nat w = Some (v, w1) /\
    run_ops (demo_runtime no_tree_tape) 1 [OpGetCell 1 0; OpGetCell 0 1] w1
    = Some (tt, w2) /\
    Cell_recalculateFlowDirection (demo_runtime no_tree_tape) 0%nat w2
    = Some (tt, w3) /\
    Cell_getFlowDirection (demo_runtime no_tree_tape) 0%nat w3 = Some (v, w3).
Proof.
  destruct (world_after (demo_runtime no_tree_tape) 1 [OpGetCell 0 0]
              (Q2Qc 50) sloped_frequencies) as [w|] eqn:Hw;
    [|by vm_compute in Hw].
  assert (Hsum :
    (fun w =>
       (Cell_flowDirectionCalculated <$> heap w !! 0%nat,
        match Cell_getFlowDirection (demo_runtime no_tree_tape) 0%nat w with
        | Some (_, w1) =>
            bool_decide (is_Some (run_ops (demo_runtime no_tree_tape) 1
                                    [OpGetCell 1 0; OpGetCell 0 1] w1))
        | None => false
        end)) <$>
    world_after (demo_runtime no_tree_tape) 1 [OpGetCell 0 0]
      (Q2Qc 50) sloped_frequencies = Some (Some false, true))
    by (vm_compute; reflexivity).
  rewrite Hw in Hsum. cbn [fmap option_fmap option_map] in Hsum.
  apply (inj Some) in Hsum.
  apply (f_equal fst) in Hsum as Hc. apply (f_equal snd) in Hsum as Hrun.
  cbn [fst snd] in Hc, Hrun.
  destruct (heap w !! 0%nat) as [this|] eqn:Hthis; [|discriminate Hc].
  cbn in Hc. apply (inj Some) in Hc.
  destruct (Cell_getFlowDirection (demo_runtime no_tree_tape) 0%nat w)
    as [[v w1]|] eqn:Hget; [|discriminate Hrun].
  apply bool_decide_eq_true in Hrun as [[[] w2] Hops].
  apply world_after_reachable in Hw.
  destruct (Cell_recalculateFlowDirection_same_vector _ _ _ _ _ _ _ _ _ _ _
              Hw Hthis Hc Hget Hops) as (w3 & Hre & Hagain).
  exists w, v, w1, w2, w3. split; [exact Hw|]. split; [exact Hget|].
  split; [exact Hops|]. split; [exact Hre|exact Hagain].
Defined.

(** ** Water and neighbours *)

(** X18: Water gets no tree.  Where the terrain is lower than 0.4, [getCell] on a
    key that is absent returns with any fuel for one construction; the heap
    gains one object, the cell of the terrain, stored under the key; no
    entity is created, no random number is drawn and nothing is printed. *)
Theorem Grid_getCell_water rt cellSize f w fuel x y :
  reachable rt cellSize f w ->
  Grid_cells (grid w) !! Grid_getCellKey x y = None ->
  terrain_height rt f x y < Q2Qc 0.4 ->
  exists l w',
    Grid_getCell rt (S fuel) x y w = Some (l, w') /\
    heap w !! l = None /\
    heap w' = <[l := Cell_at rt cellSize f x y]> (heap w) /\
    Cell_water (Cell_at rt cellSize f x y) = true /\
    Cell_entities (Cell_at rt cellSize f x y) = ∅ /\
    Grid_cells (grid w') = <[Grid_getCellKey x y := l]> (Grid_cells (grid w)) /\
    ents w' = ents w /\ random_calls w' = random_calls w /\
    console w' = console w.
Proof.
  intros Hr Hkey Hwater. destruct (reachable_ok rt _ _ _ Hr) as (Hok & Hsize & Hfreq).
  rewrite <- Hfreq in Hwater.
  destruct (Cell_constructor_water rt (Game_createTree_with (Grid_getCell rt fuel))
              x y (Grid_cellSize (grid w)) w Hok Hwater) as (g & Hc & Hg).
  rewrite Hsize, Hfreq in Hc. rewrite Hfreq in Hwater.
  eexists _, _. split.
  { cbn [Grid_getCell]. rewrite Hkey, Hsize.
    apply bind_Some. eexists _, _. split; [exact Hc|].
    apply bind_Some. eexists tt, _. split; [reflexivity|]. reflexivity. }
  cbn [heap grid ents random_calls console with_heap with_grid Grid_cells
       Grid_with_cells].
  split; [apply not_elem_of_dom, is_fresh|]. split; [reflexivity|].
  split; [unfold Cell_at; cbn [Cell_init Cell_water]; by apply Qcltb_true|].
  split; [reflexivity|]. split; [by rewrite Hg|]. by repeat split.
Qed.

Lemma Grid_getCell_water_witness :
  exists l w',
    Grid_getCell (ridge_runtime no_tree_tape) 1 (-2) 0
      (Game_new (Q2Qc 50) sloped_frequencies) = Some (l, w') /\
    ents w' = ∅ /\ random_calls w' = 0%nat.
Proof.
  destruct (Grid_getCell_water (ridge_runtime no_tree_tape) (Q2Qc 50)
              sloped_frequencies (Game_new (Q2Qc 50) sloped_frequencies) 0 (-2) 0)
    as (l & w' & Hrun & _ & _ & _ & _ & _ & Hents & Hrandom & _).
  - exists 0%nat, []. reflexivity.
  - reflexivity.
  - vm_compute. reflexivity.
  - exists l, w'. split; [exact Hrun|]. split; [exact Hents|exact Hrandom].
Defined.

(** X19: The first call of [getNeighborsInRadius(r)] on a cell returns at most
    [(2r + 1)^2 - 1] cells, and none for a radius of 0 or less;
    [getNeighbors()] is that call for radius 1 and returns at most 8 cells. *)
Theorem Cell_getNeighborsInRadius_count w l this r :
  heap w !! l = Some this ->
  default ∅ (Cell_neighborsInRadius this) !! r = None ->
  exists ns w',
    Cell_getNeighborsInRadius l r w = Some (ns, w') /\
    (length ns <= Z.to_nat ((2 * r + 1) * (2 * r + 1) - 1))%nat /\
    ((r <= 0)%Z -> ns = []) /\
    (r = 1%Z -> Cell_getNeighbors l w = Some (ns, w') /\ (length ns <= 8)%nat).
Proof.
  intros Hl Hnone. eexists _, _.
  split; [exact (Cell_getNeighborsInRadius_Some l r w this Hl)|].
  cbv zeta. rewrite Hnone. change (default ?d None) with d.
  pose proof (neighbors_scan_length (Grid_cells (grid w)) (Cell_x this)
                (Cell_y this) r) as Hlen.
  split; [exact Hlen|]. split.
  - intros Hr. apply length_zero_iff_nil.
    destruct (decide (r = 0%Z)) as [->|Hne]; [cbn in Hlen; lia|].
    unfold neighbors_scan, range. by rewrite seqZ_nil by lia.
  - intros ->. split; [|exact Hlen]. unfold Cell_getNeighbors.
    rewrite (Cell_getNeighborsInRadius_Some l 1 w this Hl). cbv zeta.
    rewrite Hnone. reflexivity.
Qed.

Lemma Cell_getNeighborsInRadius_count_witness :
  exists w this ns w',
    heap w !! 0%nat = Some this /\
    Cell_getNeighbors 0%nat w = Some (ns, w') /\ (length ns <= 8)%nat.
Proof.
  destruct (world_after (demo_runtime no_tree_tape) 1 [OpGetCell 0 0; OpGetCell 1 0]
              (Q2Qc 50) sloped_frequencies) as [w|] eqn:Hw;
    [|by vm_compute in Hw].
  assert (Hsum : (fun w => bool_decide
                    ((fun this => default ∅ (Cell_neighborsInRadius this) !! 1%Z)
                       <$> heap w !! 0%nat = Some None)) <$>
                 world_after (demo_runtime no_tree_tape) 1
                   [OpGetCell 0 0; OpGetCell 1 0] (Q2Qc 50) sloped_frequencies
                 = Some true).
  { vm_compute. reflexivity. }
  rewrite Hw in Hsum. cbn [fmap option_fmap option_map] in Hsum.
  apply (inj Some) in Hsum. apply bool_decide_eq_true in Hsum.
  destruct (heap w !! 0%nat) as [this|] eqn:Hl; [|discriminate Hsum].
  cbn [fmap option_fmap option_map] in Hsum.
  apply (inj Some) in Hsum. rename Hsum into Hnone.
  destruct (Cell_getNeighborsInRadius_count w 0%nat this 1 Hl Hnone)
    as (ns & w' & _ & _ & _ & Hone).
  destruct (Hone eq_refl) as [Hrun Hlen].
  exists w, this, ns, w'. split; [exact Hl|]. split; [exact Hrun|exact Hlen].
Defined.

(** ** The colour of a cell *)



(** X21: [getColorString] names the colour: two cells with the same string have
    the same channels, whatever their terrain. *)
Theorem Cell_getColorString_inj c c' :
  Cell_getColorString c = Cell_getColorString c' ->
  Cell_getColor c = Cell_getColor c'.
Proof.
  unfold Cell_getColorString. cbv zeta.
  destruct (Cell_getColor c) as [r g b], (Cell_getColor c') as [r' g' b'].
  cbn [Color_r Color_g Color_b]. intros H.
  change ("rgb(" +:+ ?s) with (String "r" (String "g" (String "b" (String "(" s)))) in H.
  injection H as H.
  change (", " +:+ ?s) with (String "," (String " " s)) in H.
  apply (append_sep_inj ","%char) in H as [Hr H];
    try (apply pretty_Z_no_char; [apply not_digit_comma | discriminate]).
  injection H as H.
  apply (append_sep_inj ","%char) in H as [Hg H];
    try (apply pretty_Z_no_char; [apply not_digit_comma | discriminate]).
  injection H as H.
  apply (append_end_inj ")"%char) in H;
    try (apply pretty_Z_no_char; [apply not_digit_paren | discriminate]).
  apply (inj pretty) in Hr, Hg, H. by subst.
Qed.

Lemma Cell_getColorString_inj_witness :
  Cell_getColorString (Cell_init 0 0 (Q2Qc 50) (Q2Qc 0.5) (Q2Qc 0.5) (Q2Qc 0.5))
  = Cell_getColorString (Cell_init 3 (-2) (Q2Qc 64) (Q2Qc 0.5) (Q2Qc 0.5) (Q2Qc 0.5)) /\
  Cell_getColor (Cell_init 0 0 (Q2Qc 50) (Q2Qc 0.5) (Q2Qc 0.5) (Q2Qc 0.5))
  = Cell_getColor (Cell_init 3 (-2) (Q2Qc 64) (Q2Qc 0.5) (Q2Qc 0.5) (Q2Qc 0.5)).
Proof.
  assert (H : Cell_getColorString
                (Cell_init 0 0 (Q2Qc 50) (Q2Qc 0.5) (Q2Qc 0.5) (Q2Qc 0.5))
              = Cell_getColorString
                  (Cell_init 3 (-2) (Q2Qc 64) (Q2Qc 0.5) (Q2Qc 0.5) (Q2Qc 0.5)))
    by (vm_compute; reflexivity).
  split; [exact H|]. exact (Cell_getColorString_inj _ _ H).
Defined.

(** ** Harvesting a tree *)

(** X22: [harvest] always returns and never deactivates the tree, whatever its
    health: a tree it accepts has more than 50 health, so what is left is
    positive.  A tree with 50 health or less gives the empty yield, is left as
    it is, and no random number is drawn. *)
Theorem Tree_harvest_never_kills rt tree w :
  exists h tree' w',
    Tree_harvest rt tree w = Some ((h, tree'), w') /\
    Tree_active tree' = Tree_active tree /\
    Tree_treeType tree' = Tree_treeType tree /\
    (Tree_health tree <= Z2Qc 50 ->
       tree' = tree /\ w' = w /\
       h = {| Harvest_wood := 0; Harvest_seeds := 0; Harvest_treeType := None |}) /\
    (Z2Qc 50 < Tree_health tree ->
       Tree_health tree' = Tree_health tree - Z2Qc 50 /\
       0 < Tree_health tree' /\
       Harvest_treeType h = Some (Tree_treeType tree) /\
       random_calls w' = S (S (random_calls w))).
Proof.
  unfold Tree_harvest, Tree_canHarvest.
  destruct (Qcltb (Z2Qc 50) (Tree_health tree)) eqn:Hcan; cbn [negb].
  - apply Qcltb_true in Hcan.
    assert (Hpos : 0 < Tree_health tree - Z2Qc 50).
    { unfold Qclt in *. rewrite this_minus. change (this 0) with 0%Q. lra. }
    assert (Hle : Qcleb (Tree_health tree - Z2Qc 50) 0 = false).
    { apply Qcleb_false. exact Hpos. }
    eexists _, _, _. split; [unfold bind, random, ret; reflexivity|].
    cbn [Tree_active Tree_treeType Tree_health Harvest_treeType random_calls
         with_random_calls].
    rewrite Hle. split; [done|]. split; [done|]. split.
    + intros Hh. destruct (Qclt_not_le _ _ Hcan Hh).
    + intros _. by repeat split.
  - apply Qcltb_false in Hcan.
    eexists _, _, _. split; [reflexivity|]. split; [done|]. split; [done|]. split.
    + by intros _.
    + intros Hh. destruct (Qclt_not_le _ _ Hh Hcan).
Qed.

Lemma Tree_harvest_never_kills_witness :
  exists h w',
    Tree_harvest (demo_runtime no_tree_tape)
      {| Tree_treeType := "oak"; Tree_health := Z2Qc 120; Tree_active := true |}
      (Game_new (Q2Qc 50) lattice_frequencies) =
    Some ((h, {| Tree_treeType := "oak"; Tree_health := Z2Qc 70;
                 Tree_active := true |}), w').
Proof.
  destruct (Tree_harvest_never_kills (demo_runtime no_tree_tape)
              {| Tree_treeType := "oak"; Tree_health := Z2Qc 120;
                 Tree_active := true |}
              (Game_new (Q2Qc 50) lattice_frequencies))
    as (h & [type health active] & w' & Hrun & Hactive & Htype & _ & Hmore).
  destruct (Hmore (Z2Qc_lt 50 120 eq_refl)) as (Hhealth & _).
  cbn [Tree_active Tree_treeType Tree_health] in Hactive, Htype, Hhealth.
  exists h, w'. rewrite Hrun. subst type active. rewrite Hhealth.
  replace (Z2Qc 120 - Z2Qc 50) with (Z2Qc 70) by (apply Qc_is_canon; reflexivity).
  reflexivity.
Defined.

(** X23: A new tree can be harvested once.  Of [n + 1] calls of [harvest] in a
    row, the first gives 3 to 7 wood and at most one seed, for two random
    numbers of which the first is in [0, 1); every later call gives the empty
    yield.  The tree is left active with 50 health. *)
Theorem Tree_harvests_once rt type n w :
  0 <= Math_random rt (random_calls w) -> Math_random rt (random_calls w) < 1 ->
  exists h w',
    Tree_harvests rt (S n) (Tree_new type) w =
    Some ((h :: replicate n {| Harvest_wood := 0; Harvest_seeds := 0;
                               Harvest_treeType := None |},
           {| Tree_treeType := type; Tree_health := Z2Qc 50;
              Tree_active := true |}), w') /\
    (3 <= Harvest_wood h <= 7)%Z /\
    (Harvest_seeds h = 0 \/ Harvest_seeds h = 1)%Z /\
    Harvest_treeType h = Some type /\
    random_calls w' = S (S (random_calls w)).
Proof.
  intros H0 H1.
  assert (Hhalf : Z2Qc 100 - Z2Qc 50 = Z2Qc 50).
  { apply Qc_is_canon. reflexivity. }
  assert (Hcan : Tree_canHarvest (Tree_new type) = true).
  { unfold Tree_canHarvest, Tree_new. cbn [Tree_health].
    apply Qcltb_true. by apply Z2Qc_lt. }
  assert (Hspent : Tree_canHarvest {| Tree_treeType := type; Tree_health := Z2Qc 50;
                                      Tree_active := true |} = false).
  { unfold Tree_canHarvest. cbn [Tree_health]. apply Qcltb_false. apply Qcle_refl. }
  assert (Hle : Qcleb (Z2Qc 50) 0 = false).
  { apply Qcleb_false. exact (Z2Qc_lt 0 50 eq_refl). }
  cbn [Tree_harvests]. unfold bind at 1. unfold Tree_harvest at 1.
  rewrite Hcan. cbn [negb]. unfold bind at 1, random at 1.
  unfold bind at 1, random at 1. unfold ret at 1.
  cbn [fst snd Tree_new Tree_health Tree_active Tree_treeType random_calls
       with_random_calls].
  rewrite Hhalf, Hle. unfold bind at 1.
  rewrite (Tree_harvests_spent rt n _ _ Hspent). unfold ret. cbn [fst snd].
  eexists _, _. split; [reflexivity|].
  cbn [Harvest_wood Harvest_seeds Harvest_treeType random_calls with_random_calls].
  split; [by apply floor_yield|]. split; [|done].
  destruct (Qcltb _ _); [by right|by left].
Qed.

Lemma Tree_harvests_once_witness :
  exists h w',
    Tree_harvests (demo_runtime no_tree_tape) 3 (Tree_new "oak")
      (Game_new (Q2Qc 50) lattice_frequencies) =
    Some (([h; {| Harvest_wood := 0; Harvest_seeds := 0; Harvest_treeType := None |};
               {| Harvest_wood := 0; Harvest_seeds := 0; Harvest_treeType := None |}],
           {| Tree_treeType := "oak"; Tree_health := Z2Qc 50;
              Tree_active := true |}), w') /\
    (3 <= Harvest_wood h <= 7)%Z.
Proof.
  destruct (Tree_harvests_once (demo_runtime no_tree_tape) "oak" 2
              (Game_new (Q2Qc 50) lattice_frequencies))
    as (h & w' & Hrun & Hwood & _); [by vm_compute|by vm_compute|].
  exists h, w'. split; [exact Hrun|exact Hwood].
Defined.

(** ** The debug information of the grid *)

(** X24: After calls that maintain the index, [getDebugInfo] returns, changes
    nothing, and its counts are exact: [totalCells] is the number of keys of
    the map, and [totalEntities] is the number of entities whose current cell
    is a cell of the map, each counted once; it never exceeds the number of
    entities created. *)
Theorem Grid_getDebugInfo_counts rt cellSize f fuel ops w :
  run_ops rt fuel ops (Game_new cellSize f) = Some (tt, w) ->
  index_calls rt fuel ops (Game_new cellSize f) = true ->
  exists info,
    Grid_getDebugInfo w = Some (info, w) /\
    debug_totalCells info = size (Grid_cells (grid w)) /\
    debug_totalEntities info
    = size (filter (fun e => in_map_cell w e = true) (dom (ents w))) /\
    (debug_totalEntities info <= size (ents w))%nat.
Proof.
  intros Hrun Hcalls.
  destruct (run_ops_ok rt _ _ _ _ _ (world_ok_new rt cellSize f) Hrun) as [Hok _].
  pose proof (run_ops_index rt _ _ _ _ _ (world_ok_new rt cellSize f)
                (index_inv_new cellSize f) Hcalls Hrun) as Hinv.
  destruct (Grid_getDebugInfo_spec rt w Hok Hinv) as (info & Hget & Hcells & Hents & _).
  exists info. split; [exact Hget|]. split; [exact Hcells|]. split; [exact Hents|].
  rewrite Hents, <- size_dom. apply subseteq_size.
  intros e He. by apply elem_of_filter in He as [_ He].
Qed.

Lemma Grid_getDebugInfo_counts_witness :
  exists w info,
    run_ops (demo_runtime one_tree_tape) 2
      [OpNewEntity (Q2Qc 10) (Q2Qc 10); OpUpdateEntity 0 (Q2Qc (-60)) (Q2Qc 120);
       OpRemoveEntity 1; OpAddEntity 1 (Q2Qc 70) 0]
      (Game_new (Q2Qc 50) lattice_frequencies) = Some (tt, w) /\
    Grid_getDebugInfo w = Some (info, w) /\
    (debug_totalEntities info <= size (ents w))%nat.
Proof.
  destruct (world_after (demo_runtime one_tree_tape) 2
      [OpNewEntity (Q2Qc 10) (Q2Qc 10); OpUpdateEntity 0 (Q2Qc (-60)) (Q2Qc 120);
       OpRemoveEntity 1; OpAddEntity 1 (Q2Qc 70) 0]
              (Q2Qc 50) lattice_frequencies) as [w|] eqn:Hw;
    [|by vm_compute in Hw].
  apply world_after_Some in Hw.
  destruct (Grid_getDebugInfo_counts _ _ _ _ _ _ Hw) as (info & Hget & _ & _ & Hle);
    [vm_compute; reflexivity|].
  exists w, info. split; [exact Hw|]. split; [exact Hget|exact Hle].
Defined.

(** ** The visualisation of the grid *)


